(** * OWLIN document preprocessing: segmentation, field extraction and
      the hybrid preprocessing stages

    A shallow embedding of the decision logic of [cpp_preprocessing]:
    - [segmentation/segmentation.cpp]      (class [Segmenter]),
    - [postprocessing/postprocessing.cpp]  ([extract_invoice_fields]),
    - [preprocessing/preprocessing.cpp] and
      [preprocessing/tesseract_preprocessing.cpp]
      ([TesseractPreprocessor], [HybridPreprocessor], the pipelines),
    - [segmentation/line_segmentation.cpp], [layout/layout.cpp] and
      [recognition/recognition.cpp],
    - the C interfaces [segmentation/segmentation_c_api.cpp],
      [preprocess_c_api.cpp], [recognition/recognition_c_api.cpp] and
      [api/owlin_ocr_c_api.cpp].

    Conventions.
    - A C++ [int] is a [Z].  The [int]s of the line scan are pixel indices
      and pixel counts of one row, bounded by [rows] and [cols], which
      are [int]s themselves.  The area [bin.rows * bin.cols] of a crop can
      leave the range of [int] and is taken with [int_mul].
    - An image ([cv::Mat] of 8-bit samples) is its header ([rows], [cols],
      [channels]) and its sample accessor [at<uchar>(y, x)].
    - A C++ exception is the [Throw] outcome of the [outcome] monad; every
      exception thrown by OpenCV or the standard library derives from
      [std::exception], which is what every [catch] clause of the sources
      names.
    - A call that can run into undefined behaviour (the overflow of a
      signed [int], [pixDestroy] on an image that is already destroyed)
      is a [behaviour]: [Undefined], or an [outcome].  No [catch] clause
      brings [Undefined] back.  A call that cannot is an [outcome], read
      as a [behaviour] where the two meet.
    - OpenCV, Leptonica and Tesseract calls whose result is not computed
      by this repository are fields of the interfaces [OpenCV], [Imgproc],
      [Imgcodecs], [Leptonica], [LeptonicaTRC] and [TessBaseAPI].
    - A pointer argument of a C entry point is an [option]: [None] for a
      null pointer, [Some v] for a pointer to a cell holding [v]; a call
      returns the cells as it leaves them.  A thread-local such as
      [g_last_error] is passed in and returned.
    - The byte counts of the C interfaces and the area OpenCV computes in
      [cv::Rect::area()] are taken in [Z], for images below [2^31] bytes.
    - Wall-clock timing strings ([g_last_timing]) and console logging are
      left out: no function result depends on them. *)

From Stdlib Require Import Ascii String QArith.
From stdpp Require Import base list sorting gmap strings.

Local Open Scope string_scope.
Local Open Scope list_scope.
Local Open Scope Z_scope.

(** ** Exceptions *)

Inductive outcome (A : Type) : Type :=
| Ret (a : A)
| Throw (what : string).
Arguments Ret {A} a.
Arguments Throw {A} what.

Global Instance outcome_ret : MRet outcome := λ A a, Ret a.
Global Instance outcome_bind : MBind outcome := λ A B k m,
  match m with
  | Ret a => k a
  | Throw e => Throw e
  end.

(** ** Undefined behaviour *)

Inductive behaviour (A : Type) : Type :=
| Defined (o : outcome A)
| Undefined.
Arguments Defined {A} o.
Arguments Undefined {A}.

Coercion Defined : outcome >-> behaviour.

Global Instance behaviour_bind : MBind behaviour := λ A B k m,
  match m with
  | Defined (Ret a) => k a
  | Defined (Throw e) => Defined (Throw e)
  | Undefined => Undefined
  end.

(** [try { body } catch (const std::exception& e) { handler }] *)
Definition try_catch {A} (body : behaviour A) (handler : string → behaviour A)
  : behaviour A :=
  match body with
  | Defined (Ret a) => Defined (Ret a)
  | Defined (Throw e) => handler e
  | Undefined => Undefined
  end.

Definition returns {A} (m : outcome A) : Prop := ∃ a, m = Ret a.

(** The call has defined behaviour and returns a value. *)
Definition completes {A} (m : behaviour A) : Prop := ∃ a, m = Defined (Ret a).

(** The product of two [int]s; signed overflow is undefined behaviour. *)
Definition int_mul (a b : Z) : behaviour Z :=
  if (- 2 ^ 31 <=? a * b) && (a * b <? 2 ^ 31) then Defined (Ret (a * b))
  else Undefined.

(** A range-based [for] whose body may throw. *)
Fixpoint for_each {A B} (body : A → outcome B) (l : list A) : outcome (list B) :=
  match l with
  | [] => Ret []
  | a :: l' =>
      b ← body a; bs ← for_each body l'; Ret (b :: bs)
  end.

(** The same loop over a body that is a [behaviour]. *)
Fixpoint for_each_ub {A B} (body : A → behaviour B) (l : list A)
  : behaviour (list B) :=
  match l with
  | [] => Defined (Ret [])
  | a :: l' =>
      b ← body a; bs ← for_each_ub body l'; Defined (Ret (b :: bs))
  end.

(** ** Images, points and rectangles *)

Record Mat := mkMat {
  mat_rows : N;
  mat_cols : N;
  mat_channels : N;
  at_uchar : Z → Z → Z     (* img.at<uchar>(y, x) *)
}.

(** [img.rows], [img.cols] and [img.channels()], as the [int]s they are. *)
Definition rows (m : Mat) : Z := Z.of_N (mat_rows m).
Definition cols (m : Mat) : Z := Z.of_N (mat_cols m).
Definition channels (m : Mat) : Z := Z.of_N (mat_channels m).

(** [cv::Mat::empty()] *)
Definition Mat_empty (m : Mat) : bool := (rows m =? 0) || (cols m =? 0).

(** [cv::Mat()] *)
Definition Mat_default : Mat := mkMat 0 0 1 (λ _ _, 0).

(** [img.clone()]: a deep copy has the header and the samples of [img]. *)
Definition clone (m : Mat) : Mat := m.

Module Point.
Record t := mk { x : Z; y : Z }.
End Point.

Module Rect.
Record t := mk { x : Z; y : Z; width : Z; height : Z }.
End Rect.

(** [struct Box { int x, y, w, h; }] *)
Module Box.
Record t := mk { x : Z; y : Z; w : Z; h : Z }.
End Box.

(** [struct ScoredBox { Box box; double confidence; }]; the quotient of two
    [int]s converted to [double] is kept as the exact rational. *)
Module ScoredBox.
Record t := mk { box : Box.t; confidence : Q }.
End ScoredBox.

(** [img(cv::Rect(x, y, w, h))]: OpenCV asserts that the rectangle lies
    inside the image and throws otherwise. *)
Definition Mat_roi (img : Mat) (r : Rect.t) : outcome Mat :=
  if (0 <=? Rect.x r) && (0 <=? Rect.width r)
     && (Rect.x r + Rect.width r <=? cols img)
     && (0 <=? Rect.y r) && (0 <=? Rect.height r)
     && (Rect.y r + Rect.height r <=? rows img)
  then Ret (mkMat (Z.to_N (Rect.height r)) (Z.to_N (Rect.width r))
                  (mat_channels img)
                  (λ y x, at_uchar img (Rect.y r + y) (Rect.x r + x)))
  else Throw "OpenCV: roi assertion failed".

(** [cv::findNonZero(m.row(y), nonzero)]: the x coordinates of the nonzero
    samples of row [y], left to right. *)
Definition findNonZero_row (m : Mat) (y : Z) : list Z :=
  List.filter (λ x, negb (at_uchar m y x =? 0)) (seqZ 0 (cols m)).

(** [cv::countNonZero(m.row(y))] *)
Definition countNonZero_row (m : Mat) (y : Z) : Z :=
  Z.of_nat (length (findNonZero_row m y)).

(** [cv::countNonZero(m)] *)
Definition countNonZero (m : Mat) : Z :=
  fold_left (λ acc y, acc + countNonZero_row m y) (seqZ 0 (rows m)) 0.

(** [cv::boundingRect] of an integer point set: the smallest up-right
    rectangle holding every point; the empty rectangle for no points. *)
Definition boundingRect (pts : list Point.t) : Rect.t :=
  match pts with
  | [] => Rect.mk 0 0 0 0
  | p :: ps =>
      let xmin := fold_left Z.min (Point.x <$> ps) (Point.x p) in
      let xmax := fold_left Z.max (Point.x <$> ps) (Point.x p) in
      let ymin := fold_left Z.min (Point.y <$> ps) (Point.y p) in
      let ymax := fold_left Z.max (Point.y <$> ps) (Point.y p) in
      Rect.mk xmin ymin (xmax - xmin + 1) (ymax - ymin + 1)
  end.

(** ** The vision primitives taken from OpenCV *)

Inductive AdaptiveMethod := ADAPTIVE_THRESH_MEAN_C | ADAPTIVE_THRESH_GAUSSIAN_C.

Class OpenCV := {
  (** the level Otsu's method picks for [THRESH_OTSU] *)
  getThreshVal_Otsu : Mat → Z;
  (** [cv::findContours(bin, contours, RETR_EXTERNAL, CHAIN_APPROX_SIMPLE)] *)
  findContours : Mat → list (list Point.t);
}.

(** ** The primitives taken from Leptonica and from OpenCV's imgproc *)

(** A Leptonica [PIX]: width, height, depth and [pixGetPixel(pix, x, y)]. *)
Record Pix := mkPix {
  pix_w : Z;
  pix_h : Z;
  pix_d : Z;
  pix_at : Z → Z → Z      (* row y, column x *)
}.

(** A [struct Pix*], [struct Boxa*] or [struct Box*] is null ([None]) when
    the Leptonica call failed. *)
Class Leptonica := {
  (** whether [std::make_unique<TesseractPreprocessor>()] succeeds *)
  make_TesseractPreprocessor : outcome ();
  (** whether [pixCreate(w, h, d)] returns an image *)
  pixCreate_succeeds : Z → Z → Z → bool;
  pixConvertTo8 : Pix → option Pix;
  pixOtsuAdaptiveThreshold : Pix → option Pix;
  pixAdaptiveThreshold : Pix → option Pix;
  pixAnd : Pix → Pix → option Pix;
  pixFindSkewAndDeskew : Pix → option Pix;
  pixFindPageForeground : Pix → option (list Rect.t);
  pixClipRectangle : Pix → Rect.t → option Pix;
  pixOpenBrick : Pix → Z → Z → option Pix;
  pixCloseBrick : Pix → Z → Z → option Pix;
}.

(** [cv::RotatedRect], of which the sources read [center] and [angle]. *)
Record RotatedRect (F : Type) := mkRotatedRect {
  center : F * F;
  angle : F
}.
Arguments center {F} _.
Arguments angle {F} _.

(** The OpenCV calls of the preprocessing stages.  [float] stands for the
    C++ [float] and [Transform] for a transformation matrix; a call that
    can fail an OpenCV assertion returns an [outcome]. *)
Class Imgproc := {
  float : Type;
  Transform : Type;
  f_of_int : Z → float;
  f_to_int : float → Z;            (* the cast [(int)f] *)
  f_lt : float → float → bool;
  f_add : float → float → float;
  f_sub : float → float → float;
  f_max : float → float → float;
  cvtColor_BGR2GRAY : Mat → outcome Mat;
  (** [cv::resize(img, out, cv::Size(), scale, scale, cv::INTER_CUBIC)] *)
  cv_resize : Mat → Q → outcome Mat;
  (** [cv::adaptiveThreshold(img, out, 255, method, THRESH_BINARY, blockSize, C)] *)
  adaptiveThreshold : Mat → AdaptiveMethod → Z → Z → outcome Mat;
  findNonZero : Mat → outcome (list Point.t);
  minAreaRect : list Point.t → outcome (RotatedRect float);
  getRotationMatrix2D : float * float → float → Q → Transform;
  (** [cv::warpAffine(img, out, M, size, INTER_CUBIC, BORDER_REPLICATE)] *)
  warpAffine : Mat → Transform → Z * Z → outcome Mat;
  contourArea : list Point.t → Q;
  approxPolyDP : list Point.t → Z → bool → list Point.t;
  (** [cv::norm(a - b)] *)
  norm_diff : float * float → float * float → float;
  getPerspectiveTransform : list (float * float) → list (float * float) → outcome Transform;
  warpPerspective : Mat → Transform → Z * Z → outcome Mat;
  medianBlur : Mat → Z → outcome Mat;
  bilateralFilter : Mat → Z → Z → Z → outcome Mat;
}.

(** ** [segmentation.cpp] *)

Section Segmenter.
Context `{!OpenCV}.

(** [cv::threshold(img, bin, 0, 255, THRESH_BINARY_INV | THRESH_OTSU)] *)
Definition threshold_binary_inv_otsu (img : Mat) : Mat :=
  let t := getThreshVal_Otsu img in
  mkMat (mat_rows img) (mat_cols img) (mat_channels img)
        (λ y x, if t <? at_uchar img y x then 0 else 255).

(** [proj[y] = cv::countNonZero(bin.row(y))] *)
Definition proj (bin : Mat) (y : Z) : Z := countNonZero_row bin y.

Definition min_line_height : Z := 8.
Definition min_line_sum (bin : Mat) : Z := cols bin `quot` 20.

(** The body of the inner loop over [yy] of [segment_lines]: the pair is
    ([x_min], [x_max]). *)
Definition extent_row (bin : Mat) (acc : Z * Z) (yy : Z) : Z * Z :=
  let nonzero := findNonZero_row bin yy in
  match head nonzero, last nonzero with
  | Some x0, Some x1 => (Z.min acc.1 x0, Z.max acc.2 x1)
  | _, _ => acc
  end.

(** [int x_min = bin.cols, x_max = 0; for (yy = y0; yy <= y1; ++yy) ...] *)
Definition band_x_extent (bin : Mat) (y0 y1 : Z) : Z * Z :=
  fold_left (extent_row bin) (seqZ y0 (y1 - y0 + 1)) (cols bin, 0).

(** The loop state of [segment_lines]: [in_line], [y0] and [boxes]. *)
Record line_scan := mkScan {
  in_line : bool;
  y0 : Z;
  boxes : list Box.t
}.

(** One iteration of [for (int y = 0; y < bin.rows; ++y)]. *)
Definition scan_row (bin : Mat) (st : line_scan) (y : Z) : line_scan :=
  if min_line_sum bin <? proj bin y then
    if in_line st then st else mkScan true y (boxes st)
  else
    if in_line st then
      let y1 := y - 1 in
      let boxes' :=
        if min_line_height <=? y1 - y0 st + 1 then
          let '(x_min, x_max) := band_x_extent bin (y0 st) y1 in
          if x_min <? x_max then
            boxes st ++ [Box.mk x_min (y0 st) (x_max - x_min + 1) (y1 - y0 st + 1)]
          else boxes st
        else boxes st in
      mkScan false (y0 st) boxes'
    else st.

Definition scan_rows (bin : Mat) (n : Z) : line_scan :=
  fold_left (scan_row bin) (seqZ 0 n) (mkScan false 0 []).

Definition usage_error : string := "Input image must be non-empty and grayscale".

(** [Segmenter::segment_lines(img, err_msg)]: the returned boxes and the
    value left in the in-out parameter [err_msg]. *)
Definition segment_lines (img : Mat) (err_msg : string) : list Box.t * string :=
  if Mat_empty img || negb (channels img =? 1) then ([], usage_error)
  else
    let bin := threshold_binary_inv_otsu img in
    (boxes (scan_rows bin (rows bin)), EmptyString).

(** The body of the loop over [contours] in [segment_words]. *)
Definition keep_word (boxes : list Box.t) (c : list Point.t) : list Box.t :=
  let r := boundingRect c in
  if (5 <? Rect.width r) && (5 <? Rect.height r) then
    boxes ++ [Box.mk (Rect.x r) (Rect.y r) (Rect.width r) (Rect.height r)]
  else boxes.

(** [Segmenter::segment_words(img, err_msg)] *)
Definition segment_words (img : Mat) (err_msg : string) : list Box.t * string :=
  if Mat_empty img || negb (channels img =? 1) then ([], usage_error)
  else
    let bin := threshold_binary_inv_otsu img in
    let contours := findContours bin in
    (fold_left keep_word contours [], EmptyString).

(** The body of the loop over [lines] in [segment_with_confidence];
    [bin.rows * bin.cols] is a product of two [int]s. *)
Definition score_line (img : Mat) (line : Box.t) : behaviour ScoredBox.t :=
  roi ← Defined (Mat_roi img (Rect.mk (Box.x line) (Box.y line)
                                      (Box.w line) (Box.h line)));
  let bin := threshold_binary_inv_otsu roi in
  area ← int_mul (rows bin) (cols bin);
  let conf := (inject_Z (countNonZero bin) / inject_Z area)%Q in
  Defined (Ret (ScoredBox.mk line conf)).

(** [Segmenter::segment_with_confidence(img, err_msg)] *)
Definition segment_with_confidence (img : Mat) (err_msg : string)
  : behaviour (list ScoredBox.t * string) :=
  let '(lines, err_msg) := segment_lines img err_msg in
  if negb (String.eqb err_msg EmptyString) then Defined (Ret ([], err_msg))
  else (scored ← for_each_ub (score_line img) lines;
        Defined (Ret (scored, EmptyString))).

(** One iteration of the [#pragma omp parallel for] of [segment_batch]:
    it reads [imgs[i]] and writes slot [i] of both output vectors. *)
Definition batch_iteration (imgs : list Mat)
    (st : list (list Box.t) * list string) (i : nat)
  : list (list Box.t) * list string :=
  match imgs !! i with
  | Some img =>
      let '(r, err) := segment_lines img EmptyString in
      (<[i := r]> st.1, <[i := err]> st.2)
  | None => st
  end.

(** [Segmenter::segment_batch(imgs, out_errors)], the iterations run in
    the order [schedule]: OpenMP runs each index of [0 .. N-1] once, in an
    order of its choosing. *)
Definition segment_batch_in (schedule : list nat) (imgs : list Mat)
    (out_errors : list string) : list (list Box.t) * list string :=
  let results := replicate (length imgs) [] in
  let out_errors := resize (length imgs) EmptyString out_errors in
  fold_left (batch_iteration imgs) schedule (results, out_errors).

(** The sequential schedule (the program compiled without OpenMP). *)
Definition segment_batch (imgs : list Mat) (out_errors : list string)
  : list (list Box.t) * list string :=
  segment_batch_in (seq 0 (length imgs)) imgs out_errors.

End Segmenter.

(** ** [postprocessing.cpp] *)

(** [std::regex] with the default ECMAScript grammar: a backtracking matcher
    that tries the alternatives of [|] left to right and lets [*] take as
    many iterations as the rest of the pattern allows. *)
Module Regex.
Inductive t :=
| Eps
| Chr (p : ascii → bool)
| Seq (r1 r2 : t)
| Alt (r1 r2 : t)
| Star (r : t)
| Group (i : nat) (r : t).

(** The sub-matches recorded so far, by group number. *)
Abbreviation captures := (gmap nat (list ascii)).

Fixpoint run {A} (r : t) (s : list ascii) (caps : captures)
    (k : list ascii → captures → option A) : option A :=
  match r with
  | Eps => k s caps
  | Chr p =>
      match s with
      | c :: s' => if p c then k s' caps else None
      | [] => None
      end
  | Seq r1 r2 => run r1 s caps (λ s' caps', run r2 s' caps' k)
  | Alt r1 r2 =>
      match run r1 s caps k with
      | Some a => Some a
      | None => run r2 s caps k
      end
  | Star r1 =>
      (fix iterate (fuel : nat) (s : list ascii) (caps : captures) : option A :=
         match fuel with
         | O => k s caps
         | S fuel' =>
             match run r1 s caps
                     (λ s' caps', if (length s' <? length s)%nat
                                  then iterate fuel' s' caps' else None) with
             | Some a => Some a
             | None => k s caps
             end
         end) (length s) s caps
  | Group i r1 =>
      run r1 s caps
        (λ s' caps', k s' (<[i := take (length s - length s') s]> caps'))
  end.

(** [std::regex_search]: the match at the leftmost position that has one. *)
Fixpoint search (re : t) (s : list ascii) : option captures :=
  match run re s ∅ (λ _ caps, Some caps) with
  | Some caps => Some caps
  | None =>
      match s with
      | [] => None
      | _ :: s' => search re s'
      end
  end.

(** [m.str(i)] *)
Definition str (m : captures) (i : nat) : string :=
  string_of_list_ascii (default [] (m !! i)).

Definition is_digit (c : ascii) : bool :=
  let n := nat_of_ascii c in (48 <=? n)%nat && (n <=? 57)%nat.

(** [\s]: space, tab, line feed, vertical tab, form feed, carriage return *)
Definition is_space (c : ascii) : bool :=
  let n := nat_of_ascii c in (n =? 32)%nat || ((9 <=? n)%nat && (n <=? 13)%nat).

Definition to_lower (c : ascii) : ascii :=
  let n := nat_of_ascii c in
  if (65 <=? n)%nat && (n <=? 90)%nat then ascii_of_nat (n + 32) else c.

Definition one_of (cs : string) (c : ascii) : bool :=
  existsb (Ascii.eqb c) (list_ascii_of_string cs).

(** a literal under [std::regex::icase] *)
Definition lit_icase (w : string) : t :=
  foldr (λ c r, Seq (Chr (λ d, Ascii.eqb (to_lower d) (to_lower c))) r) Eps
        (list_ascii_of_string w).

Definition plus (r : t) : t := Seq r (Star r).
Fixpoint rep (n : nat) (r : t) : t :=
  match n with O => Eps | S n' => Seq r (rep n' r) end.

Definition digit : t := Chr is_digit.
End Regex.

(** [(INV\s*\d+)], [std::regex::icase] *)
Definition invnum_re : Regex.t :=
  Regex.Group 1
    (Regex.Seq (Regex.lit_icase "INV")
       (Regex.Seq (Regex.Star (Regex.Chr Regex.is_space)) (Regex.plus Regex.digit))).

(** [(\d{2}[/-]\d{2}[/-]\d{4}|\d{4}[/-]\d{2}[/-]\d{2})] *)
Definition date_re : Regex.t :=
  let sep := Regex.Chr (Regex.one_of "/-") in
  let d n := Regex.rep n Regex.digit in
  Regex.Group 1
    (Regex.Alt
       (Regex.Seq (d 2%nat) (Regex.Seq sep (Regex.Seq (d 2%nat) (Regex.Seq sep (d 4%nat)))))
       (Regex.Seq (d 4%nat) (Regex.Seq sep (Regex.Seq (d 2%nat) (Regex.Seq sep (d 2%nat)))))).

(** [Total[^\d]*(\d+[.,]\d{2})], [std::regex::icase] *)
Definition total_re : Regex.t :=
  Regex.Seq (Regex.lit_icase "Total")
    (Regex.Seq (Regex.Star (Regex.Chr (λ c, negb (Regex.is_digit c))))
       (Regex.Group 1
          (Regex.Seq (Regex.plus Regex.digit)
             (Regex.Seq (Regex.Chr (Regex.one_of ".,")) (Regex.rep 2 Regex.digit))))).

(** [fields[key] = m.str(1)] when [re] is found in [ocr_text]. *)
Definition extract_field (key : string) (re : Regex.t) (ocr_text : string)
    (fields : gmap string string) : gmap string string :=
  match Regex.search re (list_ascii_of_string ocr_text) with
  | Some m => <[key := Regex.str m 1]> fields
  | None => fields
  end.

(** [extract_invoice_fields(ocr_text)] *)
Definition extract_invoice_fields (ocr_text : string) : gmap string string :=
  let fields := ∅ in
  let fields := extract_field "invoice_number" invnum_re ocr_text fields in
  let fields := extract_field "date" date_re ocr_text fields in
  let fields := extract_field "total" total_re ocr_text fields in
  fields.

(** The text of [test_invoice_field_extraction]. *)
Definition sample_invoice_text : string :=
  let nl := String (ascii_of_nat 10) EmptyString in
  (nl +:+ "        Invoice Number: INV12345"
   +:+ nl +:+ "        Date: 2023-05-12"
   +:+ nl +:+ "        Total: $1,234.56"
   +:+ nl +:+ "    ")%string.

(** ** [tesseract_preprocessing.cpp]: [TesseractPreprocessor] *)

Section TesseractPreprocessor.
Context `{!Leptonica, !Imgproc}.

(** [is_available()] *)
Definition is_available : bool := true.

(** [mat_to_pix] on an image that is not 3-channel: [pixCreate] and the
    copy loop over [pixSetPixel]. *)
Definition mat_to_pix_direct (mat : Mat) : option Pix :=
  if Mat_empty mat then None
  else if channels mat =? 1 then
    if pixCreate_succeeds (cols mat) (rows mat) 8
    then Some (mkPix (cols mat) (rows mat) 8 (at_uchar mat))
    else None
  else None.

(** [mat_to_pix(mat)]; the grayscale image the 3-channel branch recurses
    on is single-channel, so the recursion ends after that one call. *)
Definition mat_to_pix (mat : Mat) : outcome (option Pix) :=
  if Mat_empty mat then Ret None
  else if channels mat =? 1 then Ret (mat_to_pix_direct mat)
  else if channels mat =? 3 then
    gray ← cvtColor_BGR2GRAY mat; Ret (mat_to_pix_direct gray)
  else Ret None.

(** [pixDestroy(&pix)] where [pix] points to an image with the one
    reference its creator returned; [destroyed] tells whether that image
    was destroyed before, in which case Leptonica reads and frees memory
    that is no longer allocated. *)
Definition pixDestroy (destroyed : bool) : behaviour () :=
  if destroyed then Undefined else Defined (Ret ()).

(** [pix_to_mat(pix)]: the image returned, and whether the call has
    destroyed the image its argument points to.  The parameter is the
    pointer by value, so [pixDestroy(&pix)] on the path that converts to
    8 bits destroys the caller's image and leaves the caller's pointer as
    it was; [pix8] is not destroyed. *)
Definition pix_to_mat (pix : option Pix) : Mat * bool :=
  match pix with
  | None => (Mat_default, false)
  | Some p =>
      let width := pix_w p in
      let height := pix_h p in
      let copy (q : Pix) :=
        mkMat (Z.to_N height) (Z.to_N width) 1 (λ y x, pix_at q y x `mod` 256) in
      if negb (pix_d p =? 8) then
        match pixConvertTo8 p with
        | None => (Mat_default, false)
        | Some pix8 => (copy pix8, true)
        end
      else (copy p, false)
  end.

(** [cv::Mat result = pix_to_mat(q); pixDestroy(&q); return result;] on an
    image [q] the method itself obtained from Leptonica. *)
Definition pix_to_mat_destroy (q : Pix) : behaviour Mat :=
  let '(result, destroyed) := pix_to_mat (Some q) in
  _ ← pixDestroy destroyed;
  Defined (Ret result).

(** The [try]/[catch] frame shared by the [tesseract_*] methods.  An
    [apply_*] method returns the image and whether it has destroyed the
    image [pix] points to. *)
Definition with_pix (img : Mat) (apply : Pix → behaviour (Mat * bool))
  : behaviour Mat :=
  try_catch
    (pix ← Defined (mat_to_pix img);
     match pix with
     | None => Defined (Ret (clone img))
     | Some p =>
         '(result, destroyed) ← apply p;
         _ ← pixDestroy destroyed;
         Defined (Ret result)
     end)
    (λ _, Defined (Ret (clone img))).

Definition apply_tesseract_thresholding (pix : Pix) : behaviour (Mat * bool) :=
  match pixOtsuAdaptiveThreshold pix with
  | None => Defined (Ret (pix_to_mat (Some pix)))
  | Some pix_otsu =>
      match pixAdaptiveThreshold pix with
      | None =>
          _ ← pixDestroy false;                      (* pix_otsu *)
          Defined (Ret (pix_to_mat (Some pix)))
      | Some pix_local =>
          match pixAnd pix_otsu pix_local with
          | Some pix_combined =>
              let '(result, destroyed) := pix_to_mat (Some pix_combined) in
              _ ← pixDestroy false;                  (* pix_otsu *)
              _ ← pixDestroy false;                  (* pix_local *)
              _ ← pixDestroy destroyed;              (* pix_combined *)
              Defined (Ret (result, false))
          | None =>
              let '(result, destroyed) := pix_to_mat (Some pix_otsu) in
              _ ← pixDestroy destroyed;              (* pix_otsu *)
              _ ← pixDestroy false;                  (* pix_local *)
              Defined (Ret (result, false))
          end
      end
  end.

Definition tesseract_adaptive_threshold (img : Mat) : behaviour Mat :=
  with_pix img apply_tesseract_thresholding.

Definition apply_tesseract_deskewing (pix : Pix) : behaviour (Mat * bool) :=
  match pixFindSkewAndDeskew pix with
  | None => Defined (Ret (pix_to_mat (Some pix)))
  | Some pix_skew =>
      result ← pix_to_mat_destroy pix_skew;
      Defined (Ret (result, false))
  end.

Definition tesseract_deskew (img : Mat) : behaviour Mat :=
  with_pix img apply_tesseract_deskewing.

Definition apply_tesseract_dewarping (pix : Pix) : behaviour (Mat * bool) :=
  match pixFindPageForeground pix with
  | None | Some [] => Defined (Ret (pix_to_mat (Some pix)))
  | Some (box :: _) =>
      match pixClipRectangle pix box with
      | None => Defined (Ret (pix_to_mat (Some pix)))
      | Some pix_crop =>
          result ← pix_to_mat_destroy pix_crop;
          Defined (Ret (result, false))
      end
  end.

Definition tesseract_dewarp (img : Mat) : behaviour Mat :=
  with_pix img apply_tesseract_dewarping.

Definition apply_tesseract_denoising (pix : Pix) : behaviour (Mat * bool) :=
  match pixOpenBrick pix 2 2 with
  | None => Defined (Ret (pix_to_mat (Some pix)))
  | Some pix_open =>
      let pix_close := pixCloseBrick pix_open 1 1 in
      _ ← pixDestroy false;                          (* pix_open *)
      match pix_close with
      | None => Defined (Ret (pix_to_mat (Some pix)))
      | Some pix_close =>
          result ← pix_to_mat_destroy pix_close;
          Defined (Ret (result, false))
      end
  end.

Definition tesseract_denoise (img : Mat) : behaviour Mat :=
  with_pix img apply_tesseract_denoising.
End TesseractPreprocessor.

(** ** [preprocessing.cpp]: the OpenCV stages *)

(** The order [std::sort] puts the four corners in: by [y]. *)
Definition not_below (a b : Point.t) : Prop := Point.y a ≤ Point.y b.
Global Instance not_below_dec a b : Decision (not_below a b) :=
  Z_le_dec (Point.y a) (Point.y b).

Section OpenCVStages.
Context `{!OpenCV, !Imgproc}.

Definition to_grayscale (img : Mat) : outcome Mat := cvtColor_BGR2GRAY img.

Definition resize_image (img : Mat) (scale : Q) : outcome Mat :=
  cv_resize img scale.

Definition adaptive_gaussian_threshold (img : Mat) : outcome Mat :=
  adaptiveThreshold img ADAPTIVE_THRESH_GAUSSIAN_C 31 10.

Definition deskew (bin_img : Mat) : outcome Mat :=
  points ← findNonZero bin_img;
  if bool_decide (points = []) then Ret (clone bin_img)
  else
    box ← minAreaRect points;
    let angle := angle box in
    let angle := if f_lt angle (f_of_int (-45)) then f_add angle (f_of_int 90) else angle in
    let rot_mat := getRotationMatrix2D (center box) angle 1 in
    warpAffine bin_img rot_mat (cols bin_img, rows bin_img).

(** The loop choosing [largest]: the first contour of the greatest area. *)
Definition largest_contour (c0 : list Point.t) (cs : list (list Point.t))
  : list Point.t :=
  fold_left
    (λ largest c,
       if Qle_bool (contourArea c) (contourArea largest) then largest else c)
    cs c0.

Definition to_Point2f (p : Point.t) : float * float :=
  (f_of_int (Point.x p), f_of_int (Point.y p)).

(** The tail of [dewarp] once the polygon has four vertices: sort by [y],
    pick the corners, size the rectangle, warp. *)
Definition warp_quad (img : Mat) (quad : list Point.t) : outcome Mat :=
  match merge_sort not_below quad with
  | [q0; q1; q2; q3] =>
      let src0 := to_Point2f (if Point.x q0 <? Point.x q1 then q0 else q1) in
      let src1 := to_Point2f (if Point.x q1 <? Point.x q0 then q0 else q1) in
      let src2 := to_Point2f (if Point.x q2 <? Point.x q3 then q2 else q3) in
      let src3 := to_Point2f (if Point.x q3 <? Point.x q2 then q2 else q3) in
      let w1 := norm_diff src0 src1 in
      let w2 := norm_diff src2 src3 in
      let h1 := norm_diff src0 src2 in
      let h2 := norm_diff src1 src3 in
      let width := f_max w1 w2 in
      let height := f_max h1 h2 in
      let one := f_of_int 1 in
      let zero := f_of_int 0 in
      let dst := [(zero, zero); (f_sub width one, zero);
                  (zero, f_sub height one);
                  (f_sub width one, f_sub height one)] in
      M ← getPerspectiveTransform [src0; src1; src2; src3] dst;
      warpPerspective img M (f_to_int width, f_to_int height)
  | _ => Ret (clone img)
  end.

Definition dewarp (img : Mat) : outcome Mat :=
  gray ← (if channels img =? 3 then cvtColor_BGR2GRAY img else Ret img);
  bin ← adaptiveThreshold gray ADAPTIVE_THRESH_MEAN_C 31 10;
  match findContours bin with
  | [] => Ret (clone img)
  | c0 :: cs =>
      let quad := approxPolyDP (largest_contour c0 cs) 20 true in
      if negb (length quad =? 4)%nat then Ret (clone img)
      else warp_quad img quad
  end.

Definition invoice_denoise (img : Mat) : outcome Mat :=
  med ← medianBlur img 3;
  bilateralFilter med 9 75 75.
End OpenCVStages.

(** ** [tesseract_preprocessing.cpp]: [HybridPreprocessor] *)

(** [tess_preprocessor_] is set by the constructor whenever
    [tesseract_available_] is, and holds no state the stages read. *)
Record HybridPreprocessor := mkHybrid {
  tesseract_available_ : bool
}.

Section HybridPreprocessor.
Context `{!OpenCV, !Leptonica, !Imgproc}.

(** [HybridPreprocessor::HybridPreprocessor()] *)
Definition HybridPreprocessor_new : HybridPreprocessor :=
  match make_TesseractPreprocessor with
  | Ret _ => mkHybrid is_available
  | Throw _ => mkHybrid false
  end.

(** [if (tesseract_available_) { try { return primary; } catch (...) {} }]:
    the image returned from inside the [try], or [None] when control
    reaches the code after the [if]. *)
Definition try_tesseract (hp : HybridPreprocessor) (primary : behaviour Mat)
  : behaviour (option Mat) :=
  if tesseract_available_ hp then
    match primary with
    | Defined (Ret m) => Defined (Ret (Some m))
    | Defined (Throw _) => Defined (Ret None)
    | Undefined => Undefined
    end
  else Defined (Ret None).

Definition smart_adaptive_threshold (hp : HybridPreprocessor) (img : Mat)
  : behaviour Mat :=
  returned ← try_tesseract hp (tesseract_adaptive_threshold img);
  match returned with
  | Some m => Defined (Ret m)
  | None => Defined (adaptiveThreshold img ADAPTIVE_THRESH_GAUSSIAN_C 31 10)
  end.

Definition smart_deskew (hp : HybridPreprocessor) (img : Mat) : behaviour Mat :=
  returned ← try_tesseract hp (tesseract_deskew img);
  match returned with
  | Some m => Defined (Ret m)
  | None =>
      Defined
        (points ← findNonZero img;
         if bool_decide (points = []) then Ret (clone img)
         else
           box ← minAreaRect points;
           let angle := angle box in
           let angle :=
             if f_lt angle (f_of_int (-45)) then f_add angle (f_of_int 90)
             else angle in
           let rot_mat := getRotationMatrix2D (center box) angle 1 in
           warpAffine img rot_mat (cols img, rows img))
  end.

Definition smart_dewarp (hp : HybridPreprocessor) (img : Mat) : behaviour Mat :=
  returned ← try_tesseract hp (tesseract_dewarp img);
  match returned with
  | Some m => Defined (Ret m)
  | None =>
      Defined
        (gray ← (if channels img =? 3 then cvtColor_BGR2GRAY img else Ret img);
         bin ← adaptiveThreshold gray ADAPTIVE_THRESH_MEAN_C 31 10;
         match findContours bin with
         | [] => Ret (clone img)
         | c0 :: cs =>
             let quad := approxPolyDP (largest_contour c0 cs) 20 true in
             if negb (length quad =? 4)%nat then Ret (clone img)
             else warp_quad img quad
         end)
  end.

Definition smart_denoise (hp : HybridPreprocessor) (img : Mat) : behaviour Mat :=
  returned ← try_tesseract hp (tesseract_denoise img);
  match returned with
  | Some m => Defined (Ret m)
  | None =>
      Defined
        (med ← medianBlur img 3;
         bilateralFilter med 9 75 75)
  end.

(** [HybridPreprocessor::enhanced_preprocess_pipeline(img)] *)
Definition enhanced_preprocess_pipeline (hp : HybridPreprocessor) (img : Mat)
  : behaviour Mat :=
  let result := img in
  result ← smart_denoise hp result;
  result ← smart_adaptive_threshold hp result;
  result ← smart_deskew hp result;
  result ← smart_dewarp hp result;
  Defined (Ret result).

(** [get_hybrid_preprocessor()] over the global [g_hybrid_preprocessor]:
    the preprocessor to use and the global afterwards. *)
Definition get_hybrid_preprocessor (g : option HybridPreprocessor)
  : HybridPreprocessor * option HybridPreprocessor :=
  match g with
  | Some hp => (hp, g)
  | None => let hp := HybridPreprocessor_new in (hp, Some hp)
  end.

(** [enhanced_preprocess_image(img)], threading [g_hybrid_preprocessor]. *)
Definition enhanced_preprocess_image (g : option HybridPreprocessor) (img : Mat)
  : behaviour Mat * option HybridPreprocessor :=
  match (if channels img =? 3 then to_grayscale img else Ret img) with
  | Throw e => (Defined (Throw e), g)
  | Ret gray =>
      match resize_image gray (3 # 2) with
      | Throw e => (Defined (Throw e), g)
      | Ret resized =>
          let '(preprocessor, g') := get_hybrid_preprocessor g in
          (enhanced_preprocess_pipeline preprocessor resized, g')
      end
  end.
End HybridPreprocessor.

(** ** What the line detector is meant to compute *)

(** Sample ([y], [x]) of [bin] is a foreground pixel. *)
Definition foreground (bin : Mat) (y x : Z) : Prop :=
  0 ≤ x < cols bin ∧ at_uchar bin y x ≠ 0.

Global Instance foreground_dec bin y x : Decision (foreground bin y x) :=
  and_dec (and_dec (Z_le_dec 0 x) (Z_lt_dec x (cols bin)))
          (not_dec (Z.eq_dec (at_uchar bin y x) 0)).

Section LineSpec.
Context `{!OpenCV}.

(** The number of foreground pixels of row [y]. *)
Definition foreground_count (bin : Mat) (y : Z) : Z :=
  Z.of_nat (length (filter (foreground bin y) (seqZ 0 (cols bin)))).

(** The number of foreground pixels of [bin]: those of its rows, summed. *)
Definition foreground_pixels (bin : Mat) : Z :=
  foldr Z.add 0 (foreground_count bin <$> seqZ 0 (rows bin)).

(** Row [y] is in-line: its foreground count exceeds [cols/20], the
    quotient rounded down. *)
Definition in_line_row (bin : Mat) (y : Z) : Prop :=
  cols bin `div` 20 < foreground_count bin y.

(** Rows [y0 .. y1] form a band closed within the first [n] rows: entered
    at [y0] (the row above, if any, is not in-line), every row of it is
    in-line, and row [y1 + 1 < n] is the row on which the scan leaves it. *)
Definition closed_band (bin : Mat) (n y0 y1 : Z) : Prop :=
  0 ≤ y0 ≤ y1 ∧ y1 + 1 < n
  ∧ (∀ y, y0 ≤ y ≤ y1 → in_line_row bin y)
  ∧ ¬ in_line_row bin (y1 + 1)
  ∧ (y0 = 0 ∨ ¬ in_line_row bin (y0 - 1)).

(** [x_min] and [x_max] are the least and the greatest foreground column
    over the rows [y0 .. y1]. *)
Definition tight_extent (bin : Mat) (y0 y1 x_min x_max : Z) : Prop :=
  (∃ yy, y0 ≤ yy ≤ y1 ∧ foreground bin yy x_min)
  ∧ (∃ yy, y0 ≤ yy ≤ y1 ∧ foreground bin yy x_max)
  ∧ (∀ yy x, y0 ≤ yy ≤ y1 → foreground bin yy x → x_min ≤ x ≤ x_max).

(** [b] is the Region of a kept band closed within the first [n] rows. *)
Definition line_region (bin : Mat) (n : Z) (b : Box.t) : Prop :=
  ∃ y0 y1 x_min x_max,
    closed_band bin n y0 y1
    ∧ 8 ≤ y1 - y0 + 1
    ∧ tight_extent bin y0 y1 x_min x_max
    ∧ x_min < x_max
    ∧ b = Box.mk x_min y0 (x_max - x_min + 1) (y1 - y0 + 1).

(** The Region invariant of the data model, for an image of the given size. *)
Definition region_inv (img : Mat) (b : Box.t) : Prop :=
  0 < Box.w b ∧ 0 < Box.h b ∧ 0 ≤ Box.x b ∧ 0 ≤ Box.y b
  ∧ Box.x b + Box.w b ≤ cols img ∧ Box.y b + Box.h b ≤ rows img.

(** Regions listed top to bottom, one strictly below the other. *)
Definition top_to_bottom (bs : list Box.t) : Prop :=
  StronglySorted (λ a b, Box.y a + Box.h a < Box.y b) bs.
End LineSpec.

Section SegmenterSpec.
Context `{!OpenCV}.

(** The loop invariant of [segment_lines] after the rows [0 .. n-1]. *)
Record scan_inv (bin : Mat) (n : Z) (st : line_scan) : Prop := {
  inv_open : in_line st = true →
    0 ≤ y0 st < n
    ∧ (∀ y, y0 st ≤ y < n → in_line_row bin y)
    ∧ (y0 st = 0 ∨ ¬ in_line_row bin (y0 st - 1));
  inv_idle : in_line st = false → n = 0 ∨ ¬ in_line_row bin (n - 1);
  inv_boxes : ∀ b, b ∈ boxes st ↔ line_region bin n b;
  inv_sorted : top_to_bottom (boxes st)
}.

(** What the contour extraction of OpenCV promises: every contour point is
    a pixel of the image it was extracted from. *)
Definition contours_within_image : Prop :=
  ∀ bin c p, c ∈ findContours bin → p ∈ c →
    0 ≤ Point.x p < cols bin ∧ 0 ≤ Point.y p < rows bin.

(** Every sample of the binarized image is background. *)
Definition all_background (img : Mat) : Prop :=
  ∀ y x, ¬ foreground (threshold_binary_inv_otsu img) y x.

(** Every sample of the image has the same gray level. *)
Definition uniform (img : Mat) : Prop :=
  ∃ v, ∀ y x, 0 ≤ y < rows img → 0 ≤ x < cols img → at_uchar img y x = v.

Definition rect_of_box (b : Box.t) : Rect.t :=
  Rect.mk (Box.x b) (Box.y b) (Box.w b) (Box.h b).

(** The score of [sb] is the foreground density of its re-binarized crop:
    the number of foreground pixels of the crop of [img] to the Region,
    binarized again, over the area of the Region; it lies in [0, 1]. *)
Definition density_scored (img : Mat) (sb : ScoredBox.t) : Prop :=
  ∃ crop,
    Mat_roi img (rect_of_box (ScoredBox.box sb)) = Ret crop
    ∧ 0 < Box.w (ScoredBox.box sb) * Box.h (ScoredBox.box sb)
    ∧ ScoredBox.confidence sb =
        (inject_Z (foreground_pixels (threshold_binary_inv_otsu crop))
         / inject_Z (Box.w (ScoredBox.box sb) * Box.h (ScoredBox.box sb)))%Q
    ∧ (0 <= ScoredBox.confidence sb)%Q ∧ (ScoredBox.confidence sb <= 1)%Q.

(** The Region covers fewer than [2^31] pixels: its area is an [int]. *)
Definition int_area (b : Box.t) : Prop := Box.w b * Box.h b < 2 ^ 31.
End SegmenterSpec.

(** ** The Strategy Stage view of the hybrid preprocessor *)

Inductive stage := Denoise | Threshold | Deskew | Dewarp.

Section StrategyStage.
Context `{!OpenCV, !Leptonica, !Imgproc}.

(** [apply(image)] of a stage *)
Definition stage_apply (s : stage) (hp : HybridPreprocessor) : Mat → behaviour Mat :=
  match s with
  | Denoise => smart_denoise hp
  | Threshold => smart_adaptive_threshold hp
  | Deskew => smart_deskew hp
  | Dewarp => smart_dewarp hp
  end.

Definition primary (s : stage) : Mat → behaviour Mat :=
  match s with
  | Denoise => tesseract_denoise
  | Threshold => tesseract_adaptive_threshold
  | Deskew => tesseract_deskew
  | Dewarp => tesseract_dewarp
  end.

Definition fallback (s : stage) : Mat → outcome Mat :=
  match s with
  | Denoise => invoice_denoise
  | Threshold => adaptive_gaussian_threshold
  | Deskew => deskew
  | Dewarp => dewarp
  end.

(** The primary strategy cannot run on [img]: the image does not convert
    to a [Pix], or converting it raises. *)
Definition primary_fails (img : Mat) : Prop :=
  ∀ p, mat_to_pix img ≠ Ret (Some p).

(** [op] returns images 8 bits deep on images 8 bits deep. *)
Definition keeps_depth_8 (op : Pix → option Pix) : Prop :=
  ∀ p q, pix_d p = 8 → op p = Some q → pix_d q = 8.

(** Every Leptonica call of the four primaries keeps the depth of 8 bits
    that [mat_to_pix] gives its images. *)
Definition leptonica_keeps_depth_8 : Prop :=
  keeps_depth_8 pixOtsuAdaptiveThreshold
  ∧ keeps_depth_8 pixAdaptiveThreshold
  ∧ (∀ p p' q, pix_d p = 8 → pix_d p' = 8 → pixAnd p p' = Some q → pix_d q = 8)
  ∧ keeps_depth_8 pixFindSkewAndDeskew
  ∧ (∀ box, keeps_depth_8 (λ p, pixClipRectangle p box))
  ∧ (∀ h v, keeps_depth_8 (λ p, pixOpenBrick p h v))
  ∧ (∀ h v, keeps_depth_8 (λ p, pixCloseBrick p h v)).

(** The stage as the code has it: the primary's result when the primary is
    available and does not raise, the fallback's outcome otherwise. *)
Definition hybrid (available : bool) (p : behaviour Mat) (f : outcome Mat)
  : behaviour Mat :=
  if available then
    match p with
    | Defined (Ret m) => Defined (Ret m)
    | Defined (Throw _) => Defined f
    | Undefined => Undefined
    end
  else Defined f.

Definition hybrid_stage (hp : HybridPreprocessor) (s : stage) (img : Mat)
  : behaviour Mat :=
  hybrid (tesseract_available_ hp) (primary s img) (fallback s img).





(** The polygon approximating the largest external contour of [img], as
    [dewarp] computes it; [None] when there is no contour. *)
Definition largest_contour_polygon (img : Mat) : outcome (option (list Point.t)) :=
  gray ← (if channels img =? 3 then cvtColor_BGR2GRAY img else Ret img);
  bin ← adaptiveThreshold gray ADAPTIVE_THRESH_MEAN_C 31 10;
  Ret (match findContours bin with
       | [] => None
       | c0 :: cs => Some (approxPolyDP (largest_contour c0 cs) 20 true)
       end).
End StrategyStage.

(** ** Sample inputs *)

Module Samples.
(** Ink (sample 0) on paper (sample 255): [ink y x] tells where the ink is. *)
Definition page (h w : N) (ink : Z → Z → bool) : Mat :=
  mkMat h w 1 (λ y x, if ink y x then 0 else 255).

Definition in_rect (x0 y0 x1 y1 : Z) (y x : Z) : bool :=
  (x0 <=? x) && (x <=? x1) && (y0 <=? y) && (y <=? y1).

Definition samples_of (m : Mat) : list Z :=
  y ← seqZ 0 (rows m); x ← seqZ 0 (cols m); [at_uchar m y x].

(** The Otsu level of an image with at most two gray levels: 0 for a
    uniform image, the darker level otherwise (the between-class variance
    is the same for every level from the darker one up to the brighter one
    excluded, and OpenCV keeps the first maximum). *)
Definition two_level_otsu (m : Mat) : Z :=
  match samples_of m with
  | [] => 0
  | v :: vs =>
      let lo := fold_left Z.min vs v in
      let hi := fold_left Z.max vs v in
      if lo =? hi then 0 else lo
  end.

(** One contour holding every foreground pixel: for an image whose
    foreground is a single blob it has the bounding rectangle of the
    contour OpenCV returns. *)
Definition blob_contour (bin : Mat) : list (list Point.t) :=
  match y ← seqZ 0 (rows bin); x ← findNonZero_row bin y; [Point.mk x y] with
  | [] => []
  | pts => [pts]
  end.

Definition sample_cv : OpenCV :=
  {| getThreshVal_Otsu := two_level_otsu; findContours := blob_contour |}.

(** 40 x 30: a text line on rows 2..11, columns 5..34, inked on two
    columns out of three, and a second line on rows 15..29, columns 3..20,
    that runs to the bottom edge. *)
Definition page_two_lines : Mat :=
  page 30 40 (λ y x, (in_rect 5 2 34 11 y x && negb (x `mod` 3 =? 0))
                     || in_rect 3 15 20 29 y x).

(** 40 x 30: one text line on rows 2..11, columns 5..34. *)
Definition page_one_line : Mat := page 30 40 (in_rect 5 2 34 11).

(** 40 x 30, all paper. *)
Definition page_blank : Mat := page 30 40 (λ _ _, false).

(** A 40 x 30 BGR image. *)
Definition page_color : Mat := mkMat 30 40 3 (λ _ _, 255).


(** 9 rows of [w] columns: ink on every column of rows 0..6 and on every
    column but the first of row 7, paper elsewhere. *)
Definition slab_ink (y x : Z) : bool := (y <? 7) || ((y =? 7) && (0 <? x)).
Definition page_slab (w : N) : Mat := page 9 w slab_ink.

(** The slab of 2^28 columns: its one text line, rows 0..7, has 2^31
    pixels, all but one of them ink. *)
Definition page_wide : Mat := page_slab 268435456.
End Samples.

(** Sample primitives for the preprocessing stages. *)
Module StageSamples.
(** Leptonica refuses images of 2^31 bytes or more. *)
Definition pix_fits (w h d : Z) : bool :=
  (0 <? w) && (0 <? h) && (4 * ((w * d + 31) `div` 32) * h <? 2 ^ 31).

Definition same_geometry (f : Z → Z) (p : Pix) : option Pix :=
  Some (mkPix (pix_w p) (pix_h p) (pix_d p) (λ y x, f (pix_at p y x))).

Definition leptonica_with (construct : outcome ()) : Leptonica :=
  {| make_TesseractPreprocessor := construct;
     pixCreate_succeeds := pix_fits;
     pixConvertTo8 := same_geometry id;
     pixOtsuAdaptiveThreshold := same_geometry (λ v, if 127 <? v then 255 else 0);
     pixAdaptiveThreshold := same_geometry (λ v, if 127 <? v then 255 else 0);
     pixAnd := λ p q,
       Some (mkPix (pix_w p) (pix_h p) (pix_d p)
                   (λ y x, Z.land (pix_at p y x) (pix_at q y x)));
     pixFindSkewAndDeskew := same_geometry id;
     pixFindPageForeground := λ p, Some [Rect.mk 0 0 (pix_w p) (pix_h p)];
     pixClipRectangle := λ p r,
       Some (mkPix (Rect.width r) (Rect.height r) (pix_d p)
                   (λ y x, pix_at p (Rect.y r + y) (Rect.x r + x)));
     pixOpenBrick := λ p _ _, same_geometry id p;
     pixCloseBrick := λ p _ _, same_geometry id p |}.

Definition leptonica_ok : Leptonica := leptonica_with (Ret ()).
Definition leptonica_missing : Leptonica := leptonica_with (Throw "std::bad_alloc").

(** A Leptonica whose two thresholds return images 1 bit deep, which
    [pixConvertTo8] turns into 8-bit images. *)
Definition to_depth (d : Z) (f : Z → Z) (p : Pix) : option Pix :=
  Some (mkPix (pix_w p) (pix_h p) d (λ y x, f (pix_at p y x))).

Definition leptonica_binary : Leptonica :=
  {| make_TesseractPreprocessor := Ret ();
     pixCreate_succeeds := pix_fits;
     pixConvertTo8 := to_depth 8 (λ v, if v =? 0 then 0 else 255);
     pixOtsuAdaptiveThreshold := to_depth 1 (λ v, if 127 <? v then 1 else 0);
     pixAdaptiveThreshold := to_depth 1 (λ v, if 127 <? v then 1 else 0);
     pixAnd := @pixAnd leptonica_ok;
     pixFindSkewAndDeskew := @pixFindSkewAndDeskew leptonica_ok;
     pixFindPageForeground := @pixFindPageForeground leptonica_ok;
     pixClipRectangle := @pixClipRectangle leptonica_ok;
     pixOpenBrick := @pixOpenBrick leptonica_ok;
     pixCloseBrick := @pixCloseBrick leptonica_ok |}.

(** OpenCV asserts [src.type() == CV_8UC1] in [cv::adaptiveThreshold]. *)
Definition threshold_8UC1 (img : Mat) (_ : AdaptiveMethod) (_ _ : Z) : outcome Mat :=
  if negb (Mat_empty img) && (channels img =? 1) then
    Ret (mkMat (mat_rows img) (mat_cols img) 1
               (λ y x, if 127 <? at_uchar img y x then 255 else 0))
  else Throw "OpenCV: adaptiveThreshold: src.type() == CV_8UC1".

Definition gray_of (img : Mat) : outcome Mat :=
  if channels img =? 3 then
    Ret (mkMat (mat_rows img) (mat_cols img) 1 (λ y x, at_uchar img y (3 * x)))
  else Throw "OpenCV: cvtColor: invalid number of channels".

(** OpenCV asserts [src.type() == CV_8UC1 || src.type() == CV_8UC3] in
    [cv::bilateralFilter], and a single channel in [cv::findNonZero]. *)
Definition bilateral_8UC1_8UC3 (img : Mat) (_ _ _ : Z) : outcome Mat :=
  if (channels img =? 1) || (channels img =? 3) then Ret img
  else Throw "OpenCV: bilateralFilter: src.type() == CV_8UC1 || src.type() == CV_8UC3".

Definition findNonZero_1ch (img : Mat) : outcome (list Point.t) :=
  if channels img =? 1 then
    Ret (y ← seqZ 0 (rows img); x ← findNonZero_row img y; [Point.mk x y])
  else Throw "OpenCV: findNonZero: src.channels() == 1".

Definition sample_imgproc : Imgproc :=
  {| float := Q;
     Transform := ();
     f_of_int := inject_Z;
     f_to_int := λ q, (Qnum q `quot` Z.pos (Qden q));
     f_lt := λ a b, negb (Qle_bool b a);
     f_add := Qplus;
     f_sub := Qminus;
     f_max := λ a b, if Qle_bool a b then b else a;
     cvtColor_BGR2GRAY := gray_of;
     cv_resize := λ img _, Ret img;
     adaptiveThreshold := threshold_8UC1;
     findNonZero := findNonZero_1ch;
     minAreaRect := λ _, Ret (mkRotatedRect Q (0%Q, 0%Q) 0%Q);
     getRotationMatrix2D := λ _ _ _, ();
     warpAffine := λ img _ _, Ret img;
     contourArea := λ c, inject_Z (Z.of_nat (length c));
     approxPolyDP := λ c _ _, c;
     norm_diff := λ _ _, 0%Q;
     getPerspectiveTransform := λ _ _, Ret ();
     warpPerspective := λ img _ _, Ret img;
     medianBlur := λ img _, Ret img;
     bilateralFilter := bilateral_8UC1_8UC3 |}.

(** A 65536 x 65536 gray image, every sample 200. *)
Definition page_huge : Mat :=
  mkMat 65536 65536 1 (λ _ _, 200).
End StageSamples.

(** Sample preprocessors and a small page. *)
Module MoreSamples.
Import Samples StageSamples.

(** The preprocessor built where Leptonica is present, and where
    constructing the Tesseract preprocessor fails. *)
Definition hp_available : HybridPreprocessor := @HybridPreprocessor_new leptonica_ok.
Definition hp_unavailable : HybridPreprocessor :=
  @HybridPreprocessor_new leptonica_missing.

(** 8 x 6: ink on rows 1..3, columns 2..5. *)
Definition page_small : Mat := page 6 8 (in_rect 2 1 5 3).

Definition page_small_polygon : list Point.t :=
  Eval vm_compute in
    match @largest_contour_polygon sample_cv sample_imgproc page_small with
    | Ret (Some quad) => quad
    | _ => []
    end.
End MoreSamples.

(** ** What the patterns of [extract_invoice_fields] match *)

(** [regex_matches r w c c']: the pattern [r] matches exactly the word [w],
    taking the recorded sub-matches from [c] to [c']; an iteration of [*]
    consumes at least one character. *)
Inductive regex_matches :
  Regex.t → list ascii → gmap nat (list ascii) → gmap nat (list ascii) → Prop :=
| matches_eps c : regex_matches Regex.Eps [] c c
| matches_chr p a c : p a = true → regex_matches (Regex.Chr p) [a] c c
| matches_seq r1 r2 w1 w2 c c1 c2 :
    regex_matches r1 w1 c c1 → regex_matches r2 w2 c1 c2 →
    regex_matches (Regex.Seq r1 r2) (w1 ++ w2) c c2
| matches_alt_l r1 r2 w c c1 :
    regex_matches r1 w c c1 → regex_matches (Regex.Alt r1 r2) w c c1
| matches_alt_r r1 r2 w c c1 :
    regex_matches r2 w c c1 → regex_matches (Regex.Alt r1 r2) w c c1
| matches_star_nil r c : regex_matches (Regex.Star r) [] c c
| matches_star_cons r w1 w2 c c1 c2 :
    w1 ≠ [] → regex_matches r w1 c c1 → regex_matches (Regex.Star r) w2 c1 c2 →
    regex_matches (Regex.Star r) (w1 ++ w2) c c2
| matches_group i r w c c1 :
    regex_matches r w c c1 → regex_matches (Regex.Group i r) w c (<[i := w]> c1).

(** [w] is matched by [r]. *)
Definition regex_accepts (r : Regex.t) (w : list ascii) : Prop :=
  ∃ c, regex_matches r w ∅ c.

(** [w] occurs in [text]. *)
Definition occurs_in (w : list ascii) (text : string) : Prop :=
  ∃ pre post, list_ascii_of_string text = pre ++ w ++ post.

Definition digits (w : list ascii) : Prop := Forall (λ a, Regex.is_digit a = true) w.

(** Two digits, a separator [/] or [-], two digits, a separator, four
    digits; or four digits, a separator, two digits, a separator, two
    digits. *)
Definition date_shape (w : list ascii) : Prop :=
  ∃ a s1 b s2 d,
    w = a ++ s1 :: b ++ s2 :: d
    ∧ digits a ∧ digits b ∧ digits d
    ∧ Regex.one_of "/-" s1 = true ∧ Regex.one_of "/-" s2 = true
    ∧ ((length a = 2 ∧ length b = 2 ∧ length d = 4)
       ∨ (length a = 4 ∧ length b = 2 ∧ length d = 2))%nat.

(** The letters [w] are those of [word], whatever their case. *)
Definition same_letters (word : string) (w : list ascii) : Prop :=
  Regex.to_lower <$> w = Regex.to_lower <$> list_ascii_of_string word.

(** "INV" in any case, white space if any, then at least one digit. *)
Definition invoice_number_shape (w : list ascii) : Prop :=
  ∃ l sp ds,
    w = l ++ sp ++ ds
    ∧ same_letters "INV" l
    ∧ Forall (λ a, Regex.is_space a = true) sp
    ∧ ds ≠ [] ∧ digits ds.

(** At least one digit, one [.] or [,], exactly two digits. *)
Definition amount_shape (v : list ascii) : Prop :=
  ∃ ds s cents,
    v = ds ++ s :: cents
    ∧ ds ≠ [] ∧ digits ds
    ∧ Regex.one_of ".," s = true
    ∧ length cents = 2%nat ∧ digits cents.

(** [w] is "Total" in any case, a run of characters that are not digits,
    and the amount [v]. *)
Definition total_match (w v : list ascii) : Prop :=
  ∃ l gap,
    w = l ++ gap ++ v
    ∧ same_letters "Total" l
    ∧ Forall (λ a, Regex.is_digit a = false) gap
    ∧ amount_shape v.

Definition total_shape (w : list ascii) : Prop := ∃ v, total_match w v.

(** [s] begins with a word of the given shape. *)
Definition starts_with (shape : list ascii → Prop) (s : list ascii) : Prop :=
  ∃ w post, s = w ++ post ∧ shape w.

(** [text] is [pre ++ w ++ post], [w] has the shape, and no word of that
    shape begins further left in [text]. *)
Definition first_at (shape : list ascii → Prop) (text : string)
    (pre w post : list ascii) : Prop :=
  list_ascii_of_string text = pre ++ w ++ post
  ∧ shape w
  ∧ ∀ pre' rest, list_ascii_of_string text = pre' ++ rest →
      starts_with shape rest → (length pre ≤ length pre')%nat.

(** [s] is empty or begins with a character outside [p]. *)
Definition stops (p : ascii → bool) (s : list ascii) : Prop :=
  ∀ a s', s = a :: s' → p a = false.

(** The value [extract_invoice_fields] stores for the pattern [re]. *)
Definition field_value (re : Regex.t) (ocr_text : string) : option string :=
  (λ m, Regex.str m 1) <$> Regex.search re (list_ascii_of_string ocr_text).

(** The loop [Regex.run] runs for [r*]: at most [fuel] further iterations of
    [r], each consuming at least one character, then the rest [k]. *)
Definition star_iterate {A} (r : Regex.t)
    (k : list ascii → gmap nat (list ascii) → option A) :
    nat → list ascii → gmap nat (list ascii) → option A :=
  fix iterate (fuel : nat) (s : list ascii) (c : gmap nat (list ascii)) : option A :=
    match fuel with
    | O => k s c
    | S fuel' =>
        match Regex.run r s c
                (λ s' c', if (length s' <? length s)%nat
                          then iterate fuel' s' c' else None) with
        | Some a => Some a
        | None => k s c
        end
    end.

(** ** [segmentation_c_api.cpp] *)

(** [cv::Mat(height, width, CV_8UC(channels), buffer)]: a header over the
    caller's row-major buffer; sample [i] of row [y] is byte
    [y * width * channels + i]. *)
Definition Mat_of_buffer (height width channels : Z) (buffer : Z → Z) : Mat :=
  mkMat (Z.to_N height) (Z.to_N width) (Z.to_N channels)
        (λ y i, buffer (y * (width * channels) + i)).

(** [if (p) *p = v]: the cell behind the pointer [p], [None] for a null
    pointer. *)
Definition store {A} (p : option A) (v : A) : option A :=
  match p with
  | Some _ => Some v
  | None => None
  end.

Module segmentation_c_api.

(** What a call leaves behind: the returned code, [g_last_error], and the
    cells [*out_boxes] (an array, or [None] for [nullptr]) and
    [*out_count]. *)
Record result := mkResult {
  code : Z;
  last_error : string;
  boxes_cell : option (option (list Z));
  count_cell : option Z
}.

(** The four assignments of the copy loop for index [i]. *)
Definition write_box (arr : list Z) (i : nat) (b : Box.t) : list Z :=
  <[(4 * i + 3)%nat := Box.h b]>
    (<[(4 * i + 2)%nat := Box.w b]>
       (<[(4 * i + 1)%nat := Box.y b]>
          (<[(4 * i + 0)%nat := Box.x b]> arr))).

(** [for (size_t i = 0; i < boxes.size(); ++i) ...] *)
Definition fill_boxes (boxes : list Box.t) (arr : list Z) : list Z :=
  fold_left
    (λ arr i, match boxes !! i with
              | Some b => write_box arr i b
              | None => arr
              end)
    (seq 0 (length boxes)) arr.

Section Calls.
Context `{!OpenCV}.

(** [segment_lines(seg, img, width, height, channels, out_boxes, out_count)]
    with [g_last_error] as it stands before the call.  [seg] tells whether
    the handle is non-null; [img] is the buffer, [None] for a null pointer;
    [block] is what the memory [malloc] hands out holds (the allocation is
    taken to succeed: the source does not test it).  The OpenCV calls of
    [Segmenter::segment_lines] do not throw on the image built here. *)
Definition segment_lines (g_last_error : string) (seg : bool)
    (img : option (Z → Z)) (width height channels : Z)
    (out_boxes : option (option (list Z))) (out_count : option Z)
    (block : list Z) : result :=
  match img, out_boxes, out_count with
  | Some buffer, Some _, Some _ =>
      if negb seg || (width <=? 0) || (height <=? 0) || negb (channels =? 1) then
        mkResult 1 "Invalid arguments to segment_lines"
                 (store out_boxes None) (store out_count 0)
      else
        let mat := Mat_of_buffer height width 1 buffer in
        let '(boxes, err) := segment_lines mat EmptyString in
        if negb (String.eqb err EmptyString) then
          mkResult 2 err (Some None) (Some 0)
        else
          let count := Z.of_nat (length boxes) in
          if bool_decide (boxes = []) then
            mkResult 0 g_last_error (Some None) (Some count)
          else
            let arr := fill_boxes boxes (resize (4 * length boxes) 0 block) in
            mkResult 0 EmptyString (Some (Some arr)) (Some count)
  | _, _, _ =>
      mkResult 1 "Invalid arguments to segment_lines"
               (store out_boxes None) (store out_count 0)
  end.

(** [owlin_get_last_error()] after the call. *)
Definition owlin_get_last_error (r : result) : string := last_error r.

End Calls.
End segmentation_c_api.

(** The arguments pass the check at the head of the C function. *)
Definition valid_call (seg : bool) (img : option (Z → Z)) (width height channels : Z)
    (out_boxes : option (option (list Z))) (out_count : option Z) : Prop :=
  seg = true ∧ is_Some img ∧ 0 < width ∧ 0 < height ∧ channels = 1
  ∧ is_Some out_boxes ∧ is_Some out_count.

(** The boxes as the caller reads them: [x, y, w, h] of each, in order. *)
Definition flat_boxes (boxes : list Box.t) : list Z :=
  b ← boxes; [Box.x b; Box.y b; Box.w b; Box.h b].

(** ** [tesseract_preprocessing.cpp]: contrast, borders and the whole
    Tesseract pipeline *)


(** The box [apply_tesseract_border_removal] clips to: the content box
    [(x, y, w, h)] widened by a tenth of its size on each side and cut to
    the image. *)
Definition margin_box (pix : Pix) (box : Rect.t) : Rect.t :=
  let x := Rect.x box in
  let y := Rect.y box in
  let w := Rect.width box in
  let h := Rect.height box in
  let margin_x := w `quot` 10 in
  let margin_y := h `quot` 10 in
  let x := Z.max 0 (x - margin_x) in
  let y := Z.max 0 (y - margin_y) in
  let w := Z.min (pix_w pix - x) (w + 2 * margin_x) in
  let h := Z.min (pix_h pix - y) (h + 2 * margin_y) in
  Rect.mk x y w h.

Section TesseractPipeline.
Context `{!Leptonica, !LeptonicaTRC, !Imgproc}.







End TesseractPipeline.

(** [inner] lies within [outer]. *)
Definition rect_within (inner outer : Rect.t) : Prop :=
  Rect.x outer ≤ Rect.x inner
  ∧ Rect.y outer ≤ Rect.y inner
  ∧ Rect.x inner + Rect.width inner ≤ Rect.x outer + Rect.width outer
  ∧ Rect.y inner + Rect.height inner ≤ Rect.y outer + Rect.height outer.

(** The whole image of [pix] as a rectangle. *)
Definition pix_rect (pix : Pix) : Rect.t := Rect.mk 0 0 (pix_w pix) (pix_h pix).

(** A rectangle of non-negative size. *)
Definition rect_proper (r : Rect.t) : Prop := 0 ≤ Rect.width r ∧ 0 ≤ Rect.height r.

(** ** [preprocessing.cpp]: the pipelines that start from a file *)

(** [cv::imread(path, cv::IMREAD_COLOR)]: the empty image when the file
    cannot be read. *)
Class Imgcodecs := {
  imread : string → Mat;
}.

Module preprocessing.
Section Files.
Context `{!OpenCV, !Leptonica, !Imgproc, !Imgcodecs}.

Definition load_image (path : string) : outcome Mat :=
  let img := imread path in
  if Mat_empty img then Throw ("Failed to load image: " +:+ path)
  else Ret img.

(** [preprocess_pipeline(path)] *)
Definition preprocess_pipeline (path : string) : outcome Mat :=
  img ← load_image path;
  gray ← to_grayscale img;
  resized ← resize_image gray (3 # 2);
  thresh ← adaptive_gaussian_threshold resized;
  deskew thresh.

(** [enhanced_preprocess_pipeline(path)], threading
    [g_hybrid_preprocessor]. *)
Definition enhanced_preprocess_pipeline (g : option HybridPreprocessor)
    (path : string) : behaviour Mat * option HybridPreprocessor :=
  match load_image path with
  | Throw e => (Defined (Throw e), g)
  | Ret img => enhanced_preprocess_image g img
  end.

End Files.
End preprocessing.

(** ** [preprocess_c_api.cpp] *)

Module preprocess_c_api.

Definition OWLIN_PREPROCESS_SUCCESS : Z := 0.
Definition OWLIN_PREPROCESS_ERR_UNKNOWN : Z := 1.
Definition OWLIN_PREPROCESS_ERR_FILE_NOT_FOUND : Z := 2.
Definition OWLIN_PREPROCESS_ERR_MEMORY : Z := 3.
Definition OWLIN_PREPROCESS_ERR_INVALID_ARG : Z := 4.
Definition OWLIN_PREPROCESS_ERR_OPENCV : Z := 5.
Definition OWLIN_PREPROCESS_ERR_TESSERACT : Z := 6.

(** The bytes of row [i]: [img.cols * img.channels()] from [img.ptr(i)]. *)
Definition row_bytes (img : Mat) (i : Z) : list Z :=
  at_uchar img i <$> seqZ 0 (cols img * channels img).

(** The buffer [copy_image_data] fills: the rows one after the other
    (whether by the one [memcpy] of a continuous image or row by row). *)
Definition image_bytes (img : Mat) : list Z :=
  i ← seqZ 0 (rows img); row_bytes img i.

(** [copy_image_data(img)]: the buffer, [None] for [nullptr], and
    [g_last_error] afterwards; [malloc_ok] tells whether [malloc] returns
    memory.  The size is taken in [Z]: an image below [2^31] bytes. *)
Definition copy_image_data (g_last_error : string) (malloc_ok : bool) (img : Mat)
  : option (list Z) * string :=
  if Mat_empty img then (None, g_last_error)
  else if negb malloc_ok then
    (None, "Failed to allocate memory for image buffer")
  else (Some (image_bytes img), g_last_error).

(** What a call that returns leaves behind: the returned code,
    [g_last_error], and the cells behind [width], [height], [channels] and
    [out_buffer] ([None] for a null pointer; the buffer cell holds an
    array or [None] for [nullptr]). *)
Record result := mkResult {
  code : Z;
  last_error : string;
  width_cell : option Z;
  height_cell : option Z;
  channels_cell : option Z;
  buffer_cell : option (option (list Z))
}.

Section Calls.
Context `{!OpenCV, !Leptonica, !Imgproc, !Imgcodecs}.

(** [preprocess_image(filepath, width, height, channels, out_buffer)] *)
Definition preprocess_image (g_last_error : string) (malloc_ok : bool)
    (filepath : option string) (width height nchannels : option Z)
    (out_buffer : option (option (list Z))) : result :=
  match filepath, width, height, nchannels, out_buffer with
  | Some path, Some _, Some _, Some _, Some _ =>
      match preprocessing.preprocess_pipeline path with
      | Ret result =>
          if Mat_empty result then
            mkResult OWLIN_PREPROCESS_ERR_OPENCV
                     "Preprocessing failed - empty result"
                     width height nchannels (Some None)
          else
            match copy_image_data g_last_error malloc_ok result with
            | (None, err) =>
                mkResult OWLIN_PREPROCESS_ERR_MEMORY err
                         width height nchannels (Some None)
            | (Some buffer, err) =>
                mkResult OWLIN_PREPROCESS_SUCCESS err
                         (Some (cols result)) (Some (rows result))
                         (Some (channels result)) (Some (Some buffer))
            end
      | Throw what =>
          mkResult OWLIN_PREPROCESS_ERR_UNKNOWN
                   ("Preprocessing failed: " +:+ what)
                   width height nchannels (Some None)
      end
  | _, _, _, _, _ =>
      mkResult OWLIN_PREPROCESS_ERR_INVALID_ARG
               "Invalid arguments to preprocess_image"
               width height nchannels out_buffer
  end.

(** [enhanced_preprocess_buffer(input_buffer, input_width, input_height,
    input_channels, width, height, channels, out_buffer)], threading
    [g_hybrid_preprocessor]. *)
Definition enhanced_preprocess_buffer (g_last_error : string)
    (g : option HybridPreprocessor) (malloc_ok : bool)
    (input_buffer : option (Z → Z))
    (input_width input_height input_channels : Z)
    (width height nchannels : option Z)
    (out_buffer : option (option (list Z)))
  : behaviour (result * option HybridPreprocessor) :=
  let invalid :=
    Defined (Ret (mkResult OWLIN_PREPROCESS_ERR_INVALID_ARG
                           "Invalid arguments to enhanced_preprocess_buffer"
                           width height nchannels out_buffer, g)) in
  match input_buffer, width, height, nchannels, out_buffer with
  | Some buffer, Some _, Some _, Some _, Some _ =>
      if (input_width <=? 0) || (input_height <=? 0) || (input_channels <=? 0)
      then invalid
      else
        let run (input_img : Mat) :=
          let '(res, g') := enhanced_preprocess_image g input_img in
          match res with
          | Defined (Ret result) =>
              Defined (Ret
                (if Mat_empty result then
                   (mkResult OWLIN_PREPROCESS_ERR_OPENCV
                             "Enhanced preprocessing failed - empty result"
                             width height nchannels (Some None), g')
                 else
                   match copy_image_data g_last_error malloc_ok result with
                   | (None, err) =>
                       (mkResult OWLIN_PREPROCESS_ERR_MEMORY err
                                 width height nchannels (Some None), g')
                   | (Some buffer, err) =>
                       (mkResult OWLIN_PREPROCESS_SUCCESS err
                                 (Some (cols result)) (Some (rows result))
                                 (Some (channels result))
                                 (Some (Some buffer)), g')
                   end))
          | Defined (Throw what) =>
              Defined (Ret
                (mkResult OWLIN_PREPROCESS_ERR_UNKNOWN
                          ("Enhanced buffer preprocessing failed: " +:+ what)
                          width height nchannels (Some None), g'))
          | Undefined => Undefined
          end in
        if input_channels =? 1 then
          run (Mat_of_buffer input_height input_width 1 buffer)
        else if input_channels =? 3 then
          run (Mat_of_buffer input_height input_width 3 buffer)
        else
          Defined (Ret (mkResult OWLIN_PREPROCESS_ERR_INVALID_ARG
                                 "Unsupported number of input channels"
                                 width height nchannels (Some None), g))
  | _, _, _, _, _ => invalid
  end.

(** [enhanced_preprocess_image(filepath, width, height, channels,
    out_buffer)], threading [g_hybrid_preprocessor]. *)
Definition enhanced_preprocess_image (g_last_error : string)
    (g : option HybridPreprocessor) (malloc_ok : bool)
    (filepath : option string) (width height nchannels : option Z)
    (out_buffer : option (option (list Z)))
  : behaviour (result * option HybridPreprocessor) :=
  match filepath, width, height, nchannels, out_buffer with
  | Some path, Some _, Some _, Some _, Some _ =>
      let '(res, g') := preprocessing.enhanced_preprocess_pipeline g path in
      match res with
      | Defined (Ret result) =>
          Defined (Ret
            (if Mat_empty result then
               (mkResult OWLIN_PREPROCESS_ERR_OPENCV
                         "Enhanced preprocessing failed - empty result"
                         width height nchannels (Some None), g')
             else
               match copy_image_data g_last_error malloc_ok result with
               | (None, err) =>
                   (mkResult OWLIN_PREPROCESS_ERR_MEMORY err
                             width height nchannels (Some None), g')
               | (Some buffer, err) =>
                   (mkResult OWLIN_PREPROCESS_SUCCESS err
                             (Some (cols result)) (Some (rows result))
                             (Some (channels result)) (Some (Some buffer)), g')
               end))
      | Defined (Throw what) =>
          Defined (Ret
            (mkResult OWLIN_PREPROCESS_ERR_UNKNOWN
                      ("Enhanced preprocessing failed: " +:+ what)
                      width height nchannels (Some None), g'))
      | Undefined => Undefined
      end
  | _, _, _, _, _ =>
      Defined (Ret (mkResult OWLIN_PREPROCESS_ERR_INVALID_ARG
                             "Invalid arguments to enhanced_preprocess_image"
                             width height nchannels out_buffer, g))
  end.

End Calls.
End preprocess_c_api.

(** The image the caller rebuilds from a buffer of the C interface and the
    three sizes, by the constructor the interface itself uses on its input. *)
Definition Mat_of_bytes (height width channels : Z) (bytes : list Z) : Mat :=
  Mat_of_buffer height width channels (λ k, bytes !!! Z.to_nat k).

(** Sample [i] of row [y] lies in the image. *)
Definition in_image (img : Mat) (y i : Z) : Prop :=
  0 ≤ y < rows img ∧ 0 ≤ i < cols img * channels img.

(** ** [line_segmentation.cpp] *)

Module line_segmentation.

(** [cv::Rect::empty()] *)
Definition Rect_empty (r : Rect.t) : bool :=
  (Rect.width r <=? 0) || (Rect.height r <=? 0).

(** [a |= b] on [cv::Rect] (OpenCV 4): the smallest rectangle holding
    both, an empty operand counting for nothing. *)
Definition Rect_union (a b : Rect.t) : Rect.t :=
  if Rect_empty a then b
  else if negb (Rect_empty b) then
    let x1 := Z.min (Rect.x a) (Rect.x b) in
    let y1 := Z.min (Rect.y a) (Rect.y b) in
    Rect.mk x1 y1
            (Z.max (Rect.x a + Rect.width a) (Rect.x b + Rect.width b) - x1)
            (Z.max (Rect.y a + Rect.height a) (Rect.y b + Rect.height b) - y1)
  else a.

(** [proj.at<int>(y, 0)] after
    [cv::reduce(bin_img, proj, 1, cv::REDUCE_SUM, CV_32S)]: the sum of row
    [y] (below [2^31] for an image less than eight million columns wide). *)
Definition row_sum (bin_img : Mat) (y : Z) : Z :=
  fold_left Z.add (at_uchar bin_img y <$> seqZ 0 (cols bin_img)) 0.

Definition threshold : Z := 10 * 255.

(** [bin_img.rowRange(start, end)] for [0 <= start <= end <= rows], as
    the loop calls it. *)
Definition rowRange (m : Mat) (start end_ : Z) : Mat :=
  mkMat (Z.to_N (end_ - start)) (mat_cols m) (mat_channels m)
        (λ y x, at_uchar m (start + y) x).

(** The loop state: [in_line], [start] and [lines]. *)
Record scan := mkScan {
  in_line : bool;
  start : Z;
  lines : list Rect.t
}.

Section Scan.
Context `{!OpenCV}.

(** The bounding box of the band [start .. end - 1]: the union of the
    bounding rectangles of its contours, moved down by [start]; [None]
    when the band has no contour. *)
Definition band_box (bin_img : Mat) (start end_ : Z) : option Rect.t :=
  match findContours (rowRange bin_img start end_) with
  | [] => None
  | c0 :: cs =>
      let bbox :=
        fold_left (λ bbox c, Rect_union bbox (boundingRect c)) cs (boundingRect c0) in
      Some (Rect.mk (Rect.x bbox) (Rect.y bbox + start)
                    (Rect.width bbox) (Rect.height bbox))
  end.

(** One iteration of [for (int y = 0; y < proj.rows; ++y)]. *)
Definition scan_row (bin_img : Mat) (st : scan) (y : Z) : scan :=
  let val := row_sum bin_img y in
  if negb (in_line st) && (threshold <? val) then mkScan true y (lines st)
  else if in_line st && (val <=? threshold) then
    let end_ := y in
    mkScan false (start st)
           (match band_box bin_img (start st) end_ with
            | Some bbox => lines st ++ [bbox]
            | None => lines st
            end)
  else st.

Definition scan_rows (bin_img : Mat) (n : Z) : scan :=
  fold_left (scan_row bin_img) (seqZ 0 n) (mkScan false 0 []).

(** [segment_lines(bin_img)]; the images of this development hold 8-bit
    samples, so [type() != CV_8UC1] is the test on the channels. *)
Definition segment_lines (bin_img : Mat) : outcome (list Rect.t) :=
  if Mat_empty bin_img || negb (channels bin_img =? 1) then
    Throw "Input image must be a non-empty binary (CV_8UC1) image."
  else Ret (lines (scan_rows bin_img (rows bin_img))).

End Scan.
End line_segmentation.

(** OpenCV returns no contour without a point. *)
Definition contours_nonempty `{!OpenCV} : Prop :=
  ∀ bin c, c ∈ findContours bin → c ≠ [].

(** Rows [s .. e - 1] of [bin] are a band of text closed by row [e]: each
    has a sum above the threshold, row [e] has not, and neither has the
    row above [s], if any. *)
Definition text_band (bin : Mat) (s e : Z) : Prop :=
  0 ≤ s < e ∧ e < rows bin
  ∧ (∀ y, s ≤ y < e → line_segmentation.threshold < line_segmentation.row_sum bin y)
  ∧ line_segmentation.row_sum bin e ≤ line_segmentation.threshold
  ∧ (s = 0 ∨ line_segmentation.row_sum bin (s - 1) ≤ line_segmentation.threshold).

(** [r] has at least one pixel and lies within the columns of [bin] and
    the rows [s .. e - 1]. *)
Definition rect_in_band (bin : Mat) (s e : Z) (r : Rect.t) : Prop :=
  0 ≤ Rect.x r ∧ 1 ≤ Rect.width r ∧ Rect.x r + Rect.width r ≤ cols bin
  ∧ s ≤ Rect.y r ∧ 1 ≤ Rect.height r ∧ Rect.y r + Rect.height r ≤ e.

(** [r] has at least one pixel and lies in a [Wd] by [Ht] image. *)
Definition fits (Wd Ht : Z) (r : Rect.t) : Prop :=
  0 ≤ Rect.x r ∧ 0 ≤ Rect.y r ∧ 1 ≤ Rect.width r ∧ 1 ≤ Rect.height r
  ∧ Rect.x r + Rect.width r ≤ Wd ∧ Rect.y r + Rect.height r ≤ Ht.

(** The state of the band scan after the first [n] rows. *)
Record band_inv (bin : Mat) (n : Z) (st : line_segmentation.scan) : Prop := {
  band_open :
    line_segmentation.in_line st = true →
    0 ≤ line_segmentation.start st < n
    ∧ (∀ y, line_segmentation.start st ≤ y < n →
         line_segmentation.threshold < line_segmentation.row_sum bin y)
    ∧ (line_segmentation.start st = 0
       ∨ line_segmentation.row_sum bin (line_segmentation.start st - 1)
         ≤ line_segmentation.threshold);
  band_idle :
    line_segmentation.in_line st = false →
    n = 0 ∨ line_segmentation.row_sum bin (n - 1) ≤ line_segmentation.threshold;
  band_lines :
    Forall (λ r, ∃ s e, text_band bin s e ∧ e < n ∧ rect_in_band bin s e r)
           (line_segmentation.lines st)
}.

(** ** [postprocessing.cpp]: [filter_by_confidence] and
    [spellcheck_corrections] *)

(** [filter_by_confidence(results, threshold)]; a confidence is kept as a
    rational, as in [ScoredBox]. *)
Definition filter_by_confidence (results : list (string * Q)) (threshold : Q)
  : list (string * Q) :=
  fold_left
    (λ filtered r, if Qle_bool threshold r.2 then filtered ++ [r] else filtered)
    results [].

Definition spellcheck_corrections (text : string) : string := text.

(** ** [layout.cpp] *)

Module layout.
Section Layout.
Context `{!OpenCV, !Imgproc}.

(** [cv::findContours] asserts a single-channel 8-bit image. *)
Definition findContours_8UC1 (img : Mat) : outcome (list (list Point.t)) :=
  if channels img =? 1 then Ret (findContours img)
  else Throw "OpenCV: findContours: unsupported image format".

(** The body of the loop over [contours]: [box.area() > 100]. *)
Definition keep_block (boxes : list Rect.t) (c : list Point.t) : list Rect.t :=
  let box := boundingRect c in
  if 100 <? Rect.width box * Rect.height box then boxes ++ [box] else boxes.

(** [detect_text_blocks(preprocessed_img)]; the images of this
    development hold 8-bit samples, so the conversion to [CV_8U] changes
    nothing. *)
Definition detect_text_blocks (preprocessed_img : Mat) : outcome (list Rect.t) :=
  img_bin ← (if channels preprocessed_img =? 3
             then cvtColor_BGR2GRAY preprocessed_img
             else Ret (clone preprocessed_img));
  contours ← findContours_8UC1 img_bin;
  Ret (fold_left keep_block contours []).

Definition detect_text_lines (preprocessed_img : Mat) : outcome (list Rect.t) :=
  detect_text_blocks preprocessed_img.

End Layout.
End layout.

(** ** [recognition.cpp] *)

(** The Tesseract engine as [recognize_text] uses it: whether
    [Init(nullptr, eng, OEM_LSTM_ONLY)] succeeds, and, for the image given
    to [SetImage], the result of [GetUTF8Text] ([None] for a null pointer)
    and of [MeanTextConf]. *)
Class TessBaseAPI := {
  Init_eng : bool;
  GetUTF8Text : Mat → option string;
  MeanTextConf : Mat → Z;
}.

Module recognition.
Section Recognition.
Context `{!TessBaseAPI}.

(** [recognize_text(img_region)] *)
Definition recognize_text (img_region : Mat) : string * Q :=
  if negb Init_eng then (EmptyString, 0%Q)
  else
    let img8u := img_region in
    let text := default EmptyString (GetUTF8Text img8u) in
    let conf := MeanTextConf img8u in
    (text, (inject_Z conf / 100)%Q).

(** [recognize_regions(img, regions)] *)
Definition recognize_regions (img : Mat) (regions : list Rect.t)
  : outcome (list (string * Q)) :=
  for_each (λ rect, roi ← Mat_roi img rect; Ret (recognize_text roi)) regions.

(** [OcrRecognizer::recognize(img, out_text, out_confidence, err_msg)]:
    the returned flag and the three reference parameters afterwards;
    [tess_] tells whether the engine pointer is non-null. *)
Definition recognize (tess_ : bool) (img : Mat)
    (out_text : string) (out_confidence : Q) (err_msg : string)
  : bool * (string * Q * string) :=
  if negb tess_ || Mat_empty img || negb (channels img =? 1) then
    (false, (out_text, out_confidence,
             "Invalid recognizer or image (must be grayscale)"))
  else
    match GetUTF8Text img with
    | None =>
        (false, (out_text, out_confidence, "Tesseract failed to recognize text"))
    | Some text =>
        (true, (text, (inject_Z (MeanTextConf img) / 100)%Q, EmptyString))
    end.

End Recognition.
End recognition.

(** ** [recognition_c_api.cpp] *)

Module recognition_c_api.

(** What a call leaves behind: the returned code, [g_last_error], and the
    cells behind [out_text] and [out_confidence]. *)
Record result := mkResult {
  code : Z;
  last_error : string;
  text_cell : option (option string);
  confidence_cell : option Q
}.

Section Calls.
Context `{!TessBaseAPI}.

(** [ocr_recognize(ocr, img, width, height, channels, out_text,
    out_confidence)]; [ocr] tells whether the handle is non-null.  A handle
    made by [ocr_create] holds a recognizer whose engine was initialized:
    the constructor throws otherwise and [ocr_create] returns null.  The
    allocation is taken to succeed: the source does not test it. *)
Definition ocr_recognize (g_last_error : string) (ocr : bool)
    (img : option (Z → Z)) (width height nchannels : Z)
    (out_text : option (option string)) (out_confidence : option Q) : result :=
  match img, out_text, out_confidence with
  | Some buffer, Some _, Some _ =>
      if negb ocr || (width <=? 0) || (height <=? 0) || negb (nchannels =? 1) then
        mkResult 1 "Invalid arguments to ocr_recognize"
                 (store out_text None) (store out_confidence 0%Q)
      else
        let mat := Mat_of_buffer height width 1 buffer in
        let '(ok, (text, conf, err)) :=
          recognition.recognize true mat EmptyString 0%Q EmptyString in
        if negb ok then mkResult 2 err (Some None) (Some 0%Q)
        else mkResult 0 EmptyString (Some (Some text)) (Some conf)
  | _, _, _ =>
      mkResult 1 "Invalid arguments to ocr_recognize"
               (store out_text None) (store out_confidence 0%Q)
  end.

End Calls.
End recognition_c_api.

(** ** [owlin_ocr_c_api.cpp] *)

Module owlin_ocr_c_api.

Definition OWLIN_OCR_SUCCESS : Z := 0.
Definition OWLIN_OCR_ERR_UNKNOWN : Z := 1.
Definition OWLIN_OCR_ERR_FILE_NOT_FOUND : Z := 2.
Definition OWLIN_OCR_ERR_PREPROCESS : Z := 3.
Definition OWLIN_OCR_ERR_OCR : Z := 4.

Definition owlin_ocr_err_msgs : list string :=
  ["Success"; "Unknown error"; "File not found"; "Preprocessing error"; "OCR error"].

Definition owlin_ocr_strerror (errcode : Z) : string :=
  if (0 <=? errcode) && (errcode <=? 4)
  then default EmptyString (owlin_ocr_err_msgs !! Z.to_nat errcode)
  else "Unknown error code".

(** What a call leaves behind: the returned code and the cells behind
    [out_text_ptr] (a string, or [None] for a null pointer) and
    [out_confidence]. *)
Record result := mkResult {
  code : Z;
  text_cell : option (option string);
  confidence_cell : option Q
}.

Section Calls.
Context `{!Imgproc, !Imgcodecs, !TessBaseAPI}.

(** The tail shared by the two entry points: recognition, the spelling
    pass, and the copy into memory from [malloc]. *)
Definition deliver (malloc_ok : bool) (pre : Mat) (out_confidence : option Q) : result :=
  let res := recognition.recognize_text pre in
  let text := spellcheck_corrections res.1 in
  if negb malloc_ok then mkResult OWLIN_OCR_ERR_UNKNOWN (Some None) out_confidence
  else mkResult OWLIN_OCR_SUCCESS (Some (Some text)) (Some res.2).

(** [owlin_ocr_from_file(filepath, out_text_ptr, out_confidence)] *)
Definition owlin_ocr_from_file (malloc_ok : bool) (filepath : option string)
    (out_text_ptr : option (option string)) (out_confidence : option Q) : result :=
  match filepath, out_text_ptr, out_confidence with
  | Some path, Some _, Some _ =>
      match preprocessing.preprocess_pipeline path with
      | Ret pre =>
          if Mat_empty pre then
            mkResult OWLIN_OCR_ERR_PREPROCESS out_text_ptr out_confidence
          else deliver malloc_ok pre out_confidence
      | Throw _ => mkResult OWLIN_OCR_ERR_UNKNOWN out_text_ptr out_confidence
      end
  | _, _, _ => mkResult OWLIN_OCR_ERR_UNKNOWN out_text_ptr out_confidence
  end.

(** [owlin_ocr_from_buffer(buffer, width, height, channels, out_text_ptr,
    out_confidence)] *)
Definition owlin_ocr_from_buffer (malloc_ok : bool) (buffer : option (Z → Z))
    (width height nchannels : Z)
    (out_text_ptr : option (option string)) (out_confidence : option Q) : result :=
  match buffer, out_text_ptr, out_confidence with
  | Some data, Some _, Some _ =>
      if (width <=? 0) || (height <=? 0) then
        mkResult OWLIN_OCR_ERR_UNKNOWN out_text_ptr out_confidence
      else
        let img := Mat_of_buffer height width (if nchannels =? 1 then 1 else 3) data in
        match (pre ← (if negb (nchannels =? 1) then to_grayscale img else Ret img);
               pre ← resize_image pre (3 # 2);
               pre ← adaptive_gaussian_threshold pre;
               deskew pre) with
        | Ret pre => deliver malloc_ok pre out_confidence
        | Throw _ => mkResult OWLIN_OCR_ERR_UNKNOWN out_text_ptr out_confidence
        end
  | _, _, _ => mkResult OWLIN_OCR_ERR_UNKNOWN out_text_ptr out_confidence
  end.

End Calls.
End owlin_ocr_c_api.

(** [r] lies inside [img]. *)
Definition rect_in_image (img : Mat) (r : Rect.t) : Prop :=
  0 ≤ Rect.x r ∧ 0 ≤ Rect.y r ∧ 0 ≤ Rect.width r ∧ 0 ≤ Rect.height r
  ∧ Rect.x r + Rect.width r ≤ cols img ∧ Rect.y r + Rect.height r ≤ rows img.

(** ** More sample inputs *)

Module ExtraSamples.
Import Samples StageSamples MoreSamples.


(** A file system with one image file, a 40 x 30 BGR image. *)
Definition one_file : Imgcodecs :=
  {| imread := λ path, if String.eqb path "invoice.png" then page_color else Mat_default |}.

(** An engine that cannot be initialized, and one that reads the same
    text off every image. *)
Definition tess_missing : TessBaseAPI :=
  {| Init_eng := false; GetUTF8Text := λ _, None; MeanTextConf := λ _, 0 |}.
Definition tess_reads : TessBaseAPI :=
  {| Init_eng := true; GetUTF8Text := λ _, Some "INV 42"; MeanTextConf := λ _, 87 |}.

(** 40 x 30, white text on black: rows 2..11, columns 5..34. *)
Definition page_white_on_black : Mat :=
  mkMat 30 40 1 (λ y x, if in_rect 5 2 34 11 y x then 255 else 0).

(** 40 x 30, a white block of 20 x 10 on black. *)
Definition page_blocks : Mat :=
  mkMat 30 40 1 (λ y x, if in_rect 5 2 24 11 y x then 255 else 0).

(** The row-major buffer of a single-channel image. *)
Definition buffer_of (m : Mat) : Z → Z :=
  λ k, at_uchar m (k `div` cols m) (k `mod` cols m).

Definition text_no_digit : string := "Total due on receipt".

Definition text_two_totals : string :=
  "Issued 01/02/2024, due 2024-03-01; inv 7, INV  0042 total: 12.5, TOTAL EUR 1.234,567".

(** An 8-bit depth [Pix] of 100 x 80. *)
Definition pix_100_80 : Pix := mkPix 100 80 8 (λ _ _, 0).
End ExtraSamples.

(** ** Proofs: the line detector *)

Section SegmenterFacts.
Context `{!OpenCV}.

Lemma rows_nonneg m : 0 ≤ rows m.
Proof. unfold rows; lia. Qed.

Lemma cols_nonneg m : 0 ≤ cols m.
Proof. unfold cols; lia. Qed.

Lemma elem_of_List_filter {A} (f : A → bool) (l : list A) a :
  a ∈ List.filter f l ↔ a ∈ l ∧ f a = true.
Proof. rewrite !list_elem_of_In. apply filter_In. Qed.

Lemma elem_of_findNonZero_row m y x :
  x ∈ findNonZero_row m y ↔ foreground m y x.
Proof.
  unfold findNonZero_row, foreground.
  rewrite elem_of_List_filter, elem_of_seqZ, negb_true_iff, Z.eqb_neq. lia.
Qed.

Lemma filter_seqZ_head_le (f : Z → bool) (n : nat) a :
  head (List.filter f (seqZ 0 (Z.of_nat n))) = Some a →
  ∀ x, x ∈ List.filter f (seqZ 0 (Z.of_nat n)) → a ≤ x.
Proof.
  induction n as [|n IH]; [done|].
  rewrite seqZ_S, List.filter_app; simpl.
  intros Hhd x Hx. apply elem_of_app in Hx.
  destruct (List.filter f (seqZ 0 (Z.of_nat n))) as [|a' l'] eqn:El.
  - simpl in *. destruct (f (0 + Z.of_nat n)); simplify_eq/=.
    destruct Hx as [Hx|Hx]; [by apply elem_of_nil in Hx|].
    apply list_elem_of_singleton in Hx. lia.
  - simpl in Hhd. simplify_eq.
    destruct Hx as [Hx|Hx]; [by apply IH|].
    assert (a ∈ List.filter f (seqZ 0 (Z.of_nat n))) as Ha
      by (rewrite El; left).
    apply elem_of_List_filter in Ha as [Ha%elem_of_seqZ _].
    destruct (f (0 + Z.of_nat n)); [|by apply elem_of_nil in Hx].
    apply list_elem_of_singleton in Hx. lia.
Qed.

Lemma filter_seqZ_le_last (f : Z → bool) (n : nat) b :
  last (List.filter f (seqZ 0 (Z.of_nat n))) = Some b →
  ∀ x, x ∈ List.filter f (seqZ 0 (Z.of_nat n)) → x ≤ b.
Proof.
  induction n as [|n IH]; [done|].
  rewrite seqZ_S, List.filter_app; simpl.
  destruct (f (0 + Z.of_nat n)).
  - rewrite last_snoc. intros ? x Hx; simplify_eq.
    apply elem_of_app in Hx as [Hx|Hx].
    + apply elem_of_List_filter in Hx as [Hx%elem_of_seqZ _]. lia.
    + apply list_elem_of_singleton in Hx. lia.
  - rewrite app_nil_r. apply IH.
Qed.

Lemma findNonZero_row_bounds m y x0 x1 :
  head (findNonZero_row m y) = Some x0 →
  last (findNonZero_row m y) = Some x1 →
  foreground m y x0 ∧ foreground m y x1
  ∧ ∀ x, foreground m y x → x0 ≤ x ≤ x1.
Proof.
  intros Hh Hl. split_and!.
  - apply elem_of_findNonZero_row. by apply head_Some_elem_of.
  - apply elem_of_findNonZero_row. by apply last_Some_elem_of.
  - intros x Hx%elem_of_findNonZero_row. unfold findNonZero_row, cols in *.
    rewrite <- N_nat_Z in *.
    split; [by eapply filter_seqZ_head_le | by eapply filter_seqZ_le_last].
Qed.

Lemma proj_bounds bin y : 0 ≤ proj bin y ≤ cols bin.
Proof.
  unfold proj, countNonZero_row, findNonZero_row. split; [lia|].
  pose proof (filter_length_le (λ x, negb (at_uchar bin y x =? 0))
                (seqZ 0 (cols bin))) as Hle.
  rewrite length_seqZ in Hle. pose proof (cols_nonneg bin). lia.
Qed.

Lemma min_line_sum_nonneg bin : 0 ≤ min_line_sum bin.
Proof. unfold min_line_sum. apply Z.quot_pos; [apply cols_nonneg|lia]. Qed.

(** Counting the foreground pixels of a row is [cv::countNonZero] on it. *)
Lemma foreground_count_countNonZero bin y :
  foreground_count bin y = countNonZero_row bin y.
Proof.
  unfold foreground_count, countNonZero_row, findNonZero_row. do 2 f_equal.
  assert (∀ l, Forall (λ x, 0 ≤ x < cols bin) l →
               filter (foreground bin y) l
               = List.filter (λ x, negb (at_uchar bin y x =? 0)) l) as Hl.
  { induction 1 as [|x l Hx _ IH]; [done|]. rewrite filter_cons. simpl.
    rewrite IH. destruct (Z.eqb_spec (at_uchar bin y x) 0) as [E|E]; simpl.
    - rewrite decide_False; [done|]. by intros [_ ?].
    - by rewrite decide_True. }
  apply Hl, Forall_forall. intros x Hx%elem_of_seqZ. lia.
Qed.

(** The test [proj[y] > min_line_sum] of the scan decides [in_line_row]. *)
Lemma in_line_row_scan bin y :
  in_line_row bin y ↔ min_line_sum bin < proj bin y.
Proof.
  unfold in_line_row, min_line_sum, proj.
  rewrite foreground_count_countNonZero.
  rewrite Z.quot_div_nonneg; [done|apply cols_nonneg|lia].
Qed.

Lemma in_line_row_foreground bin y :
  in_line_row bin y → ∃ x, foreground bin y x.
Proof.
  rewrite in_line_row_scan. pose proof (min_line_sum_nonneg bin).
  unfold proj, countNonZero_row. intros Hlt.
  destruct (findNonZero_row bin y) as [|x l] eqn:E; [simpl in Hlt; lia|].
  exists x. apply elem_of_findNonZero_row. rewrite E. left.
Qed.
End SegmenterFacts.

Section ExtentFacts.
Context `{!OpenCV}.

Lemma extent_row_spec bin acc yy :
  let r := extent_row bin acc yy in
  r.1 ≤ acc.1 ∧ acc.2 ≤ r.2
  ∧ (∀ x, foreground bin yy x → r.1 ≤ x ≤ r.2)
  ∧ (r.1 = acc.1 ∨ foreground bin yy r.1)
  ∧ (r.2 = acc.2 ∨ foreground bin yy r.2).
Proof.
  unfold extent_row.
  destruct (head (findNonZero_row bin yy)) as [x0|] eqn:Hh.
  - destruct (last (findNonZero_row bin yy)) as [x1|] eqn:Hl.
    + destruct (findNonZero_row_bounds _ _ _ _ Hh Hl) as (F0 & F1 & Fb).
      simpl. split_and!; try lia.
      * intros x Hx. specialize (Fb x Hx). lia.
      * destruct (Z.min_spec acc.1 x0) as [[_ ->]|[_ ->]]; auto.
      * destruct (Z.max_spec acc.2 x1) as [[_ ->]|[_ ->]]; auto.
    + apply last_None in Hl. rewrite Hl in Hh. done.
  - apply head_None in Hh. simpl. split_and!; try lia; auto.
    intros x Hx%elem_of_findNonZero_row. rewrite Hh in Hx.
    by apply elem_of_nil in Hx.
Qed.

Lemma extent_fold bin (L : list Z) (acc : Z * Z) :
  let r := fold_left (extent_row bin) L acc in
  r.1 ≤ acc.1 ∧ acc.2 ≤ r.2
  ∧ (∀ yy x, yy ∈ L → foreground bin yy x → r.1 ≤ x ≤ r.2)
  ∧ (r.1 = acc.1 ∨ ∃ yy, yy ∈ L ∧ foreground bin yy r.1)
  ∧ (r.2 = acc.2 ∨ ∃ yy, yy ∈ L ∧ foreground bin yy r.2).
Proof.
  revert acc. induction L as [|y L IH]; intros acc; simpl.
  - split_and!; try lia; auto. intros yy x Hyy. by apply elem_of_nil in Hyy.
  - destruct (extent_row_spec bin acc y) as (A1 & A2 & A3 & A4 & A5).
    destruct (IH (extent_row bin acc y)) as (B1 & B2 & B3 & B4 & B5).
    split_and!; try lia.
    + intros yy x [->|Hyy]%elem_of_cons Hx.
      * specialize (A3 x Hx). lia.
      * by apply (B3 yy).
    + destruct B4 as [B4|(yy & ? & ?)].
      * rewrite B4. destruct A4 as [A4|A4]; [by left|].
        right. exists y. split; [left|done].
      * right. exists yy. split; [by right|done].
    + destruct B5 as [B5|(yy & ? & ?)].
      * rewrite B5. destruct A5 as [A5|A5]; [by left|].
        right. exists y. split; [left|done].
      * right. exists yy. split; [by right|done].
Qed.

(** Over a band of in-line rows the inner loop finds the tight extent. *)
Lemma band_x_extent_tight bin y0 y1 :
  y0 ≤ y1 →
  (∀ y, y0 ≤ y ≤ y1 → in_line_row bin y) →
  tight_extent bin y0 y1 (band_x_extent bin y0 y1).1 (band_x_extent bin y0 y1).2.
Proof.
  intros Hle Hin. unfold band_x_extent.
  destruct (extent_fold bin (seqZ y0 (y1 - y0 + 1)) (cols bin, 0))
    as (B1 & B2 & B3 & B4 & B5).
  set (r := fold_left _ _ _) in *. simpl in *.
  destruct (in_line_row_foreground bin y0) as [x Hx]; [apply Hin; lia|].
  assert (r.1 ≤ x ≤ r.2) as Hr by (apply (B3 y0); [apply elem_of_seqZ; lia|done]).
  pose proof Hx as [Hxr _].
  assert (∀ yy, yy ∈ seqZ y0 (y1 - y0 + 1) ↔ y0 ≤ yy ≤ y1) as Hmem
    by (intros yy; rewrite elem_of_seqZ; lia).
  split_and!.
  - destruct B4 as [B4|(yy & Hyy & ?)]; [lia|].
    exists yy. by rewrite <- Hmem.
  - destruct B5 as [B5|(yy & Hyy & ?)].
    + exists y0. split; [lia|]. by replace r.2 with x by lia.
    + exists yy. by rewrite <- Hmem.
  - intros yy x' Hyy Hx'. apply (B3 yy); [by apply Hmem|done].
Qed.

Lemma tight_extent_unique bin y0 y1 a b a' b' :
  tight_extent bin y0 y1 a b → tight_extent bin y0 y1 a' b' →
  a = a' ∧ b = b'.
Proof.
  intros ((ya & Ra & Fa) & (yb & Rb & Fb) & Hall)
         ((ya' & Ra' & Fa') & (yb' & Rb' & Fb') & Hall').
  pose proof (Hall ya' a' Ra' Fa'). pose proof (Hall yb' b' Rb' Fb').
  pose proof (Hall' ya a Ra Fa). pose proof (Hall' yb b Rb Fb).
  lia.
Qed.

Lemma tight_extent_bounds bin y0 y1 a b :
  tight_extent bin y0 y1 a b → 0 ≤ a ∧ a ≤ b ∧ b < cols bin.
Proof.
  intros ((ya & Ra & Fa) & (yb & Rb & Fb) & Hall).
  pose proof (Hall ya a Ra Fa).
  destruct Fa as [? _], Fb as [? _]. lia.
Qed.
End ExtentFacts.

Section ScanFacts.
Context `{!OpenCV}.

Lemma closed_band_step_inline bin n y0 y1 :
  in_line_row bin n →
  closed_band bin (n + 1) y0 y1 ↔ closed_band bin n y0 y1.
Proof.
  intros Hn. unfold closed_band. split.
  - intros (? & ? & ? & Hout & ?).
    assert (y1 + 1 < n).
    { destruct (decide (y1 + 1 = n)) as [E|]; [|lia]. by rewrite E in Hout. }
    done.
  - intros (? & ? & ? & ? & ?). split_and!; try done; lia.
Qed.

Lemma closed_band_step_idle bin n y0 y1 :
  n = 0 ∨ ¬ in_line_row bin (n - 1) →
  closed_band bin (n + 1) y0 y1 ↔ closed_band bin n y0 y1.
Proof.
  intros Hn. unfold closed_band. split.
  - intros (? & ? & Hin & ? & ?).
    assert (y1 + 1 < n).
    { destruct (decide (y1 + 1 = n)) as [E|]; [|lia].
      destruct Hn as [->|Hn]; [lia|].
      exfalso. apply Hn. apply Hin. lia. }
    done.
  - intros (? & ? & ? & ? & ?). split_and!; try done; lia.
Qed.

Lemma closed_band_step_close bin n s y0 y1 :
  0 ≤ s < n →
  (∀ y, s ≤ y < n → in_line_row bin y) →
  s = 0 ∨ ¬ in_line_row bin (s - 1) →
  ¬ in_line_row bin n →
  closed_band bin (n + 1) y0 y1 ↔
    closed_band bin n y0 y1 ∨ (y0 = s ∧ y1 = n - 1).
Proof.
  intros Hs Hopen Hstart Hn. unfold closed_band. split.
  - intros (? & ? & Hin & Hout & Hst).
    destruct (decide (y1 + 1 = n)) as [E|]; [|left; split_and!; done || lia].
    right. split; [|lia].
    destruct (Z.lt_trichotomy y0 s) as [Hlt|[->|Hgt]]; [|done|].
    + destruct Hstart as [->|Hstart]; [lia|].
      exfalso. apply Hstart. apply Hin. lia.
    + destruct Hst as [->|Hst]; [lia|].
      exfalso. apply Hst. apply Hopen. lia.
  - intros [(? & ? & ? & ? & ?)|[-> ->]].
    + split_and!; done || lia.
    + split_and!; [lia|lia|lia| | |done].
      * intros y ?. apply Hopen. lia.
      * by replace (n - 1 + 1) with n by lia.
Qed.

Lemma line_region_iff bin n n' :
  (∀ y0 y1, closed_band bin n' y0 y1 ↔ closed_band bin n y0 y1) →
  ∀ b, line_region bin n' b ↔ line_region bin n b.
Proof.
  intros Hcb b. unfold line_region.
  split; intros (y0 & y1 & a & c & H1 & H2); exists y0, y1, a, c;
    (split; [by apply Hcb|done]).
Qed.

Lemma line_region_below bin n b :
  line_region bin n b →
  Box.y b + Box.h b < n ∧ ¬ in_line_row bin (Box.y b + Box.h b).
Proof.
  intros (y0 & y1 & a & c & (? & ? & ? & Hout & ?) & ? & ? & ? & ->). simpl.
  replace (y0 + (y1 - y0 + 1)) with (y1 + 1) by lia. done.
Qed.

Lemma scan_row_inv bin n st :
  0 ≤ n → scan_inv bin n st → scan_inv bin (n + 1) (scan_row bin st n).
Proof.
  intros Hn [Hopen Hidle Hboxes Hsorted]. unfold scan_row.
  destruct (Z.ltb_spec (min_line_sum bin) (proj bin n)) as [Hin|Hout].
  - (* row n is in-line *)
    assert (in_line_row bin n) as Hrow by (by apply in_line_row_scan).
    destruct (in_line st) eqn:E.
    + destruct (Hopen eq_refl) as (? & Hall & ?).
      split; rewrite ?E; simpl; try done.
      * intros _. split; [lia|split; [|done]].
        intros y ?. destruct (decide (y = n)) as [->|]; [done|apply Hall; lia].
      * intros b. rewrite Hboxes. symmetry.
        apply line_region_iff. intros. by apply closed_band_step_inline.
    + split; simpl; try done.
      * intros _. split; [lia|split].
        -- intros y ?. by replace y with n by lia.
        -- destruct (Hidle eq_refl) as [->|?]; auto.
      * intros b. rewrite Hboxes. symmetry.
        apply line_region_iff. intros. by apply closed_band_step_inline.
  - (* row n is not in-line *)
    assert (¬ in_line_row bin n) as Hrow by (rewrite in_line_row_scan; lia).
    destruct (in_line st) eqn:E.
    + destruct (Hopen eq_refl) as (Hs & Hall & Hstart).
      assert (∀ b, line_region bin (n + 1) b ↔
                line_region bin n b ∨
                (8 ≤ n - 1 - y0 st + 1 ∧
                 (band_x_extent bin (y0 st) (n - 1)).1
                   < (band_x_extent bin (y0 st) (n - 1)).2 ∧
                 b = Box.mk (band_x_extent bin (y0 st) (n - 1)).1 (y0 st)
                       ((band_x_extent bin (y0 st) (n - 1)).2
                        - (band_x_extent bin (y0 st) (n - 1)).1 + 1)
                       (n - 1 - y0 st + 1))) as Hsplit.
      { intros b.
        pose proof (band_x_extent_tight bin (y0 st) (n - 1) ltac:(lia)
                      ltac:(intros; apply Hall; lia)) as Ht.
        unfold line_region. split.
        - intros (a0 & a1 & a & c & Hcb & H8 & Hte & Hlt & ->).
          apply (closed_band_step_close bin n (y0 st)) in Hcb
            as [Hcb|[-> ->]]; try done.
          + left. by exists a0, a1, a, c.
          + right. destruct (tight_extent_unique _ _ _ _ _ _ _ Hte Ht) as [-> ->].
            done.
        - intros [(a0 & a1 & a & c & Hcb & Hrest)|(H8 & Hlt & ->)].
          + exists a0, a1, a, c. split; [|done].
            apply (closed_band_step_close bin n (y0 st)); auto.
          + eexists (y0 st), (n - 1), _, _. split_and!; try done.
            apply (closed_band_step_close bin n (y0 st)); auto. }
      split; simpl; try done.
      * intros _. right. by replace (n + 1 - 1) with n by lia.
      * intros b. rewrite Hsplit. unfold min_line_height.
        destruct (Z.leb_spec 8 (n - 1 - y0 st + 1)) as [H8|H8].
        -- destruct (band_x_extent bin (y0 st) (n - 1)) as [a c] eqn:Eext.
           simpl. destruct (Z.ltb_spec a c) as [Hlt|Hlt].
           ++ rewrite elem_of_app, list_elem_of_singleton, Hboxes. tauto.
           ++ rewrite Hboxes. intuition lia.
        -- rewrite Hboxes. intuition lia.
      * unfold min_line_height.
        destruct (Z.leb_spec 8 (n - 1 - y0 st + 1)) as [H8|H8]; [|done].
        destruct (band_x_extent bin (y0 st) (n - 1)) as [a c] eqn:Eext.
        destruct (Z.ltb_spec a c) as [Hlt|Hlt]; [|done].
        apply StronglySorted_app_2; [|done|repeat constructor].
        intros b1 b2 Hb1%Hboxes%line_region_below ->%list_elem_of_singleton.
        simpl. destruct Hb1 as [Hb1 Hb2].
        destruct (decide (Box.y b1 + Box.h b1 < y0 st)); [done|].
        exfalso. apply Hb2, Hall. lia.
    + split; simpl; rewrite ?E; try done.
      * intros _. right. by replace (n + 1 - 1) with n by lia.
      * intros b. rewrite Hboxes. symmetry.
        apply line_region_iff. intros. apply closed_band_step_idle. auto.
Qed.

Lemma scan_rows_S bin (n : nat) :
  scan_rows bin (Z.of_nat (S n)) = scan_row bin (scan_rows bin (Z.of_nat n)) (Z.of_nat n).
Proof. unfold scan_rows. by rewrite seqZ_S, fold_left_app. Qed.

Lemma scan_rows_inv bin (n : nat) :
  scan_inv bin (Z.of_nat n) (scan_rows bin (Z.of_nat n)).
Proof.
  induction n as [|n IH].
  - split; simpl; try done.
    + intros _. by left.
    + intros b. split; [by intros ?%elem_of_nil|].
      intros (a0 & a1 & a & c & (? & ? & _) & _). lia.
    + constructor.
  - rewrite scan_rows_S. replace (Z.of_nat (S n)) with (Z.of_nat n + 1) by lia.
    apply scan_row_inv; [lia|done].
Qed.
End ScanFacts.

Section SegmenterTheorems.
Context `{!OpenCV}.

Lemma segment_lines_rejects img e :
  Mat_empty img = true ∨ channels img ≠ 1 →
  segment_lines img e = ([], usage_error).
Proof.
  unfold segment_lines. intros [->|Hc]; [done|].
  apply Z.eqb_neq in Hc. rewrite Hc. by rewrite orb_true_r.
Qed.

Lemma segment_lines_accepts img e :
  Mat_empty img = false → channels img = 1 →
  segment_lines img e =
    (boxes (scan_rows (threshold_binary_inv_otsu img) (rows img)), EmptyString).
Proof. unfold segment_lines. intros -> ->. done. Qed.

Lemma segment_words_rejects img e :
  Mat_empty img = true ∨ channels img ≠ 1 →
  segment_words img e = ([], usage_error).
Proof.
  unfold segment_words. intros [->|Hc]; [done|].
  apply Z.eqb_neq in Hc. rewrite Hc. by rewrite orb_true_r.
Qed.

Lemma segment_words_accepts img e :
  Mat_empty img = false → channels img = 1 →
  segment_words img e =
    (fold_left keep_word (findContours (threshold_binary_inv_otsu img)) [], EmptyString).
Proof. unfold segment_words. intros -> ->. done. Qed.

Lemma input_cases img :
  (Mat_empty img = true ∨ channels img ≠ 1)
  ∨ (Mat_empty img = false ∧ channels img = 1).
Proof. destruct (Mat_empty img), (decide (channels img = 1)); auto. Qed.

(** The boxes of an accepted image are exactly the line regions. *)
Lemma segment_lines_regions img e :
  Mat_empty img = false → channels img = 1 →
  (∀ b, b ∈ (segment_lines img e).1 ↔
        line_region (threshold_binary_inv_otsu img) (rows img) b)
  ∧ top_to_bottom (segment_lines img e).1.
Proof.
  intros Hne Hch. rewrite segment_lines_accepts by done. simpl.
  destruct (scan_rows_inv (threshold_binary_inv_otsu img)
              (N.to_nat (mat_rows img))) as [_ _ Hb Hs].
  rewrite N_nat_Z in *. done.
Qed.

Lemma line_region_inv img n b :
  n ≤ rows img →
  line_region (threshold_binary_inv_otsu img) n b → region_inv img b.
Proof.
  intros Hn (a0 & a1 & a & c & (? & ? & _) & ? & Hte & ? & ->).
  apply tight_extent_bounds in Hte. unfold region_inv; simpl.
  change (cols (threshold_binary_inv_otsu img)) with (cols img) in Hte. lia.
Qed.

Lemma uniform_rows_alike img y y' :
  uniform img → 0 ≤ y < rows img → 0 ≤ y' < rows img →
  proj (threshold_binary_inv_otsu img) y = proj (threshold_binary_inv_otsu img) y'.
Proof.
  intros [v Hv] Hy Hy'. unfold proj, countNonZero_row, findNonZero_row.
  do 2 f_equal. apply filter_ext_in. intros x Hx%list_elem_of_In%elem_of_seqZ.
  change (cols (threshold_binary_inv_otsu img)) with (cols img) in Hx.
  simpl. by rewrite (Hv y x), (Hv y' x) by lia.
Qed.

Lemma uniform_no_region img b :
  uniform img → ¬ line_region (threshold_binary_inv_otsu img) (rows img) b.
Proof.
  intros Hu (a0 & a1 & a & c & (? & ? & Hin & Hout & _) & _).
  apply Hout. rewrite in_line_row_scan.
  rewrite (uniform_rows_alike img (a1 + 1) a0) by (done || lia).
  apply in_line_row_scan, Hin. lia.
Qed.

Lemma fold_left_min_spec (l : list Z) (a : Z) :
  fold_left Z.min l a ≤ a ∧ ∀ x, x ∈ l → fold_left Z.min l a ≤ x.
Proof.
  revert a. induction l as [|y l IH]; intros a; simpl.
  - split; [lia|]. intros x Hx. by apply elem_of_nil in Hx.
  - destruct (IH (Z.min a y)) as [H1 H2]. split; [lia|].
    intros x [->|Hx]%elem_of_cons; [lia|by apply H2].
Qed.

Lemma fold_left_max_spec (l : list Z) (a : Z) :
  a ≤ fold_left Z.max l a ∧ ∀ x, x ∈ l → x ≤ fold_left Z.max l a.
Proof.
  revert a. induction l as [|y l IH]; intros a; simpl.
  - split; [lia|]. intros x Hx. by apply elem_of_nil in Hx.
  - destruct (IH (Z.max a y)) as [H1 H2]. split; [lia|].
    intros x [->|Hx]%elem_of_cons; [lia|by apply H2].
Qed.

Lemma fold_left_min_elem (l : list Z) (a : Z) :
  fold_left Z.min l a = a ∨ fold_left Z.min l a ∈ l.
Proof.
  revert a. induction l as [|y l IH]; intros a; simpl; [by left|].
  destruct (IH (Z.min a y)) as [->|Hin].
  - destruct (Z.min_spec a y) as [[_ ->]|[_ ->]]; [by left|right; left].
  - right. by right.
Qed.

Lemma fold_left_max_elem (l : list Z) (a : Z) :
  fold_left Z.max l a = a ∨ fold_left Z.max l a ∈ l.
Proof.
  revert a. induction l as [|y l IH]; intros a; simpl; [by left|].
  destruct (IH (Z.max a y)) as [->|Hin].
  - destruct (Z.max_spec a y) as [[_ ->]|[_ ->]]; [right; left|by left].
  - right. by right.
Qed.

(** The bounding rectangle of points lying in a [W] x [H] image lies in it. *)
Lemma boundingRect_within (c : list Point.t) Wd Ht :
  c ≠ [] →
  (∀ p, p ∈ c → 0 ≤ Point.x p < Wd ∧ 0 ≤ Point.y p < Ht) →
  let r := boundingRect c in
  0 ≤ Rect.x r ∧ 0 ≤ Rect.y r
  ∧ Rect.x r + Rect.width r ≤ Wd ∧ Rect.y r + Rect.height r ≤ Ht.
Proof.
  destruct c as [|p ps]; [done|]. intros _ Hin. simpl.
  assert (∀ (f : Point.t → Z) (B : Z),
            (∀ q, q ∈ p :: ps → 0 ≤ f q < B) →
            0 ≤ fold_left Z.min (f <$> ps) (f p)
            ∧ fold_left Z.max (f <$> ps) (f p) < B) as Hgen.
  { intros f B Hf.
    assert (∀ v, v ∈ f <$> ps → 0 ≤ v < B) as Hv.
    { intros v (q & -> & Hq)%list_elem_of_fmap. apply Hf. by right. }
    pose proof (Hf p ltac:(left)).
    destruct (fold_left_min_elem (f <$> ps) (f p)) as [->|Hm%Hv];
    destruct (fold_left_max_elem (f <$> ps) (f p)) as [->|HM%Hv]; lia. }
  destruct (Hgen Point.x Wd) as [? ?]; [intros q Hq; by apply Hin|].
  destruct (Hgen Point.y Ht) as [? ?]; [intros q Hq; by apply Hin|].
  lia.
Qed.

Lemma keep_word_fold_inv img (cs : list (list Point.t)) (acc : list Box.t) :
  (∀ c p, c ∈ cs → p ∈ c →
     0 ≤ Point.x p < cols img ∧ 0 ≤ Point.y p < rows img) →
  Forall (region_inv img) acc →
  Forall (region_inv img) (fold_left keep_word cs acc).
Proof.
  revert acc. induction cs as [|c cs IH]; intros acc Hin Hacc; simpl; [done|].
  apply IH; [intros c' p ? ?; apply (Hin c' p); [by right|done]|].
  unfold keep_word.
  destruct (Z.ltb_spec 5 (Rect.width (boundingRect c))) as [Hw|]; [|done].
  destruct (Z.ltb_spec 5 (Rect.height (boundingRect c))) as [Hh|]; [|done].
  simpl. apply Forall_app. split; [done|]. constructor; [|constructor].
  assert (c ≠ []) as Hne by (intros ->; simpl in Hw; lia).
  destruct (boundingRect_within c (cols img) (rows img) Hne) as (? & ? & ? & ?).
  { intros p Hp. apply (Hin c p); [left|done]. }
  unfold region_inv; simpl. lia.
Qed.
End SegmenterTheorems.

Section ConfidenceFacts.
Context `{!OpenCV}.

Lemma countNonZero_rows_bounds m (n : nat) :
  0 ≤ fold_left (λ acc y, acc + countNonZero_row m y) (seqZ 0 (Z.of_nat n)) 0
    ≤ Z.of_nat n * cols m.
Proof.
  induction n as [|n IH]; [simpl; lia|].
  rewrite seqZ_S, fold_left_app. simpl.
  pose proof (proj_bounds m (0 + Z.of_nat n)) as Hp. unfold proj in Hp. lia.
Qed.

Lemma countNonZero_bounds m : 0 ≤ countNonZero m ≤ rows m * cols m.
Proof.
  unfold countNonZero, rows. rewrite <- N_nat_Z.
  apply countNonZero_rows_bounds.
Qed.

Lemma density_in_unit_interval (c a : Z) :
  0 ≤ c ≤ a → 0 < a →
  (0 <= inject_Z c / inject_Z a)%Q ∧ (inject_Z c / inject_Z a <= 1)%Q.
Proof.
  intros [Hc Hca] Ha.
  assert (inject_Z 0 < inject_Z a)%Q as Hqa by (by rewrite <- Zlt_Qlt).
  split.
  - apply Qle_shift_div_l; [done|]. rewrite Qmult_0_l.
    change (inject_Z 0 <= inject_Z c)%Q. by rewrite <- Zle_Qle.
  - apply Qle_shift_div_r; [done|]. rewrite Qmult_1_l. by rewrite <- Zle_Qle.
Qed.

(** [cv::countNonZero] counts the foreground pixels. *)
Lemma countNonZero_foreground_pixels m : countNonZero m = foreground_pixels m.
Proof.
  unfold countNonZero, foreground_pixels.
  assert (∀ l a, fold_left (λ acc y, acc + countNonZero_row m y) l a
                 = a + foldr Z.add 0 (foreground_count m <$> l)) as Hsum.
  { induction l as [|y l IH]; intros a; [simpl; lia|].
    rewrite fmap_cons. cbn [fold_left foldr].
    rewrite IH, foreground_count_countNonZero. lia. }
  by rewrite Hsum.
Qed.

Lemma Mat_roi_region img b :
  region_inv img b →
  ∃ roi, Mat_roi img (rect_of_box b) = Ret roi
         ∧ rows roi = Box.h b ∧ cols roi = Box.w b.
Proof.
  intros (Hw & Hh & Hx & Hy & Hxw & Hyh). unfold Mat_roi, rect_of_box. simpl.
  repeat match goal with
  | |- context [?a <=? ?c] => destruct (Z.leb_spec a c); [|lia]
  end. simpl.
  eexists. split; [done|]. unfold rows, cols. simpl. lia.
Qed.

Lemma int_mul_in_range a b :
  - 2 ^ 31 ≤ a * b < 2 ^ 31 → int_mul a b = Ret (a * b).
Proof.
  intros Hab. unfold int_mul.
  destruct (Z.leb_spec (- 2 ^ 31) (a * b)); [|lia].
  destruct (Z.ltb_spec (a * b) (2 ^ 31)); [done|lia].
Qed.

Lemma int_mul_overflow a b : 2 ^ 31 ≤ a * b → int_mul a b = Undefined.
Proof.
  intros Hab. unfold int_mul.
  destruct (Z.ltb_spec (a * b) (2 ^ 31)); [lia|]. by rewrite andb_false_r.
Qed.

Lemma score_line_spec img b :
  region_inv img b → int_area b →
  ∃ sb, score_line img b = Ret sb ∧ ScoredBox.box sb = b ∧ density_scored img sb.
Proof.
  intros Hinv Harea. destruct (Mat_roi_region img b Hinv) as (roi & Hroi & Hr & Hc).
  destruct Hinv as (Hw & Hh & _). unfold int_area in Harea.
  unfold score_line. change (Rect.mk _ _ _ _) with (rect_of_box b).
  rewrite Hroi. simpl.
  change (rows (threshold_binary_inv_otsu roi)) with (rows roi).
  change (cols (threshold_binary_inv_otsu roi)) with (cols roi).
  rewrite Hr, Hc, int_mul_in_range by nia. simpl.
  eexists. split; [done|]. split; [done|].
  exists roi. simpl. rewrite Hroi.
  pose proof (countNonZero_bounds (threshold_binary_inv_otsu roi)) as Hb.
  change (rows (threshold_binary_inv_otsu roi)) with (rows roi) in Hb.
  change (cols (threshold_binary_inv_otsu roi)) with (cols roi) in Hb.
  rewrite Hr, Hc in Hb. rewrite <- countNonZero_foreground_pixels.
  rewrite (Z.mul_comm (Box.w b)).
  assert (0 < Box.h b * Box.w b) by nia.
  split_and!; [done|done|done|..]; by apply density_in_unit_interval.
Qed.

Lemma score_line_overflow img b :
  region_inv img b → 2 ^ 31 ≤ Box.w b * Box.h b → score_line img b = Undefined.
Proof.
  intros Hinv Harea. destruct (Mat_roi_region img b Hinv) as (roi & Hroi & Hr & Hc).
  unfold score_line. change (Rect.mk _ _ _ _) with (rect_of_box b).
  rewrite Hroi. simpl.
  change (rows (threshold_binary_inv_otsu roi)) with (rows roi).
  change (cols (threshold_binary_inv_otsu roi)) with (cols roi).
  rewrite Hr, Hc, int_mul_overflow by lia. done.
Qed.

Lemma for_each_spec {A B} (body : A → outcome B) (P : A → B → Prop) (l : list A) :
  Forall (λ a, ∃ b, body a = Ret b ∧ P a b) l →
  ∃ bs, for_each body l = Ret bs ∧ Forall2 P l bs.
Proof.
  induction 1 as [|a l (b & Hb & HP) _ (bs & Hbs & HF)]; simpl.
  - by exists [].
  - exists (b :: bs). rewrite Hb, Hbs. split; [done|by constructor].
Qed.

Lemma for_each_ub_spec {A B} (body : A → behaviour B) (P : A → B → Prop)
    (l : list A) :
  Forall (λ a, ∃ b, body a = Ret b ∧ P a b) l →
  ∃ bs, for_each_ub body l = Ret bs ∧ Forall2 P l bs.
Proof.
  induction 1 as [|a l (b & Hb & HP) _ (bs & Hbs & HF)]; simpl.
  - by exists [].
  - exists (b :: bs). rewrite Hb, Hbs. split; [done|by constructor].
Qed.

Lemma Forall2_scored (P : ScoredBox.t → Prop) lines scored :
  Forall2 (λ b sb, ScoredBox.box sb = b ∧ P sb) lines scored →
  ScoredBox.box <$> scored = lines ∧ Forall P scored.
Proof.
  induction 1 as [|b sb bs sbs [Hb HP] _ [IH1 IH2]]; [done|].
  rewrite fmap_cons, Hb, IH1. split; [done|by constructor].
Qed.
End ConfidenceFacts.

(** A text line too large for an [int]: the slab of 9 rows whose rows
    0..7 are ink but for one pixel. *)
Section WideLine.
Context `{!OpenCV}.

Lemma List_filter_all {A} (f : A → bool) (l : list A) :
  (∀ a, a ∈ l → f a = true) → List.filter f l = l.
Proof.
  induction l as [|a l IH]; intros Hall; simpl; [done|].
  rewrite (Hall a) by left. f_equal. apply IH. intros b Hb. apply Hall. by right.
Qed.

Lemma List_filter_none {A} (f : A → bool) (l : list A) :
  (∀ a, a ∈ l → f a = false) → List.filter f l = [].
Proof.
  induction l as [|a l IH]; intros Hall; simpl; [done|].
  rewrite (Hall a) by left. apply IH. intros b Hb. apply Hall. by right.
Qed.

Lemma findNonZero_row_full bin y :
  (∀ x, 0 ≤ x < cols bin → at_uchar bin y x ≠ 0) →
  findNonZero_row bin y = seqZ 0 (cols bin).
Proof.
  intros Hink. apply List_filter_all. intros x Hx%elem_of_seqZ.
  apply negb_true_iff, Z.eqb_neq, Hink. lia.
Qed.

Lemma findNonZero_row_blank bin y :
  (∀ x, 0 ≤ x < cols bin → at_uchar bin y x = 0) →
  findNonZero_row bin y = [].
Proof.
  intros Hpaper. apply List_filter_none. intros x Hx%elem_of_seqZ.
  apply negb_false_iff, Z.eqb_eq, Hpaper. lia.
Qed.

Lemma findNonZero_row_but_first bin y :
  0 < cols bin → at_uchar bin y 0 = 0 →
  (∀ x, 1 ≤ x < cols bin → at_uchar bin y x ≠ 0) →
  findNonZero_row bin y = seqZ 1 (cols bin - 1).
Proof.
  intros Hc Hfirst Hink. unfold findNonZero_row.
  rewrite seqZ_cons by done. cbn [List.filter]. rewrite Hfirst. cbn.
  replace (Z.pred (cols bin)) with (cols bin - 1) by lia.
  apply List_filter_all. intros x Hx%elem_of_seqZ.
  apply negb_true_iff, Z.eqb_neq, Hink. lia.
Qed.

Lemma seqZ_head_last m n :
  0 < n → head (seqZ m n) = Some m ∧ last (seqZ m n) = Some (m + n - 1).
Proof.
  intros Hn. split.
  - by rewrite seqZ_cons by done.
  - replace n with (Z.of_nat (S (Z.to_nat (n - 1)))) at 1 by lia.
    rewrite seqZ_S, last_snoc. f_equal. lia.
Qed.

(** The scan of 9 rows of which rows 0..7 are in-line, row 8 is not, and
    the ink of rows 0..7 reaches from the first column to the last. *)
Lemma scan_rows_one_band bin :
  1 < cols bin →
  (∀ y, 0 ≤ y < 8 → (min_line_sum bin <? proj bin y) = true) →
  (min_line_sum bin <? proj bin 8) = false →
  band_x_extent bin 0 (8 - 1) = (0, cols bin - 1) →
  boxes (scan_rows bin 9) = [Box.mk 0 0 (cols bin) 8].
Proof.
  intros Hc Hin Hout Hext.
  assert (scan_row bin (mkScan false 0 []) 0 = mkScan true 0 []) as Hstart.
  { unfold scan_row. by rewrite Hin by lia. }
  assert (∀ y, 0 ≤ y < 8 → scan_row bin (mkScan true 0 []) y = mkScan true 0 [])
    as Hstay.
  { intros y Hy. unfold scan_row. by rewrite Hin by done. }
  assert (scan_row bin (mkScan true 0 []) 8
          = mkScan false 0 [Box.mk 0 0 (cols bin) 8]) as Hend.
  { unfold scan_row. rewrite Hout. cbn [in_line y0 boxes]. rewrite Hext.
    destruct (Z.ltb_spec 0 (cols bin - 1)) as [_|?]; [|lia].
    cbn. do 3 f_equal. lia. }
  unfold scan_rows. change (seqZ 0 9) with [0; 1; 2; 3; 4; 5; 6; 7; 8].
  cbn [fold_left].
  rewrite Hstart, (Hstay 1), (Hstay 2), (Hstay 3), (Hstay 4), (Hstay 5),
    (Hstay 6), (Hstay 7), Hend by lia.
  done.
Qed.

Lemma scan_rows_slab bin :
  1 < cols bin →
  (∀ y x, 0 ≤ y < 7 → 0 ≤ x < cols bin → at_uchar bin y x ≠ 0) →
  at_uchar bin 7 0 = 0 →
  (∀ x, 1 ≤ x < cols bin → at_uchar bin 7 x ≠ 0) →
  (∀ x, 0 ≤ x < cols bin → at_uchar bin 8 x = 0) →
  boxes (scan_rows bin 9) = [Box.mk 0 0 (cols bin) 8].
Proof.
  intros Hc Hink Hfirst Hrest Hpaper.
  assert (∀ y, 0 ≤ y < 7 → findNonZero_row bin y = seqZ 0 (cols bin)) as Hfull.
  { intros y Hy. apply findNonZero_row_full. intros x Hx. by apply Hink. }
  pose proof (findNonZero_row_but_first bin 7 ltac:(lia) Hfirst Hrest) as Hlast.
  pose proof (findNonZero_row_blank bin 8 Hpaper) as Hblank.
  assert (cols bin `quot` 20 < cols bin - 1) as Hsum.
  { destruct (Z.le_gt_cases 20 (cols bin)) as [Hbig|Hsmall].
    - assert (cols bin `quot` 20 ≤ cols bin `quot` 2) as Hle
        by (apply Z.quot_le_compat_l; lia).
      assert (cols bin `quot` 2 < cols bin) by (apply Z.quot_lt; lia).
      pose proof (Z.quot_rem' (cols bin) 2) as Hqr.
      pose proof (Z.rem_bound_pos (cols bin) 2 ltac:(lia) ltac:(lia)). lia.
    - rewrite Z.quot_small by lia. lia. }
  apply scan_rows_one_band; [done|..].
  - intros y Hy. apply Z.ltb_lt. unfold proj, countNonZero_row, min_line_sum.
    destruct (decide (y = 7)) as [->|Hy7].
    + rewrite Hlast, length_seqZ. lia.
    + rewrite Hfull, length_seqZ by lia. lia.
  - apply Z.ltb_ge. unfold proj, countNonZero_row. rewrite Hblank. simpl.
    apply min_line_sum_nonneg.
  - assert (∀ acc y, 0 ≤ y < 7 →
              extent_row bin acc y = (Z.min acc.1 0, Z.max acc.2 (cols bin - 1)))
      as Hrow.
    { intros acc y Hy. unfold extent_row. rewrite Hfull by done.
      destruct (seqZ_head_last 0 (cols bin)) as [-> ->]; [lia|].
      f_equal; lia. }
    assert (∀ acc, extent_row bin acc 7
                   = (Z.min acc.1 1, Z.max acc.2 (cols bin - 1))) as Hrow7.
    { intros acc. unfold extent_row. rewrite Hlast.
      destruct (seqZ_head_last 1 (cols bin - 1)) as [-> ->]; [lia|].
      f_equal; lia. }
    unfold band_x_extent.
    change (seqZ 0 (8 - 1 - 0 + 1)) with [0; 1; 2; 3; 4; 5; 6; 7].
    cbn [fold_left].
    rewrite Hrow7, (Hrow _ 6), (Hrow _ 5), (Hrow _ 4), (Hrow _ 3), (Hrow _ 2),
      (Hrow _ 1), (Hrow _ 0) by lia.
    cbn [fst snd]. f_equal; lia.
Qed.

Lemma segment_lines_slab (w : N) e :
  0 ≤ getThreshVal_Otsu (Samples.page_slab w) < 255 → 1 < Z.of_N w →
  segment_lines (Samples.page_slab w) e = ([Box.mk 0 0 (Z.of_N w) 8], EmptyString).
Proof.
  intros Ht Hw. rewrite segment_lines_accepts.
  - set (bin := threshold_binary_inv_otsu (Samples.page_slab w)).
    change (rows (Samples.page_slab w)) with 9.
    assert (∀ y x, at_uchar bin y x
                   = if getThreshVal_Otsu (Samples.page_slab w)
                        <? (if Samples.slab_ink y x then 0 else 255)
                     then 0 else 255) as Hat by done.
    set (t := getThreshVal_Otsu _) in *.
    assert (∀ y x, Samples.slab_ink y x = true → at_uchar bin y x ≠ 0) as Hink.
    { intros y x Hyx. rewrite Hat, Hyx.
      by destruct (Z.ltb_spec t 0) as [?|_]; [lia|]. }
    assert (∀ y x, Samples.slab_ink y x = false → at_uchar bin y x = 0) as Hpaper.
    { intros y x Hyx. rewrite Hat, Hyx.
      by destruct (Z.ltb_spec t 255) as [_|?]; [|lia]. }
    rewrite (scan_rows_slab bin); [done|done|..].
    + intros y x Hy _. apply Hink. unfold Samples.slab_ink.
      by destruct (Z.ltb_spec y 7) as [_|?]; [|lia].
    + by apply Hpaper.
    + intros x Hx. apply Hink. unfold Samples.slab_ink.
      destruct (Z.ltb_spec 0 x) as [_|?]; [|lia]. by rewrite orb_true_r.
    + intros x _. by apply Hpaper.
  - unfold Mat_empty, rows, cols. simpl.
    by destruct (Z.eqb_spec (Z.of_N w) 0) as [?|_]; [lia|].
  - done.
Qed.

Lemma segment_with_confidence_slab (w : N) e :
  0 ≤ getThreshVal_Otsu (Samples.page_slab w) < 255 →
  2 ^ 31 ≤ Z.of_N w * 8 →
  segment_with_confidence (Samples.page_slab w) e = Undefined.
Proof.
  intros Ht Hw. unfold segment_with_confidence.
  rewrite segment_lines_slab by (done || lia).
  cbn [negb String.eqb for_each_ub].
  rewrite score_line_overflow; [done| |done].
  unfold region_inv. cbn [Box.w Box.h Box.x Box.y].
  change (cols (Samples.page_slab w)) with (Z.of_N w).
  change (rows (Samples.page_slab w)) with 9. lia.
Qed.

(** The Otsu level the sample [OpenCV] gives an ink-on-paper page. *)
Lemma two_level_otsu_page h w ink :
  Samples.two_level_otsu (Samples.page h w ink) = 0.
Proof.
  unfold Samples.two_level_otsu.
  assert (∀ v, v ∈ Samples.samples_of (Samples.page h w ink) → v = 0 ∨ v = 255)
    as Hs.
  { intros v Hv. unfold Samples.samples_of in Hv.
    apply list_elem_of_bind in Hv as (y & Hv & _).
    apply list_elem_of_bind in Hv as (x & Hv & _).
    apply list_elem_of_singleton in Hv as ->. simpl. destruct (ink y x); auto. }
  destruct (Samples.samples_of (Samples.page h w ink)) as [|v vs]; [done|].
  destruct (Z.eqb_spec (fold_left Z.min vs v) (fold_left Z.max vs v))
    as [?|Hne]; [done|].
  pose proof (fold_left_min_spec vs v) as [Hlo _].
  pose proof (fold_left_max_spec vs v) as [Hhi _].
  assert (fold_left Z.min vs v ∈ v :: vs) as Hmin.
  { destruct (fold_left_min_elem vs v) as [->|?]; [left|by right]. }
  assert (fold_left Z.max vs v ∈ v :: vs) as Hmax.
  { destruct (fold_left_max_elem vs v) as [->|?]; [left|by right]. }
  apply Hs in Hmin, Hmax. lia.
Qed.
End WideLine.

Section BatchFacts.
Context `{!OpenCV}.

Lemma batch_iteration_length imgs st i :
  length (batch_iteration imgs st i).1 = length st.1
  ∧ length (batch_iteration imgs st i).2 = length st.2.
Proof.
  unfold batch_iteration. destruct (imgs !! i); [|done].
  destruct (segment_lines m EmptyString). simpl. by rewrite !length_insert.
Qed.

Lemma batch_iteration_lookup imgs st i j img :
  length st.1 = length imgs → length st.2 = length imgs →
  imgs !! j = Some img →
  (batch_iteration imgs st i).1 !! j =
    (if decide (j = i) then Some (segment_lines img EmptyString).1 else st.1 !! j)
  ∧ (batch_iteration imgs st i).2 !! j =
    (if decide (j = i) then Some (segment_lines img EmptyString).2 else st.2 !! j).
Proof.
  intros L1 L2 Hj. unfold batch_iteration.
  destruct (decide (j = i)) as [->|Hne].
  - rewrite Hj. destruct (segment_lines img EmptyString) as [r err]. simpl.
    apply lookup_lt_Some in Hj.
    rewrite !list_lookup_insert_eq by lia. done.
  - destruct (imgs !! i) as [img'|]; [|done].
    destruct (segment_lines img' EmptyString) as [r err]. simpl.
    by rewrite !list_lookup_insert_ne.
Qed.

Lemma batch_fold_lookup schedule imgs st :
  length st.1 = length imgs → length st.2 = length imgs →
  let st' := fold_left (batch_iteration imgs) schedule st in
  length st'.1 = length imgs ∧ length st'.2 = length imgs
  ∧ ∀ j img, imgs !! j = Some img →
      st'.1 !! j =
        (if decide (j ∈ schedule) then Some (segment_lines img EmptyString).1 else st.1 !! j)
      ∧ st'.2 !! j =
        (if decide (j ∈ schedule) then Some (segment_lines img EmptyString).2 else st.2 !! j).
Proof.
  revert st. induction schedule as [|i schedule IH]; intros st L1 L2;
    cbn [fold_left].
  - split_and!; [done|done|]. intros j img _.
    destruct (decide (j ∈ [])) as [Hin|_]; [by apply elem_of_nil in Hin|done].
  - destruct (batch_iteration_length imgs st i) as [M1 M2].
    destruct (IH (batch_iteration imgs st i)) as (N1 & N2 & N3); [lia|lia|].
    split_and!; [done|done|]. intros j img Hj.
    destruct (N3 j img Hj) as [-> ->].
    destruct (batch_iteration_lookup imgs st i j img L1 L2 Hj) as [-> ->].
    destruct (decide (j ∈ schedule)) as [Hin|Hnin].
    + rewrite !decide_True by (apply elem_of_cons; by right). done.
    + destruct (decide (j = i)) as [->|Hne].
      * rewrite !decide_True by (apply elem_of_cons; by left). done.
      * rewrite !decide_False by (intros [?|?]%elem_of_cons; done). done.
Qed.
End BatchFacts.

(** ** Proofs: the preprocessing stages *)

Section StageFacts.
Context `{!OpenCV, !Leptonica, !Imgproc}.

Lemma with_pix_never_throws img f e : with_pix img f ≠ Throw e.
Proof.
  unfold with_pix, try_catch.
  by match goal with |- match ?body with _ => _ end ≠ _ =>
    destruct body as [[?|?]|] end.
Qed.

Lemma with_pix_identity img f : primary_fails img → with_pix img f = Ret img.
Proof.
  unfold with_pix, primary_fails. intros Hf.
  destruct (mat_to_pix img) as [[p|]|e]; simpl; try done.
  by destruct (Hf p).
Qed.

Lemma mat_to_pix_direct_depth mat p :
  mat_to_pix_direct mat = Some p → pix_d p = 8.
Proof.
  unfold mat_to_pix_direct. intros Hp.
  repeat match type of Hp with
  | (if ?c then _ else _) = _ => destruct c
  end; by simplify_eq.
Qed.

Lemma mat_to_pix_depth img p : mat_to_pix img = Ret (Some p) → pix_d p = 8.
Proof.
  unfold mat_to_pix. intros Hp.
  destruct (Mat_empty img); [done|].
  destruct (channels img =? 1).
  { simplify_eq. by eapply mat_to_pix_direct_depth. }
  destruct (channels img =? 3); [|done].
  destruct (cvtColor_BGR2GRAY img) as [gray|e]; [|done].
  simpl in Hp. simplify_eq. by eapply mat_to_pix_direct_depth.
Qed.

(** [pix_to_mat] leaves an image 8 bits deep alone. *)
Lemma pix_to_mat_depth_8 p :
  pix_d p = 8 → ∃ m, pix_to_mat (Some p) = (m, false).
Proof. intros Hd. unfold pix_to_mat. rewrite Hd. simpl. by eexists. Qed.

Lemma pix_to_mat_destroy_depth_8 q :
  pix_d q = 8 → ∃ m, pix_to_mat_destroy q = Ret m.
Proof.
  intros Hd. unfold pix_to_mat_destroy.
  destruct (pix_to_mat_depth_8 q Hd) as [m ->]. by exists m.
Qed.

Lemma with_pix_completes img (f : Pix → behaviour (Mat * bool)) :
  (∀ p, pix_d p = 8 → ∃ m, f p = Ret (m, false)) → completes (with_pix img f).
Proof.
  intros Hf. unfold with_pix, completes.
  destruct (mat_to_pix img) as [[p|]|e] eqn:Hp; simpl; eauto.
  destruct (Hf p (mat_to_pix_depth img p Hp)) as [m ->]. simpl. eauto.
Qed.

Lemma apply_tesseract_thresholding_depth_8 p :
  leptonica_keeps_depth_8 → pix_d p = 8 →
  ∃ m, apply_tesseract_thresholding p = Ret (m, false).
Proof.
  intros (Hotsu & Hlocal & Hand & _) Hd. unfold apply_tesseract_thresholding.
  destruct (pixOtsuAdaptiveThreshold p) as [pix_otsu|] eqn:E1;
    [|by destruct (pix_to_mat_depth_8 p Hd) as [m ->]; exists m].
  destruct (pixAdaptiveThreshold p) as [pix_local|] eqn:E2;
    [|by destruct (pix_to_mat_depth_8 p Hd) as [m ->]; exists m].
  pose proof (Hotsu p pix_otsu Hd E1) as Hd1.
  pose proof (Hlocal p pix_local Hd E2) as Hd2.
  destruct (pixAnd pix_otsu pix_local) as [pix_combined|] eqn:E3.
  - destruct (pix_to_mat_depth_8 pix_combined (Hand _ _ _ Hd1 Hd2 E3)) as [m ->].
    by exists m.
  - destruct (pix_to_mat_depth_8 pix_otsu Hd1) as [m ->]. by exists m.
Qed.

Lemma apply_tesseract_deskewing_depth_8 p :
  leptonica_keeps_depth_8 → pix_d p = 8 →
  ∃ m, apply_tesseract_deskewing p = Ret (m, false).
Proof.
  intros (_ & _ & _ & Hskew & _) Hd. unfold apply_tesseract_deskewing.
  destruct (pixFindSkewAndDeskew p) as [pix_skew|] eqn:E1;
    [|by destruct (pix_to_mat_depth_8 p Hd) as [m ->]; exists m].
  destruct (pix_to_mat_destroy_depth_8 pix_skew (Hskew p pix_skew Hd E1)) as [m ->].
  by exists m.
Qed.

Lemma apply_tesseract_dewarping_depth_8 p :
  leptonica_keeps_depth_8 → pix_d p = 8 →
  ∃ m, apply_tesseract_dewarping p = Ret (m, false).
Proof.
  intros (_ & _ & _ & _ & Hclip & _) Hd. unfold apply_tesseract_dewarping.
  destruct (pixFindPageForeground p) as [[|box boxes]|];
    try (by destruct (pix_to_mat_depth_8 p Hd) as [m ->]; exists m).
  destruct (pixClipRectangle p box) as [pix_crop|] eqn:E1;
    [|by destruct (pix_to_mat_depth_8 p Hd) as [m ->]; exists m].
  destruct (pix_to_mat_destroy_depth_8 pix_crop (Hclip box p pix_crop Hd E1))
    as [m ->].
  by exists m.
Qed.

Lemma apply_tesseract_denoising_depth_8 p :
  leptonica_keeps_depth_8 → pix_d p = 8 →
  ∃ m, apply_tesseract_denoising p = Ret (m, false).
Proof.
  intros (_ & _ & _ & _ & _ & Hopen & Hclose) Hd. unfold apply_tesseract_denoising.
  destruct (pixOpenBrick p 2 2) as [pix_open|] eqn:E1;
    [|by destruct (pix_to_mat_depth_8 p Hd) as [m ->]; exists m].
  pose proof (Hopen 2 2 p pix_open Hd E1) as Hd1.
  destruct (pixCloseBrick pix_open 1 1) as [pix_close|] eqn:E2;
    [|by destruct (pix_to_mat_depth_8 p Hd) as [m ->]; exists m].
  destruct (pix_to_mat_destroy_depth_8 pix_close (Hclose 1 1 _ _ Hd1 E2)) as [m ->].
  by exists m.
Qed.

Lemma primary_with_pix s img : ∃ f, primary s img = with_pix img f.
Proof. destruct s; eexists; reflexivity. Qed.

Lemma primary_never_throws s img e : primary s img ≠ Throw e.
Proof. destruct (primary_with_pix s img) as [f ->]. apply with_pix_never_throws. Qed.

Lemma primary_completes s img :
  leptonica_keeps_depth_8 → completes (primary s img).
Proof.
  intros Hd. destruct s; simpl.
  - apply (with_pix_completes img apply_tesseract_denoising).
    intros p Hp. by apply apply_tesseract_denoising_depth_8.
  - apply (with_pix_completes img apply_tesseract_thresholding).
    intros p Hp. by apply apply_tesseract_thresholding_depth_8.
  - apply (with_pix_completes img apply_tesseract_deskewing).
    intros p Hp. by apply apply_tesseract_deskewing_depth_8.
  - apply (with_pix_completes img apply_tesseract_dewarping).
    intros p Hp. by apply apply_tesseract_dewarping_depth_8.
Qed.

Lemma stage_apply_hybrid s hp img :
  stage_apply s hp img = hybrid_stage hp s img.
Proof.
  unfold hybrid_stage, hybrid.
  destruct s; simpl;
    unfold smart_denoise, smart_adaptive_threshold, smart_deskew, smart_dewarp,
           try_tesseract;
    destruct (tesseract_available_ hp); try done;
    match goal with |- context [match ?p with Defined _ => _ | Undefined => _ end] =>
      destruct p as [[?|?]|] end; done.
Qed.

Lemma stage_apply_available s hp img :
  tesseract_available_ hp = true → stage_apply s hp img = primary s img.
Proof.
  intros Hav. rewrite stage_apply_hybrid. unfold hybrid_stage, hybrid. rewrite Hav.
  pose proof (primary_never_throws s img) as Hnt.
  destruct (primary s img) as [[m|e]|]; [done| |done]. by destruct (Hnt e).
Qed.

Lemma largest_contour_spec c0 cs :
  largest_contour c0 cs ∈ c0 :: cs
  ∧ ∀ c, c ∈ c0 :: cs → (contourArea c <= contourArea (largest_contour c0 cs))%Q.
Proof.
  unfold largest_contour. revert c0.
  induction cs as [|c1 cs IH]; intros c0; simpl.
  - split; [left|]. intros c ->%list_elem_of_singleton. apply Qle_refl.
  - destruct (Qle_bool (contourArea c1) (contourArea c0)) eqn:E.
    + destruct (IH c0) as [Hin Hmax]. split.
      * apply elem_of_cons in Hin as [->|Hin]; [left|right; by right].
      * intros c [->|[->|Hc]%elem_of_cons]%elem_of_cons.
        -- apply Hmax. left.
        -- apply Qle_bool_iff in E. eapply Qle_trans; [exact E|]. apply Hmax. left.
        -- apply Hmax. by right.
    + destruct (IH c1) as [Hin Hmax]. split; [by right|].
      intros c [->|[->|Hc]%elem_of_cons]%elem_of_cons.
      * assert (contourArea c0 <= contourArea c1)%Q as Hle.
        { destruct (Qlt_le_dec (contourArea c0) (contourArea c1)) as [Hlt|Hge].
          - by apply Qlt_le_weak.
          - apply Qle_bool_iff in Hge. congruence. }
        eapply Qle_trans; [exact Hle|]. apply Hmax. left.
      * apply Hmax. left.
      * apply Hmax. by right.
Qed.
End StageFacts.

(** ** Theorems: the Segmenter *)

Section SegmenterClaims.
Context `{!OpenCV}.

(** C2: on a non-empty single-channel image the row scan of
    [segment_lines] is in the in-line state after a row exactly when that
    row's foreground count exceeds [cols/20], and the function returns, top
    to bottom, exactly the Regions of the bands entered on such a row and
    left on the first row at or below the threshold, that span at least 8
    rows, whose horizontal extent is the least and greatest foreground
    column over the band's rows, and whose [x_max] exceeds [x_min]; every
    Region returned has positive width. *)
Theorem segment_lines_band_scan img e :
  Mat_empty img = false → channels img = 1 →
  (∀ y, 0 ≤ y < rows img →
        in_line (scan_rows (threshold_binary_inv_otsu img) (y + 1)) = true
        ↔ in_line_row (threshold_binary_inv_otsu img) y)
  ∧ (∀ b, b ∈ (segment_lines img e).1 ↔
          line_region (threshold_binary_inv_otsu img) (rows img) b)
  ∧ top_to_bottom (segment_lines img e).1
  ∧ Forall (λ b, 0 < Box.w b) (segment_lines img e).1.
Proof.
  intros Hne Hch.
  destruct (segment_lines_regions img e Hne Hch) as [Hiff Hsorted].
  split_and!; [|done|done|].
  - intros y Hy.
    destruct (scan_rows_inv (threshold_binary_inv_otsu img) (Z.to_nat (y + 1)))
      as [Hopen Hidle _ _].
    rewrite Z2Nat.id in * by lia. split.
    + intros Hin. destruct (Hopen Hin) as (? & Hall & _). apply Hall. lia.
    + intros Hrow.
      destruct (in_line (scan_rows _ _)) eqn:E; [done|].
      destruct (Hidle eq_refl) as [?|Hn]; [lia|].
      by replace (y + 1 - 1) with y in Hn by lia.
  - apply Forall_forall. intros b Hb%Hiff.
    by destruct (line_region_inv img (rows img) b ltac:(lia) Hb).
Qed.

(** C8: [segment_lines] and [segment_words] leave a non-empty error
    message exactly when the image is empty or not single-channel, and then
    return no region; a non-empty single-channel image that binarizes to
    background only, or whose samples are all alike, yields no line Region
    and a cleared message. *)
Theorem usage_error_signalled img e :
  ((segment_lines img e).2 ≠ EmptyString ↔ Mat_empty img = true ∨ channels img ≠ 1)
  ∧ ((segment_words img e).2 ≠ EmptyString ↔ Mat_empty img = true ∨ channels img ≠ 1)
  ∧ ((segment_lines img e).2 ≠ EmptyString → (segment_lines img e).1 = [])
  ∧ ((segment_words img e).2 ≠ EmptyString → (segment_words img e).1 = [])
  ∧ (Mat_empty img = false → channels img = 1 →
     all_background img ∨ uniform img →
     segment_lines img e = ([], EmptyString)).
Proof.
  destruct (input_cases img) as [Hbad|[Hne Hch]].
  - rewrite segment_lines_rejects, segment_words_rejects by done. simpl.
    split_and!; try done.
    intros Hne Hch. destruct Hbad as [Hbad|Hbad]; congruence.
  - rewrite segment_words_accepts by done.
    pose proof (segment_lines_regions img e Hne Hch) as [Hiff _].
    rewrite segment_lines_accepts in * by done. simpl in *.
    split_and!; try done.
    + split; [done|]. intros [?|?]; congruence.
    + split; [done|]. intros [?|?]; congruence.
    + intros _ _ Hblank. f_equal. apply elem_of_nil_inv. intros b Hb%Hiff.
      destruct Hblank as [Hblank|Hu]; [|by apply (uniform_no_region img b)].
      destruct Hb as (a0 & a1 & a & c & (? & ? & Hin & _) & _).
      destruct (in_line_row_foreground _ a0 (Hin a0 ltac:(lia))) as [x Hx].
      by apply (Hblank a0 x).
Qed.

(** C9: on a non-empty single-channel image every Region returned by
    [segment_lines] or [segment_words] has positive width and height, a
    non-negative corner, and lies inside the image. *)
Theorem regions_satisfy_invariant img e :
  contours_within_image →
  Mat_empty img = false → channels img = 1 →
  Forall (region_inv img) (segment_lines img e).1
  ∧ Forall (region_inv img) (segment_words img e).1.
Proof.
  intros Hcv Hne Hch. split.
  - destruct (segment_lines_regions img e Hne Hch) as [Hiff _].
    apply Forall_forall. intros b Hb%Hiff.
    by apply (line_region_inv img (rows img)).
  - rewrite segment_words_accepts by done. simpl.
    apply keep_word_fold_inv; [|constructor].
    intros c p Hc Hp. apply (Hcv _ c p Hc Hp).
Qed.

(** C10: when every row from [ystart] to the last row of a non-empty
    single-channel image is in-line, no Region returned by [segment_lines]
    reaches row [ystart]: the band still open at the bottom edge is
    dropped, whatever its height. *)
Theorem open_band_at_bottom_dropped img e ystart :
  Mat_empty img = false → channels img = 1 →
  0 ≤ ystart < rows img →
  (∀ y, ystart ≤ y < rows img →
        in_line_row (threshold_binary_inv_otsu img) y) →
  Forall (λ b, Box.y b + Box.h b < ystart) (segment_lines img e).1.
Proof.
  intros Hne Hch Hys Hopen.
  destruct (segment_lines_regions img e Hne Hch) as [Hiff _].
  apply Forall_forall. intros b [Hlt Hout]%Hiff%line_region_below.
  destruct (decide (Box.y b + Box.h b < ystart)); [done|].
  exfalso. apply Hout, Hopen. lia.
Qed.

(** C7, as the code has it: on a non-empty single-channel image whose
    line Regions each cover fewer than 2^31 pixels, scored segmentation
    returns one ScoredRegion per line Region, in order, whose confidence
    is the number of foreground pixels of the re-binarized crop divided by
    the area of the Region and lies in [0, 1]; when line detection reports
    an error, that error is returned with no scored region. *)
Theorem segment_with_confidence_density img e :
  (Mat_empty img = false → channels img = 1 →
   Forall int_area (segment_lines img e).1 →
   ∃ scored,
     segment_with_confidence img e = Ret (scored, EmptyString)
     ∧ ScoredBox.box <$> scored = (segment_lines img e).1
     ∧ Forall (density_scored img) scored)
  ∧ ((segment_lines img e).2 ≠ EmptyString →
     segment_with_confidence img e = Ret ([], (segment_lines img e).2)).
Proof.
  split.
  - intros Hne Hch Harea.
    destruct (segment_lines_regions img e Hne Hch) as [Hiff _].
    unfold segment_with_confidence.
    rewrite segment_lines_accepts in * by done. simpl in *.
    destruct (for_each_ub_spec (score_line img)
                (λ b sb, ScoredBox.box sb = b ∧ density_scored img sb)
                (boxes (scan_rows (threshold_binary_inv_otsu img) (rows img))))
      as (scored & Hrun & Hall).
    { apply Forall_forall. intros b Hb. apply score_line_spec.
      - apply Hiff in Hb. by apply (line_region_inv img (rows img)).
      - by apply (proj1 (Forall_forall _ _) Harea). }
    exists scored. rewrite Hrun. simpl.
    destruct (Forall2_scored _ _ _ Hall). done.
  - unfold segment_with_confidence.
    destruct (segment_lines img e) as [bs err] eqn:E. simpl. intros Herr.
    destruct (String.eqb_spec err EmptyString) as [->|_]; [done|]. simpl.
    destruct (input_cases img) as [Hbad|[Hne Hch]].
    + rewrite segment_lines_rejects in E by done. by simplify_eq.
    + rewrite segment_lines_accepts in E by done. by simplify_eq.
Qed.

(** C3: whatever order the iterations of the parallel loop run in,
    [segment_batch] on N images returns N results and N errors, slot [i]
    holding exactly what [segment_lines] returns on image [i] alone; an
    empty image leaves the usage error in its own slot only. *)
Theorem segment_batch_independent schedule imgs out_errors :
  schedule ≡ₚ seq 0 (length imgs) →
  segment_batch_in schedule imgs out_errors =
    ((λ img, (segment_lines img EmptyString).1) <$> imgs,
     (λ img, (segment_lines img EmptyString).2) <$> imgs)
  ∧ length (segment_batch_in schedule imgs out_errors).1 = length imgs
  ∧ length (segment_batch_in schedule imgs out_errors).2 = length imgs
  ∧ ∀ i img, imgs !! i = Some img →
      (segment_batch_in schedule imgs out_errors).1 !! i
        = Some (segment_lines img EmptyString).1
      ∧ (segment_batch_in schedule imgs out_errors).2 !! i
        = Some (segment_lines img EmptyString).2
      ∧ ((segment_batch_in schedule imgs out_errors).2 !! i = Some usage_error
         ↔ Mat_empty img = true ∨ channels img ≠ 1).
Proof.
  intros Hperm. unfold segment_batch_in.
  destruct (batch_fold_lookup schedule imgs
              (replicate (length imgs) [], resize (length imgs) EmptyString out_errors))
    as (L1 & L2 & Hlk).
  { simpl. by rewrite length_replicate. }
  { simpl. by rewrite length_resize. }
  set (st' := fold_left _ _ _) in *.
  assert (∀ i img, imgs !! i = Some img →
            st'.1 !! i = Some (segment_lines img EmptyString).1
            ∧ st'.2 !! i = Some (segment_lines img EmptyString).2) as Hslot.
  { intros i img Hi. destruct (Hlk i img Hi) as [-> ->].
    rewrite !decide_True; [done|..];
      rewrite Hperm; apply elem_of_seq; apply lookup_lt_Some in Hi; lia. }
  split_and!; [|done|done|].
  - destruct st' as [rs es]. simpl in *. f_equal.
    + apply list_eq. intros i. rewrite list_lookup_fmap.
      destruct (imgs !! i) as [img|] eqn:Hi; simpl.
      * by destruct (Hslot i img Hi).
      * apply lookup_ge_None. apply lookup_ge_None in Hi. lia.
    + apply list_eq. intros i. rewrite list_lookup_fmap.
      destruct (imgs !! i) as [img|] eqn:Hi; simpl.
      * by destruct (Hslot i img Hi).
      * apply lookup_ge_None. apply lookup_ge_None in Hi. lia.
  - intros i img Hi. destruct (Hslot i img Hi) as [H1 H2].
    split_and!; [done|done|]. rewrite H2.
    destruct (input_cases img) as [Hbad|[Hne Hch]].
    + rewrite segment_lines_rejects by done. simpl. done.
    + rewrite segment_lines_accepts by done. simpl.
      split; [intros ?; simplify_eq|intros [?|?]; congruence].
Qed.
End SegmenterClaims.

(** ** Theorems: field extraction and the preprocessing stages *)

(** C4: on the text of the source's own test, with the lines
    "Invoice Number: INV12345", "Date: 2023-05-12" and "Total: $1,234.56",
    [extract_invoice_fields] finds the invoice number and the date, but its
    total is "1,23": [\d+[.,]\d{2}] stops at the thousands separator. *)
Theorem extract_invoice_fields_sample :
  extract_invoice_fields sample_invoice_text !! "invoice_number" = Some "INV12345"
  ∧ extract_invoice_fields sample_invoice_text !! "date" = Some "2023-05-12"
  ∧ extract_invoice_fields sample_invoice_text !! "total" = Some "1,23"
  ∧ extract_invoice_fields sample_invoice_text !! "total" ≠ Some "1,234.56".
Proof. split_and!; [by vm_compute..|]. vm_compute. discriminate. Qed.

Section StageClaims.
Context `{!OpenCV, !Leptonica, !Imgproc}.

(** C1, as the code has it: with the primary available a stage returns
    what the primary returns, and no exception reaches the caller, because
    every primary catches its own exceptions; a primary that cannot run on
    the image returns the input unchanged, the fallback is not tried.
    With the primary unavailable the fallback runs and its outcome is the
    stage's outcome, an exception of the fallback included.  Where every
    Leptonica call keeps the images 8 bits deep, the stage with the primary
    available returns an image. *)
Theorem stage_apply_outcome s hp img :
  (∀ m, tesseract_available_ hp = true → primary s img = Ret m →
        stage_apply s hp img = Ret m)
  ∧ (tesseract_available_ hp = false → stage_apply s hp img = fallback s img)
  ∧ (∀ e, primary s img ≠ Throw e)
  ∧ (tesseract_available_ hp = true → ∀ e, stage_apply s hp img ≠ Throw e)
  ∧ (primary_fails img → primary s img = Ret img)
  ∧ (tesseract_available_ hp = true → leptonica_keeps_depth_8 →
     completes (stage_apply s hp img)).
Proof.
  split_and!.
  - intros m Hav Hm. by rewrite stage_apply_available.
  - intros Hav. rewrite stage_apply_hybrid. unfold hybrid_stage, hybrid.
    by rewrite Hav.
  - apply primary_never_throws.
  - intros Hav e. rewrite stage_apply_available by done.
    apply primary_never_throws.
  - intros Hfail. destruct (primary_with_pix s img) as [f ->].
    by apply with_pix_identity.
  - intros Hav Hd. rewrite stage_apply_available by done.
    by apply primary_completes.
Qed.


(** C6: when the polygon approximating the largest external contour does
    not have exactly 4 vertices, [dewarp] returns its input, so an image
    of the same width and height; so does the Dewarp stage whenever it
    runs this strategy. *)
Theorem dewarp_noop_without_quad img quad :
  largest_contour_polygon img = Ret (Some quad) →
  length quad ≠ 4%nat →
  (∃ out, dewarp img = Ret out
          ∧ cols out = cols img ∧ rows out = rows img ∧ out = img)
  ∧ (∀ hp, tesseract_available_ hp = false → smart_dewarp hp img = Ret img).
Proof.
  intros Hpoly Hlen.
  assert (dewarp img = Ret img) as Hd.
  { unfold largest_contour_polygon, dewarp in *.
    destruct (if channels img =? 3 then cvtColor_BGR2GRAY img else Ret img)
      as [gray|e]; [|done].
    simpl in *. destruct (adaptiveThreshold gray _ _ _) as [bin|e]; [|done].
    simpl in *. destruct (findContours bin) as [|c0 cs]; [done|].
    simplify_eq. by apply Nat.eqb_neq in Hlen as ->. }
  split.
  - exists img. by rewrite Hd.
  - intros hp Hav. rewrite <- Hd.
    pose proof (stage_apply_hybrid Dewarp hp img) as Hh. simpl in Hh.
    rewrite Hh. unfold hybrid_stage, hybrid. by rewrite Hav.
Qed.
End StageClaims.

(** ** The theorems on the sample inputs *)

Section SampleRuns.
Import Samples StageSamples MoreSamples.

Lemma range_forallb (Pb : Z → bool) a n :
  forallb Pb (seqZ a n) = true → ∀ y, a ≤ y < a + n → Pb y = true.
Proof.
  intros Hall y Hy. rewrite forallb_forall in Hall.
  apply Hall, list_elem_of_In, elem_of_seqZ. lia.
Qed.

Lemma blob_contour_within : @contours_within_image sample_cv.
Proof.
  intros bin c p Hc Hp. simpl in Hc. unfold blob_contour in Hc.
  destruct (_ ≫= _) as [|q qs] eqn:E; [by apply elem_of_nil in Hc|].
  apply list_elem_of_singleton in Hc as ->. rewrite <- E in Hp.
  apply list_elem_of_bind in Hp as (y & Hp & Hy%elem_of_seqZ).
  apply list_elem_of_bind in Hp as (x & Hp & [Hx _]%elem_of_findNonZero_row).
  apply list_elem_of_singleton in Hp as ->. simpl. lia.
Qed.

Example segment_lines_two_lines :
  @segment_lines sample_cv page_two_lines EmptyString = ([Box.mk 5 2 30 10], EmptyString).
Proof. by vm_compute. Qed.

Example segment_words_one_line :
  @segment_words sample_cv page_one_line EmptyString = ([Box.mk 5 2 30 10], EmptyString).
Proof. by vm_compute. Qed.

Example segment_with_confidence_two_lines :
  @segment_with_confidence sample_cv page_two_lines EmptyString
  = Ret ([ScoredBox.mk (Box.mk 5 2 30 10) (200 # 300)], EmptyString).
Proof. by vm_compute. Qed.

Lemma segment_lines_band_scan_witness :
  Mat_empty page_two_lines = false ∧ channels page_two_lines = 1
  ∧ (∀ y, 0 ≤ y < rows page_two_lines →
          in_line (scan_rows (@threshold_binary_inv_otsu sample_cv page_two_lines)
                             (y + 1)) = true
          ↔ in_line_row (@threshold_binary_inv_otsu sample_cv page_two_lines) y)
  ∧ (∀ b, b ∈ (@segment_lines sample_cv page_two_lines EmptyString).1 ↔
          line_region (@threshold_binary_inv_otsu sample_cv page_two_lines)
                      (rows page_two_lines) b)
  ∧ top_to_bottom (@segment_lines sample_cv page_two_lines EmptyString).1
  ∧ Forall (λ b, 0 < Box.w b) (@segment_lines sample_cv page_two_lines EmptyString).1.
Proof.
  split; [reflexivity|]. split; [reflexivity|].
  apply (@segment_lines_band_scan sample_cv page_two_lines EmptyString); reflexivity.
Defined.

Lemma usage_error_signalled_witness :
  Mat_empty page_blank = false ∧ channels page_blank = 1
  ∧ @all_background sample_cv page_blank
  ∧ @segment_lines sample_cv page_blank EmptyString = ([], EmptyString).
Proof.
  assert (@all_background sample_cv page_blank) as Hbg.
  { intros y x [_ Hnz]. apply Hnz. vm_compute. reflexivity. }
  split; [reflexivity|]. split; [reflexivity|]. split; [exact Hbg|].
  destruct (@usage_error_signalled sample_cv page_blank EmptyString) as (_ & _ & _ & _ & Hb).
  apply Hb; [reflexivity|reflexivity|left; exact Hbg].
Defined.

Lemma regions_satisfy_invariant_witness :
  @contours_within_image sample_cv
  ∧ Mat_empty page_one_line = false ∧ channels page_one_line = 1
  ∧ Forall (region_inv page_one_line) (@segment_lines sample_cv page_one_line EmptyString).1
  ∧ Forall (region_inv page_one_line) (@segment_words sample_cv page_one_line EmptyString).1.
Proof.
  split; [exact blob_contour_within|]. split; [reflexivity|]. split; [reflexivity|].
  apply (@regions_satisfy_invariant sample_cv page_one_line EmptyString);
    [exact blob_contour_within|reflexivity|reflexivity].
Defined.

Lemma open_band_at_bottom_dropped_witness :
  Mat_empty page_two_lines = false ∧ channels page_two_lines = 1
  ∧ 0 ≤ 15 < rows page_two_lines
  ∧ (∀ y, 15 ≤ y < rows page_two_lines →
          in_line_row (@threshold_binary_inv_otsu sample_cv page_two_lines) y)
  ∧ Forall (λ b, Box.y b + Box.h b < 15)
           (@segment_lines sample_cv page_two_lines EmptyString).1.
Proof.
  assert (∀ y, 15 ≤ y < rows page_two_lines →
            in_line_row (@threshold_binary_inv_otsu sample_cv page_two_lines) y)
    as Hopen.
  { intros y Hy. apply in_line_row_scan, Z.ltb_lt.
    apply (range_forallb
             (λ y, min_line_sum (@threshold_binary_inv_otsu sample_cv page_two_lines)
                   <? proj (@threshold_binary_inv_otsu sample_cv page_two_lines) y)
             15 15); [by vm_compute|exact Hy]. }
  assert (0 ≤ 15 < rows page_two_lines) as Hys by (by vm_compute).
  split; [reflexivity|]. split; [reflexivity|]. split; [exact Hys|].
  split; [exact Hopen|].
  apply (@open_band_at_bottom_dropped sample_cv page_two_lines EmptyString 15);
    [reflexivity|reflexivity|exact Hys|exact Hopen].
Defined.

Lemma segment_with_confidence_density_witness :
  Mat_empty page_two_lines = false ∧ channels page_two_lines = 1
  ∧ Forall int_area (@segment_lines sample_cv page_two_lines EmptyString).1
  ∧ ∃ scored,
      @segment_with_confidence sample_cv page_two_lines EmptyString = Ret (scored, EmptyString)
      ∧ ScoredBox.box <$> scored = (@segment_lines sample_cv page_two_lines EmptyString).1
      ∧ Forall (@density_scored sample_cv page_two_lines) scored.
Proof.
  assert (Forall int_area (@segment_lines sample_cv page_two_lines EmptyString).1)
    as Harea.
  { rewrite segment_lines_two_lines. repeat constructor. }
  split; [reflexivity|]. split; [reflexivity|]. split; [exact Harea|].
  destruct (@segment_with_confidence_density sample_cv page_two_lines EmptyString) as [Hs _].
  apply Hs; [reflexivity|reflexivity|exact Harea].
Defined.

(** C7 fails on the code: the one text line of the slab of 2^28 columns
    has 2^31 pixels, of which 2^31 - 1 are ink; [bin.rows * bin.cols]
    overflows, and the behaviour of the call is undefined; no scored
    region is returned. *)
Lemma scored_segmentation_counterexample :
  Mat_empty page_wide = false ∧ channels page_wide = 1
  ∧ @segment_lines sample_cv page_wide EmptyString
    = ([Box.mk 0 0 268435456 8], EmptyString)
  ∧ @segment_with_confidence sample_cv page_wide EmptyString = Undefined
  ∧ ¬ ∃ scored,
        @segment_with_confidence sample_cv page_wide EmptyString
        = Ret (scored, EmptyString)
        ∧ ScoredBox.box <$> scored
          = (@segment_lines sample_cv page_wide EmptyString).1
        ∧ Forall (@density_scored sample_cv page_wide) scored.
Proof.
  assert (0 ≤ @getThreshVal_Otsu sample_cv (page_slab 268435456) < 255) as Ht.
  { pose proof (two_level_otsu_page 9 268435456 slab_ink) as Hotsu.
    unfold page_slab. cbn [getThreshVal_Otsu sample_cv]. rewrite Hotsu. lia. }
  assert (@segment_with_confidence sample_cv page_wide EmptyString = Undefined)
    as Hub.
  { unfold page_wide. apply segment_with_confidence_slab; [exact Ht|].
    by vm_compute. }
  split_and!; [reflexivity|reflexivity| |exact Hub|].
  - unfold page_wide. apply (@segment_lines_slab sample_cv 268435456); [exact Ht|].
    reflexivity.
  - intros (scored & Hrun & _). rewrite Hub in Hrun. discriminate.
Qed.

Lemma segment_batch_independent_witness :
  let imgs := [page_one_line; Mat_default; page_two_lines] in
  [2; 0; 1]%nat ≡ₚ seq 0 (length imgs)
  ∧ @segment_batch_in sample_cv [2; 0; 1]%nat imgs ["stale"] =
      ((λ img, (@segment_lines sample_cv img EmptyString).1) <$> imgs,
       (λ img, (@segment_lines sample_cv img EmptyString).2) <$> imgs).
Proof.
  intros imgs.
  assert ([2; 0; 1]%nat ≡ₚ seq 0 (length imgs)) as Hperm.
  { simpl. etrans; [apply perm_swap|]. apply perm_skip, perm_swap. }
  split; [exact Hperm|].
  destruct (@segment_batch_independent sample_cv [2; 0; 1]%nat imgs ["stale"] Hperm)
    as [Heq _].
  exact Heq.
Defined.

(** A band one pixel wide is kept but not emitted: [x_max > x_min] asks for
    two columns.  10 x 12, ink on column 4 of rows 1..9. *)
Example segment_lines_thin_band :
  @segment_lines sample_cv (page 12 10 (in_rect 4 1 4 9)) EmptyString = ([], EmptyString).
Proof. by vm_compute. Qed.

(** An all-ink page: every row is in-line and the band never closes. *)
Example segment_lines_all_ink :
  @segment_lines sample_cv (page 30 40 (λ _ _, true)) EmptyString = ([], EmptyString).
Proof. by vm_compute. Qed.

Example segment_batch_isolates_empty :
  @segment_batch sample_cv [page_one_line; Mat_default; page_two_lines] []
  = ([[Box.mk 5 2 30 10]; []; [Box.mk 5 2 30 10]],
     [EmptyString; usage_error; EmptyString]).
Proof. by vm_compute. Qed.

Lemma page_huge_primary_fails : @primary_fails leptonica_ok sample_imgproc page_huge.
Proof. intros p. vm_compute. discriminate. Qed.

Lemma leptonica_ok_keeps_depth_8 : @leptonica_keeps_depth_8 leptonica_ok.
Proof.
  unfold leptonica_keeps_depth_8, keeps_depth_8. simpl. unfold same_geometry.
  split_and!; intros; by simplify_eq.
Qed.

Lemma stage_apply_outcome_witness :
  (tesseract_available_ hp_unavailable = false
   ∧ @stage_apply sample_cv leptonica_missing sample_imgproc Threshold
       hp_unavailable page_one_line
     = @fallback sample_cv sample_imgproc Threshold page_one_line)
  ∧ (tesseract_available_ hp_available = true
     ∧ @leptonica_keeps_depth_8 leptonica_ok
     ∧ completes (@stage_apply sample_cv leptonica_ok sample_imgproc Threshold
                    hp_available page_one_line)).
Proof.
  split.
  - split; [reflexivity|].
    destruct (@stage_apply_outcome sample_cv leptonica_missing sample_imgproc
                Threshold hp_unavailable page_one_line) as (_ & Hfb & _).
    apply Hfb. reflexivity.
  - split; [reflexivity|]. split; [exact leptonica_ok_keeps_depth_8|].
    destruct (@stage_apply_outcome sample_cv leptonica_ok sample_imgproc
                Threshold hp_available page_one_line)
      as (_ & _ & _ & _ & _ & Hret).
    apply Hret; [reflexivity|exact leptonica_ok_keeps_depth_8].
Defined.

(** C1 fails on the code: where the primary is unavailable and the
    fallback raises (here [cv::adaptiveThreshold] on a 3-channel image),
    the exception reaches the caller; the input is not returned. *)
Lemma strategy_stage_counterexample :
  tesseract_available_ hp_unavailable = false
  ∧ @fallback sample_cv sample_imgproc Threshold page_color
    = Throw "OpenCV: adaptiveThreshold: src.type() == CV_8UC1"
  ∧ @stage_apply sample_cv leptonica_missing sample_imgproc Threshold
      hp_unavailable page_color
    = Throw "OpenCV: adaptiveThreshold: src.type() == CV_8UC1"
  ∧ ¬ completes (@stage_apply sample_cv leptonica_missing sample_imgproc Threshold
                   hp_unavailable page_color).
Proof.
  split_and!; [by vm_compute..|]. intros [m Hm]. vm_compute in Hm. discriminate.
Qed.


(** Where a Leptonica threshold returns an image 1 bit deep, [pix_to_mat]
    destroys it on the way to 8 bits and the Threshold primary destroys
    it again: the behaviour of the stage is undefined. *)
Example threshold_stage_destroys_twice :
  @stage_apply sample_cv leptonica_binary sample_imgproc Threshold
    (@HybridPreprocessor_new leptonica_binary) page_one_line
  = Undefined.
Proof. by vm_compute. Qed.

(** With the primary available, an image the primary cannot take (here one
    too large for [pixCreate]) comes back unchanged; the fallback, which
    would produce another image, is not run. *)
Example primary_failure_is_identity :
  tesseract_available_ hp_available = true
  ∧ @primary_fails leptonica_ok sample_imgproc page_huge
  ∧ (∃ m, @fallback sample_cv sample_imgproc Threshold page_huge = Ret m
          ∧ at_uchar m 0 0 ≠ at_uchar page_huge 0 0)
  ∧ @stage_apply sample_cv leptonica_ok sample_imgproc Threshold
      hp_available page_huge = Ret page_huge.
Proof.
  split; [reflexivity|]. split; [exact page_huge_primary_fails|]. split.
  - eexists. split; [by vm_compute|]. vm_compute. discriminate.
  - by vm_compute.
Qed.

Lemma dewarp_noop_without_quad_witness :
  @largest_contour_polygon sample_cv sample_imgproc page_small
    = Ret (Some page_small_polygon)
  ∧ length page_small_polygon ≠ 4%nat
  ∧ @dewarp sample_cv sample_imgproc page_small = Ret page_small.
Proof.
  assert (@largest_contour_polygon sample_cv sample_imgproc page_small
          = Ret (Some page_small_polygon)) as Hpoly by (by vm_compute).
  assert (length page_small_polygon ≠ 4%nat) as Hlen by (vm_compute; discriminate).
  split; [exact Hpoly|]. split; [exact Hlen|].
  destruct (@dewarp_noop_without_quad sample_cv leptonica_ok sample_imgproc
              page_small page_small_polygon Hpoly Hlen)
    as [(out & Hout & _ & _ & ->) _].
  exact Hout.
Defined.
End SampleRuns.

(** ** Proofs: the patterns of [extract_invoice_fields] *)

Section RegexFacts.

Lemma regex_run_sound {A} (r : Regex.t) :
  ∀ s c (k : list ascii → gmap nat (list ascii) → option A) a,
    Regex.run r s c k = Some a →
    ∃ w s' c', s = w ++ s' ∧ regex_matches r w c c' ∧ k s' c' = Some a.
Proof.
  induction r as [|p|r1 IH1 r2 IH2|r1 IH1 r2 IH2|r1 IH1|i r1 IH1];
    intros s c k a Hrun; cbn [Regex.run] in Hrun.
  - exists [], s, c. split_and!; [done|constructor|done].
  - destruct s as [|x s]; [done|]. destruct (p x) eqn:Hp; [|done].
    exists [x], s, c. split_and!; [done|by constructor|done].
  - apply IH1 in Hrun as (w1 & s1 & c1 & -> & Hm1 & Hrun).
    apply IH2 in Hrun as (w2 & s2 & c2 & -> & Hm2 & Hk).
    exists (w1 ++ w2), s2, c2. rewrite <- app_assoc.
    split_and!; [done|by econstructor|done].
  - destruct (Regex.run r1 s c k) as [a'|] eqn:E1.
    + simplify_eq. apply IH1 in E1 as (w & s' & c' & -> & Hm & Hk).
      exists w, s', c'. split_and!; [done|by apply matches_alt_l|done].
    + apply IH2 in Hrun as (w & s' & c' & -> & Hm & Hk).
      exists w, s', c'. split_and!; [done|by apply matches_alt_r|done].
  - revert Hrun. generalize (length s) at 1. intros n. revert s c.
    induction n as [|n IHn]; intros s c Hrun.
    + exists [], s, c. split_and!; [done|constructor|done].
    + match type of Hrun with
      | match ?t with _ => _ end = _ => destruct t as [a'|] eqn:E1
      end.
      * simplify_eq. apply IH1 in E1 as (w1 & s1 & c1 & -> & Hm1 & Hk).
        destruct (Nat.ltb_spec (length s1) (length (w1 ++ s1))) as [Hlt|]; [|done].
        apply IHn in Hk as (w2 & s2 & c2 & -> & Hm2 & Hk).
        exists (w1 ++ w2), s2, c2. rewrite <- app_assoc.
        split_and!; [done| |done].
        apply matches_star_cons with c1; [|done|done].
        intros ->. simpl in Hlt. lia.
      * exists [], s, c. split_and!; [done|constructor|done].
  - apply IH1 in Hrun as (w & s' & c' & -> & Hm & Hk).
    exists w, s', (<[i := w]> c'). split_and!; [done|by constructor|].
    rewrite length_app, Nat.add_sub, take_app_length in Hk. done.
Qed.

Lemma regex_search_sound (re : Regex.t) (s : list ascii) c :
  Regex.search re s = Some c →
  ∃ pre w post, s = pre ++ w ++ post ∧ regex_matches re w ∅ c.
Proof.
  induction s as [|x s IH]; cbn [Regex.search].
  - destruct (Regex.run re [] ∅ _) as [c'|] eqn:E; [|done].
    intros ?; simplify_eq.
    apply regex_run_sound in E as (w & s' & c' & Hs & Hm & ?). simplify_eq.
    exists [], w, s'. done.
  - destruct (Regex.run re (x :: s) ∅ _) as [c'|] eqn:E.
    + intros ?; simplify_eq.
      apply regex_run_sound in E as (w & s' & c' & Hs & Hm & ?). simplify_eq.
      exists [], w, s'. done.
    + intros (pre & w & post & -> & Hm)%IH. exists (x :: pre), w, post. done.
Qed.

Lemma regex_run_star {A} r s c (k : list ascii → gmap nat (list ascii) → option A) :
  Regex.run (Regex.Star r) s c k = star_iterate r k (length s) s c.
Proof. reflexivity. Qed.

Lemma star_iterate_O {A} r (k : list ascii → gmap nat (list ascii) → option A) s c :
  star_iterate r k 0 s c = k s c.
Proof. reflexivity. Qed.

Lemma star_iterate_S {A} r (k : list ascii → gmap nat (list ascii) → option A) n s c :
  star_iterate r k (S n) s c =
  match Regex.run r s c
          (λ s' c', if (length s' <? length s)%nat
                    then star_iterate r k n s' c' else None) with
  | Some a => Some a
  | None => k s c
  end.
Proof. reflexivity. Qed.

Lemma regex_run_ext {A} (r : Regex.t) :
  ∀ s c (k k' : list ascii → gmap nat (list ascii) → option A),
    (∀ s' c', k s' c' = k' s' c') →
    Regex.run r s c k = Regex.run r s c k'.
Proof.
  induction r as [|p|r1 IH1 r2 IH2|r1 IH1 r2 IH2|r1 IH1|i r1 IH1];
    intros s c k k' Hk.
  - apply Hk.
  - cbn [Regex.run]. destruct s as [|x s]; [done|]. by rewrite Hk.
  - cbn [Regex.run]. apply IH1. intros s' c'. by apply IH2.
  - cbn [Regex.run]. by rewrite (IH1 s c k k'), (IH2 s c k k').
  - rewrite !regex_run_star. generalize (length s). intros n. revert s c.
    induction n as [|n IHn]; intros s c;
      [rewrite !star_iterate_O; apply Hk|rewrite !star_iterate_S].
    rewrite Hk. erewrite IH1; [done|].
    intros s' c'. simpl. by rewrite IHn.
  - cbn [Regex.run]. apply IH1. intros s' c'. apply Hk.
Qed.

Lemma regex_run_none {A} (r : Regex.t) :
  ∀ s c (k : list ascii → gmap nat (list ascii) → option A),
    (∀ s' c', k s' c' = None) → Regex.run r s c k = None.
Proof.
  intros s c k Hk.
  destruct (Regex.run r s c k) as [a|] eqn:E; [|done].
  apply regex_run_sound in E as (w & s' & c' & _ & _ & E).
  by rewrite Hk in E.
Qed.

Lemma star_iterate_fuel {A} r (k : list ascii → gmap nat (list ascii) → option A) :
  ∀ n m s c, (length s ≤ n)%nat → (length s ≤ m)%nat →
    star_iterate r k n s c = star_iterate r k m s c.
Proof.
  assert (∀ m s c, (length s ≤ 0)%nat → star_iterate r k 0 s c = star_iterate r k m s c)
    as Hzero.
  { intros [|m] s c Hs; [done|]. rewrite star_iterate_O, star_iterate_S.
    rewrite regex_run_none; [done|]. intros s' c'.
    destruct (Nat.ltb_spec (length s') (length s)); [lia|done]. }
  induction n as [|n IHn]; intros m s c Hn Hm; [by apply Hzero|].
  destruct m as [|m]; [symmetry; by apply Hzero|].
  rewrite !star_iterate_S. erewrite regex_run_ext; [done|].
  intros s' c'. simpl.
  destruct (Nat.ltb_spec (length s') (length s)); [|done].
  apply IHn; lia.
Qed.

Lemma regex_run_complete {A} r w c0 c1 :
  regex_matches r w c0 c1 →
  ∀ s' c (k : list ascii → gmap nat (list ascii) → option A),
    (∀ c', is_Some (k s' c')) → is_Some (Regex.run r (w ++ s') c k).
Proof.
  induction 1 as [c0|p a c0 Hp|r1 r2 w1 w2 c0 c1 c2 _ IH1 _ IH2
                  |r1 r2 w c0 c1 _ IH1|r1 r2 w c0 c1 _ IH2
                  |r c0|r w1 w2 c0 c1 c2 Hne _ IH1 _ IH2|i r w c0 c1 _ IH1];
    intros s' c k Hk.
  - apply Hk.
  - simpl. rewrite Hp. apply Hk.
  - cbn [Regex.run]. rewrite <- app_assoc. apply IH1. intros c'. by apply IH2.
  - cbn [Regex.run]. destruct (IH1 s' c k Hk) as [a ->]. by exists a.
  - cbn [Regex.run]. destruct (Regex.run r1 (w ++ s') c k) as [a|]; [by exists a|].
    by apply IH2.
  - rewrite regex_run_star. simpl app.
    destruct (length s'); [rewrite star_iterate_O; apply Hk|rewrite star_iterate_S].
    match goal with |- is_Some (match ?t with _ => _ end) => destruct t as [a|] end;
      [by exists a|apply Hk].
  - rewrite regex_run_star, <- app_assoc.
    destruct (length (w1 ++ w2 ++ s')) as [|n] eqn:El.
    { destruct w1; [done|simpl in El; lia]. }
    rewrite star_iterate_S.
    destruct (IH1 (w2 ++ s') c
                (λ s1 c1, if (length s1 <? length (w1 ++ w2 ++ s'))%nat
                          then star_iterate r k n s1 c1 else None)) as [a ->];
      [|by exists a].
    intros c'.
    destruct (Nat.ltb_spec (length (w2 ++ s')) (length (w1 ++ w2 ++ s'))) as [Hlt|Hge].
    + rewrite (star_iterate_fuel r k n (length (w2 ++ s'))) by lia.
      rewrite <- regex_run_star. by apply IH2.
    + rewrite (length_app w1) in Hge. destruct w1; [done|simpl in Hge; lia].
  - cbn [Regex.run]. apply IH1. intros c'. apply Hk.
Qed.

Lemma regex_search_complete (re : Regex.t) pre w post c0 c1 :
  regex_matches re w c0 c1 → is_Some (Regex.search re (pre ++ w ++ post)).
Proof.
  intros Hm. induction pre as [|x pre IH].
  - assert (is_Some (Regex.run re (w ++ post) ∅ (λ _ caps, Some caps))) as [c Hc]
      by (apply (regex_run_complete re w c0 c1 Hm); by eexists).
    simpl. destruct (w ++ post); cbn [Regex.search]; rewrite Hc; by eexists.
  - cbn [Regex.search app].
    destruct (Regex.run re (x :: pre ++ w ++ post) ∅ _); [by eexists|done].
Qed.

(** The capture state never decides whether a pattern matches. *)
Lemma regex_matches_any_captures r w c0 c1 :
  regex_matches r w c0 c1 → ∀ c, ∃ c', regex_matches r w c c'.
Proof.
  induction 1 as [c0|p a c0 Hp|r1 r2 w1 w2 c0 c1 c2 _ IH1 _ IH2
                  |r1 r2 w c0 c1 _ IH1|r1 r2 w c0 c1 _ IH2
                  |r c0|r w1 w2 c0 c1 c2 Hne _ IH1 _ IH2|i r w c0 c1 _ IH1];
    intros c.
  - eexists; constructor.
  - eexists; by constructor.
  - destruct (IH1 c) as [c' ?]. destruct (IH2 c') as [c'' ?].
    eexists; by econstructor.
  - destruct (IH1 c) as [c' ?]. eexists; by apply matches_alt_l.
  - destruct (IH2 c) as [c' ?]. eexists; by apply matches_alt_r.
  - eexists; constructor.
  - destruct (IH1 c) as [c' ?]. destruct (IH2 c') as [c'' ?].
    eexists; by eapply matches_star_cons.
  - destruct (IH1 c) as [c' ?]. eexists; by constructor.
Qed.

End RegexFacts.

(** ** [extract_invoice_fields]: which text each field holds *)

Section FieldFacts.

Lemma matches_eps_iff w c c' :
  regex_matches Regex.Eps w c c' ↔ w = [] ∧ c' = c.
Proof. split; [inversion 1; by subst|intros [-> ->]; constructor]. Qed.

Lemma matches_chr_iff p w c c' :
  regex_matches (Regex.Chr p) w c c' ↔ ∃ a, w = [a] ∧ p a = true ∧ c' = c.
Proof.
  split; [inversion 1; subst; by eexists|].
  intros (a & -> & Hp & ->). by constructor.
Qed.

Lemma matches_seq_iff r1 r2 w c c2 :
  regex_matches (Regex.Seq r1 r2) w c c2 ↔
  ∃ w1 w2 c1, w = w1 ++ w2 ∧ regex_matches r1 w1 c c1 ∧ regex_matches r2 w2 c1 c2.
Proof.
  split; [inversion 1; subst; by eexists _, _, _|].
  intros (w1 & w2 & c1 & -> & H1 & H2). by econstructor.
Qed.

Lemma matches_alt_iff r1 r2 w c c' :
  regex_matches (Regex.Alt r1 r2) w c c' ↔
  regex_matches r1 w c c' ∨ regex_matches r2 w c c'.
Proof.
  split; [inversion 1; subst; tauto|].
  intros [Hm|Hm]; [by apply matches_alt_l|by apply matches_alt_r].
Qed.

Lemma matches_group_iff i r w c c' :
  regex_matches (Regex.Group i r) w c c' ↔
  ∃ c1, regex_matches r w c c1 ∧ c' = <[i := w]> c1.
Proof.
  split; [inversion 1; subst; by eexists|].
  intros (c1 & Hm & ->). by constructor.
Qed.

Lemma matches_star_chr p w c c' :
  regex_matches (Regex.Star (Regex.Chr p)) w c c' ↔
  Forall (λ a, p a = true) w ∧ c' = c.
Proof.
  split.
  - remember (Regex.Star (Regex.Chr p)) as r eqn:Er. intros Hm.
    induction Hm as [| | | | | |r0 w1 w2 c0 c1 c2 Hne H1 _ _ IH2|]; try discriminate.
    + by split.
    + injection Er as ->.
      apply matches_chr_iff in H1 as (a & -> & Hp & ->).
      destruct (IH2 eq_refl) as [HF ->]. split; [by constructor|done].
  - intros [HF ->]. induction HF as [|a w Hp _ IH]; [constructor|].
    change (a :: w) with ([a] ++ w).
    eapply matches_star_cons; [done|by constructor|done].
Qed.

Lemma matches_rep_chr p n : ∀ w c c',
  regex_matches (Regex.rep n (Regex.Chr p)) w c c' ↔
  length w = n ∧ Forall (λ a, p a = true) w ∧ c' = c.
Proof.
  induction n as [|n IH]; intros w c c'; cbn [Regex.rep].
  - rewrite matches_eps_iff. split.
    + intros [-> ->]. by split_and!.
    + intros (Hl & _ & ->). by destruct w.
  - rewrite matches_seq_iff. split.
    + intros (w1 & w2 & c1 & -> & H1 & H2).
      apply matches_chr_iff in H1 as (a & -> & Hp & ->).
      apply IH in H2 as (<- & HF & ->). split_and!; [done|by constructor|done].
    + intros (Hl & HF & ->). destruct w as [|a w]; [done|].
      apply Forall_cons in HF as [Hp HF]. exists [a], w, c.
      split_and!; [done|by constructor|]. apply IH. split_and!; [|done..].
      simpl in Hl. lia.
Qed.

Lemma matches_plus_chr p w c c' :
  regex_matches (Regex.plus (Regex.Chr p)) w c c' ↔
  w ≠ [] ∧ Forall (λ a, p a = true) w ∧ c' = c.
Proof.
  unfold Regex.plus. rewrite matches_seq_iff. split.
  - intros (w1 & w2 & c1 & -> & H1 & H2).
    apply matches_chr_iff in H1 as (a & -> & Hp & ->).
    apply matches_star_chr in H2 as [HF ->]. split_and!; [done|by constructor|done].
  - intros (Hne & HF & ->). destruct w as [|a w]; [done|].
    apply Forall_cons in HF as [Hp HF]. exists [a], w, c.
    split_and!; [done|by constructor|]. by apply matches_star_chr.
Qed.

Lemma matches_lit_icase word w c c' :
  regex_matches (Regex.lit_icase word) w c c' ↔ same_letters word w ∧ c' = c.
Proof.
  unfold Regex.lit_icase, same_letters. revert w.
  induction (list_ascii_of_string word) as [|x cs IH]; intros w; cbn [foldr].
  - rewrite matches_eps_iff. split; [by intros [-> ->]|].
    intros [Hw ->]. by destruct w.
  - rewrite matches_seq_iff. split.
    + intros (w1 & w2 & c1 & -> & H1 & H2).
      apply matches_chr_iff in H1 as (a & -> & Hp & ->).
      apply IH in H2 as [Hw ->]. apply Ascii.eqb_eq in Hp.
      split; [|done]. cbn [app]. rewrite !fmap_cons. by rewrite Hp, Hw.
    + intros [Hw ->]. destruct w as [|a w]; [done|].
      rewrite !fmap_cons in Hw. injection Hw as Ha Hw.
      exists [a], w, c. split_and!; [done| |by apply IH].
      constructor. by apply Ascii.eqb_eq.
Qed.

Lemma same_letters_length word l :
  same_letters word l → length l = length (list_ascii_of_string word).
Proof.
  unfold same_letters. intros Hl.
  by rewrite <- (length_fmap Regex.to_lower l), Hl, length_fmap.
Qed.

(** *** Characters *)

Lemma is_digit_not_space a : Regex.is_digit a = true → Regex.is_space a = false.
Proof.
  unfold Regex.is_digit, Regex.is_space. intros Hd.
  apply andb_true_iff in Hd as [H1%Nat.leb_le H2%Nat.leb_le].
  apply orb_false_iff. split; [apply Nat.eqb_neq; lia|].
  apply andb_false_iff. right. apply Nat.leb_gt. lia.
Qed.

Lemma one_of_not_digit cs a :
  forallb (λ x, negb (Regex.is_digit x)) (list_ascii_of_string cs) = true →
  Regex.one_of cs a = true → Regex.is_digit a = false.
Proof.
  unfold Regex.one_of. intros Hall Ha.
  apply existsb_exists in Ha as (x & Hx & ->%Ascii.eqb_eq).
  rewrite forallb_forall in Hall. apply negb_true_iff. by apply Hall.
Qed.

(** *** Runs of characters *)

Lemma stops_nil p : stops p [].
Proof. by intros a s'. Qed.

Lemma stops_cons p a s : p a = false → stops p (a :: s).
Proof. intros Hp a' s' [= <- <-]. done. Qed.

Lemma stops_app_cons p a w s : p a = false → stops p ((a :: w) ++ s).
Proof. apply stops_cons. Qed.

Lemma span_unique (p : ascii → bool) : ∀ g g' x x',
  Forall (λ a, p a = true) g → Forall (λ a, p a = true) g' →
  stops p x → stops p x' → g ++ x = g' ++ x' → g = g' ∧ x = x'.
Proof.
  induction g as [|a g IH]; intros g' x x' Hg Hg' Hx Hx' E.
  - destruct g' as [|a' g']; [done|]. simpl in E.
    apply Forall_cons in Hg' as [Ha' _].
    rewrite (Hx a' (g' ++ x') E) in Ha'. done.
  - apply Forall_cons in Hg as [Ha Hg]. destruct g' as [|a' g'].
    + simpl in E. symmetry in E. rewrite (Hx' a (g ++ x) E) in Ha. done.
    + injection E as <- E. apply Forall_cons in Hg' as [_ Hg'].
      destruct (IH g' x x' Hg Hg' Hx Hx' E) as [-> ->]. done.
Qed.

Lemma prefix_unique (w w' p p' : list ascii) :
  length w = length w' → w ++ p = w' ++ p' → w = w' ∧ p = p'.
Proof. intros Hl E. by apply app_inj_1. Qed.

(** *** The matcher on a run of characters: [p*] takes all it can when what
    follows accepts any rest *)

Lemma regex_run_star_chr {A} p (k : list ascii → gmap nat (list ascii) → option A) :
  (∀ s c, is_Some (k s c)) →
  ∀ s c, ∃ w s',
    s = w ++ s' ∧ Forall (λ a, p a = true) w ∧ stops p s'
    ∧ Regex.run (Regex.Star (Regex.Chr p)) s c k = k s' c.
Proof.
  intros Hk s c. rewrite regex_run_star.
  cut (∀ n s, (length s ≤ n)%nat → ∃ w s',
         s = w ++ s' ∧ Forall (λ a, p a = true) w ∧ stops p s'
         ∧ star_iterate (Regex.Chr p) k n s c = k s' c).
  { intros Hn. by apply Hn. }
  clear s. induction n as [|n IH]; intros s Hs.
  - destruct s; [|simpl in Hs; lia]. exists [], [].
    split_and!; [done|constructor|apply stops_nil|done].
  - rewrite star_iterate_S. destruct s as [|a s].
    + exists [], []. split_and!; [done|constructor|apply stops_nil|done].
    + cbn [Regex.run]. destruct (p a) eqn:Hp.
      * destruct (Nat.ltb_spec (length s) (length (a :: s))) as [_|Hge];
          [|simpl in Hge; lia].
        destruct (IH s) as (w & s' & -> & HF & Hst & E); [simpl in Hs; lia|].
        rewrite E. destruct (Hk s' c) as [x Hx]. rewrite Hx.
        exists (a :: w), s'. split_and!; [done|by constructor|done|done].
      * exists [], (a :: s). split_and!; [done|constructor|by apply stops_cons|done].
Qed.

(** *** The first match *)

Lemma regex_run_none_iff re rest :
  Regex.run re rest ∅ (λ _ caps, Some caps) = None ↔
  ¬ starts_with (regex_accepts re) rest.
Proof.
  split.
  - intros HN (w & post & -> & c & Hm).
    destruct (regex_run_complete re w ∅ c Hm post ∅ (λ _ caps, Some caps)) as [x Hx];
      [by eexists|]. congruence.
  - intros Hno. destruct (Regex.run _ _ _ _) as [c|] eqn:E; [|done].
    apply regex_run_sound in E as (w & s' & c' & -> & Hm & _).
    destruct Hno. exists w, s'. split; [done|]. by exists c'.
Qed.

Lemma regex_search_first re s c :
  Regex.search re s = Some c ↔
  ∃ pre rest, s = pre ++ rest
    ∧ Regex.run re rest ∅ (λ _ caps, Some caps) = Some c
    ∧ ∀ pre' rest', s = pre' ++ rest' → ((length pre ≤ length pre')%nat → False) →
        Regex.run re rest' ∅ (λ _ caps, Some caps) = None.
Proof.
  split.
  - induction s as [|x s IH]; cbn [Regex.search];
      destruct (Regex.run re _ ∅ _) as [c0|] eqn:E.
    + intros [= ->]. exists [], []. split_and!; [done..|].
      intros pre' rest' _ Hlt. destruct Hlt. simpl. lia.
    + done.
    + intros [= ->]. exists [], (x :: s). split_and!; [done..|].
      intros pre' rest' _ Hlt. destruct Hlt. simpl. lia.
    + intros Hs. destruct (IH Hs) as (pre & rest & -> & Hr & Hl).
      exists (x :: pre), rest. split_and!; [done..|].
      intros [|y pre'] rest' E' Hlt.
      * simpl in E'. by rewrite <- E'.
      * injection E' as <- E'. apply (Hl pre' rest' E').
        intros Hle. apply Hlt. simpl. lia.
  - intros (pre & rest & -> & Hr & Hl). induction pre as [|x pre IH].
    + simpl. destruct rest; cbn [Regex.search]; by rewrite Hr.
    + cbn [app Regex.search].
      rewrite (Hl [] (x :: pre ++ rest)) by (done || (simpl; lia)).
      apply IH. intros pre' rest' E Hlt.
      apply (Hl (x :: pre') rest'); [simpl; congruence|]. simpl. lia.
Qed.

Lemma field_value_first re t v :
  field_value re t = Some v ↔
  ∃ pre rest c,
    list_ascii_of_string t = pre ++ rest
    ∧ Regex.run re rest ∅ (λ _ caps, Some caps) = Some c
    ∧ v = Regex.str c 1
    ∧ ∀ pre' rest', list_ascii_of_string t = pre' ++ rest' →
        starts_with (regex_accepts re) rest' → (length pre ≤ length pre')%nat.
Proof.
  unfold field_value. rewrite fmap_Some. split.
  - intros (c & Hs & ->). apply regex_search_first in Hs as (pre & rest & E & Hr & Hl).
    exists pre, rest, c. split_and!; [done..|].
    intros pre' rest' E' Hst.
    destruct (decide (length pre ≤ length pre')%nat) as [|Hn]; [done|].
    specialize (Hl pre' rest' E' Hn). by apply regex_run_none_iff in Hl.
  - intros (pre & rest & c & E & Hr & -> & Hl). exists c. split; [|done].
    apply regex_search_first. exists pre, rest. split_and!; [done..|].
    intros pre' rest' E' Hlt. apply regex_run_none_iff. intros Hst.
    apply Hlt. by apply (Hl pre' rest').
Qed.

(** A pattern with one way to match at each position. *)
Lemma regex_run_unique re :
  (∀ w w' p p' c c',
     regex_matches re w ∅ c → regex_matches re w' ∅ c' →
     w ++ p = w' ++ p' → c = c') →
  ∀ rest c,
    Regex.run re rest ∅ (λ _ caps, Some caps) = Some c ↔
    ∃ w post, rest = w ++ post ∧ regex_matches re w ∅ c.
Proof.
  intros Huniq rest c. split.
  - intros E. apply regex_run_sound in E as (w & s' & c' & -> & Hm & [= ->]).
    by exists w, s'.
  - intros (w & post & -> & Hm).
    destruct (regex_run_complete re w ∅ c Hm post ∅ (λ _ caps, Some caps)) as [c2 Hc2];
      [by eexists|].
    rewrite Hc2. f_equal.
    pose proof Hc2 as E.
    apply regex_run_sound in E as (w2 & s2 & c' & E & Hm2 & [= ->]).
    symmetry in E. by apply (Huniq _ _ _ _ _ _ Hm2 Hm E).
Qed.

Lemma str_insert_1 (w : list ascii) (c : gmap nat (list ascii)) :
  Regex.str (<[1%nat := w]> c) 1 = string_of_list_ascii w.
Proof. unfold Regex.str. by simplify_map_eq. Qed.

Lemma string_chars_eq (v : string) (w : list ascii) :
  v = string_of_list_ascii w ↔ list_ascii_of_string v = w.
Proof.
  split; [intros ->; apply list_ascii_of_string_of_list_ascii|].
  intros <-. symmetry. apply string_of_list_ascii_of_string.
Qed.

(** *** The date pattern *)

Lemma matches_date_body n1 n2 n3 cs w c c' :
  regex_matches
    (Regex.Seq (Regex.rep n1 Regex.digit)
       (Regex.Seq (Regex.Chr (Regex.one_of cs))
          (Regex.Seq (Regex.rep n2 Regex.digit)
             (Regex.Seq (Regex.Chr (Regex.one_of cs)) (Regex.rep n3 Regex.digit)))))
    w c c' ↔
  (∃ a s1 b s2 d,
     w = a ++ s1 :: b ++ s2 :: d
     ∧ digits a ∧ digits b ∧ digits d
     ∧ Regex.one_of cs s1 = true ∧ Regex.one_of cs s2 = true
     ∧ length a = n1 ∧ length b = n2 ∧ length d = n3)
  ∧ c' = c.
Proof.
  unfold Regex.digit, digits. split.
  - intros (a & w1 & c1 & -> & Ha & H1)%matches_seq_iff.
    apply matches_rep_chr in Ha as (La & Fa & ->).
    apply matches_seq_iff in H1 as (x1 & w2 & c1 & -> & Hs1 & H2).
    apply matches_chr_iff in Hs1 as (s1 & -> & Hs1 & ->).
    apply matches_seq_iff in H2 as (b & w3 & c1 & -> & Hb & H3).
    apply matches_rep_chr in Hb as (Lb & Fb & ->).
    apply matches_seq_iff in H3 as (x2 & d & c1 & -> & Hs2 & Hd).
    apply matches_chr_iff in Hs2 as (s2 & -> & Hs2 & ->).
    apply matches_rep_chr in Hd as (Ld & Fd & ->).
    split; [|done]. exists a, s1, b, s2, d. by split_and!.
  - intros [(a & s1 & b & s2 & d & -> & Fa & Fb & Fd & Hs1 & Hs2 & La & Lb & Ld) ->].
    apply matches_seq_iff. exists a, (s1 :: b ++ s2 :: d), c.
    split_and!; [done|by apply matches_rep_chr|].
    apply matches_seq_iff. exists [s1], (b ++ s2 :: d), c.
    split_and!; [done|by constructor|].
    apply matches_seq_iff. exists b, (s2 :: d), c.
    split_and!; [done|by apply matches_rep_chr|].
    apply matches_seq_iff. exists [s2], d, c.
    split_and!; [done|by constructor|by apply matches_rep_chr].
Qed.

Lemma matches_date_re w c c' :
  regex_matches date_re w c c' ↔ date_shape w ∧ c' = <[1%nat := w]> c.
Proof.
  unfold date_re, date_shape. cbv zeta.
  rewrite matches_group_iff. setoid_rewrite matches_alt_iff.
  setoid_rewrite matches_date_body. split.
  - intros (c1 & [[(a & s1 & b & s2 & d & Hd) ->]|[(a & s1 & b & s2 & d & Hd) ->]] & ->);
      (split; [|done]); exists a, s1, b, s2, d; intuition.
  - intros [(a & s1 & b & s2 & d & Hw & Fa & Fb & Fd & Hs1 & Hs2 & [Hl|Hl]) ->];
      exists c; (split; [|done]); [left|right];
      (split; [|done]); exists a, s1, b, s2, d; intuition.
Qed.

Lemma date_shape_length w : date_shape w → length w = 10%nat.
Proof.
  intros (a & s1 & b & s2 & d & -> & _ & _ & _ & _ & _ & Hl).
  rewrite length_app. simpl. rewrite length_app. simpl. lia.
Qed.

Lemma date_re_unique w w' p p' c c' :
  regex_matches date_re w ∅ c → regex_matches date_re w' ∅ c' →
  w ++ p = w' ++ p' → c = c'.
Proof.
  intros [Hw ->]%matches_date_re [Hw' ->]%matches_date_re E.
  apply prefix_unique in E as [-> _]; [done|].
  by rewrite !date_shape_length.
Qed.

(** *** The total pattern *)

Lemma matches_amount w c c' :
  regex_matches
    (Regex.Seq (Regex.plus Regex.digit)
       (Regex.Seq (Regex.Chr (Regex.one_of ".,")) (Regex.rep 2 Regex.digit)))
    w c c' ↔ amount_shape w ∧ c' = c.
Proof.
  unfold Regex.digit, amount_shape, digits. split.
  - intros (ds & w1 & c1 & -> & Hds & H1)%matches_seq_iff.
    apply matches_plus_chr in Hds as (Hne & Fds & ->).
    apply matches_seq_iff in H1 as (x & cents & c1 & -> & Hs & Hc).
    apply matches_chr_iff in Hs as (s & -> & Hs & ->).
    apply matches_rep_chr in Hc as (Lc & Fc & ->).
    split; [|done]. exists ds, s, cents. by split_and!.
  - intros [(ds & s & cents & -> & Hne & Fds & Hs & Lc & Fc) ->].
    apply matches_seq_iff. exists ds, (s :: cents), c.
    split_and!; [done|by apply matches_plus_chr|].
    apply matches_seq_iff. exists [s], cents, c.
    split_and!; [done|by constructor|by apply matches_rep_chr].
Qed.

Lemma matches_total_re w c c' :
  regex_matches total_re w c c' ↔ ∃ v, total_match w v ∧ c' = <[1%nat := v]> c.
Proof.
  unfold total_re, total_match. split.
  - intros (l & w1 & c1 & -> & Hl & H1)%matches_seq_iff.
    apply matches_lit_icase in Hl as [Hl ->].
    apply matches_seq_iff in H1 as (gap & v & c1 & -> & Hg & Hv).
    apply matches_star_chr in Hg as [Hg ->].
    apply matches_group_iff in Hv as (c1 & [Hv ->]%matches_amount & ->).
    exists v. split; [|done]. exists l, gap. split_and!; [done..| |done].
    eapply Forall_impl; [exact Hg|]. intros a Ha. by apply negb_true_iff.
  - intros (v & (l & gap & -> & Hl & Hg & Hv) & ->).
    apply matches_seq_iff. exists l, (gap ++ v), c.
    split_and!; [done|by apply matches_lit_icase|].
    apply matches_seq_iff. exists gap, v, c. split_and!; [done| |].
    + apply matches_star_chr. split; [|done].
      eapply Forall_impl; [exact Hg|]. intros a Ha. by apply negb_true_iff.
    + apply matches_group_iff. exists c. split; [|done]. by apply matches_amount.
Qed.

Lemma total_match_unique w w' v v' p p' :
  total_match w v → total_match w' v' → w ++ p = w' ++ p' → v = v'.
Proof.
  intros (l & gap & -> & Hl & Hg & ds & s & cents & -> & Hne & Fds & Hs & Lc & Fc).
  intros (l' & gap' & -> & Hl' & Hg' & ds' & s' & cents' & -> & Hne' & Fds' & Hs' & Lc' & Fc').
  intros E. rewrite <- !app_assoc in E.
  apply prefix_unique in E as [-> E];
    [|by rewrite (same_letters_length _ _ Hl), (same_letters_length _ _ Hl')].
  rewrite <- ?app_assoc in E.
  apply (span_unique (λ a, negb (Regex.is_digit a))) in E as [-> E].
  - rewrite <- ?app_assoc in E.
    apply (span_unique Regex.is_digit) in E as [-> E]; [|done|done|..].
    + simpl in E. injection E as -> E.
      apply prefix_unique in E as [-> _]; [done|congruence].
    + apply stops_cons. by apply (one_of_not_digit ".,").
    + apply stops_cons. by apply (one_of_not_digit ".,").
  - eapply Forall_impl; [exact Hg|]. intros a Ha. by apply negb_true_iff.
  - eapply Forall_impl; [exact Hg'|]. intros a Ha. by apply negb_true_iff.
  - destruct ds as [|x ds]; [done|]. apply Forall_cons in Fds as [Hx _].
    apply stops_cons. by rewrite Hx.
  - destruct ds' as [|x ds']; [done|]. apply Forall_cons in Fds' as [Hx _].
    apply stops_cons. by rewrite Hx.
Qed.

Lemma total_re_unique w w' p p' c c' :
  regex_matches total_re w ∅ c → regex_matches total_re w' ∅ c' →
  w ++ p = w' ++ p' → c = c'.
Proof.
  intros (v & Hv & ->)%matches_total_re (v' & Hv' & ->)%matches_total_re E.
  by rewrite (total_match_unique _ _ _ _ _ _ Hv Hv' E).
Qed.

(** *** The invoice number pattern *)

Lemma matches_invnum_re w c c' :
  regex_matches invnum_re w c c' ↔ invoice_number_shape w ∧ c' = <[1%nat := w]> c.
Proof.
  unfold invnum_re, invoice_number_shape, Regex.digit, digits. split.
  - intros (c1 & Hm & ->)%matches_group_iff.
    apply matches_seq_iff in Hm as (l & w1 & c2 & -> & Hl & H1).
    apply matches_lit_icase in Hl as [Hl ->].
    apply matches_seq_iff in H1 as (sp & ds & c2 & -> & Hsp & Hds).
    apply matches_star_chr in Hsp as [Hsp ->].
    apply matches_plus_chr in Hds as (Hne & Fds & ->).
    split; [|done]. exists l, sp, ds. by split_and!.
  - intros [(l & sp & ds & -> & Hl & Hsp & Hne & Fds) ->].
    apply matches_group_iff. exists c. split; [|done].
    apply matches_seq_iff. exists l, (sp ++ ds), c.
    split_and!; [done|by apply matches_lit_icase|].
    apply matches_seq_iff. exists sp, ds, c.
    split_and!; [done|by apply matches_star_chr|by apply matches_plus_chr].
Qed.

Lemma invoice_number_unique w w' p p' :
  invoice_number_shape w → invoice_number_shape w' →
  stops Regex.is_digit p → stops Regex.is_digit p' →
  w ++ p = w' ++ p' → w = w'.
Proof.
  intros (l & sp & ds & -> & Hl & Hsp & Hne & Fds).
  intros (l' & sp' & ds' & -> & Hl' & Hsp' & Hne' & Fds').
  intros Hp Hp' E. rewrite <- !app_assoc in E.
  apply prefix_unique in E as [-> E];
    [|by rewrite (same_letters_length _ _ Hl), (same_letters_length _ _ Hl')].
  rewrite <- ?app_assoc in E.
  apply (span_unique Regex.is_space) in E as [-> E]; [|done|done|..].
  - apply (span_unique Regex.is_digit) in E as [-> _]; done.
  - destruct ds as [|x ds]; [done|]. apply Forall_cons in Fds as [Hx _].
    apply stops_cons. by apply is_digit_not_space.
  - destruct ds' as [|x ds']; [done|]. apply Forall_cons in Fds' as [Hx _].
    apply stops_cons. by apply is_digit_not_space.
Qed.

Lemma run_invnum_re_sound rest c :
  Regex.run invnum_re rest ∅ (λ _ caps, Some caps) = Some c →
  ∃ w post, rest = w ++ post ∧ invoice_number_shape w
    ∧ stops Regex.is_digit post ∧ c = <[1%nat := w]> ∅.
Proof.
  intros E.
  change (Regex.run
            (Regex.Seq (Regex.lit_icase "INV")
               (Regex.Seq (Regex.Star (Regex.Chr Regex.is_space)) Regex.digit))
            rest ∅
            (λ s3 c3, Regex.run (Regex.Star (Regex.Chr Regex.is_digit)) s3 c3
                        (λ s' c', Some (<[1%nat := take (length rest - length s') rest]> c')))
          = Some c) in E.
  apply regex_run_sound in E as (w & s3 & c3 & -> & Hm & Hk).
  destruct (regex_run_star_chr Regex.is_digit
              (λ s' c', Some (<[1%nat := take (length (w ++ s3) - length s') (w ++ s3)]> c')))
    with (s := s3) (c := c3) as (w2 & s4 & -> & HF & Hst & E); [by eexists|].
  rewrite E in Hk. injection Hk as <-.
  apply matches_seq_iff in Hm as (l & w1 & c2 & -> & Hl & H1).
  apply matches_lit_icase in Hl as [Hl ->].
  apply matches_seq_iff in H1 as (sp & d & c2 & -> & Hsp & Hd).
  apply matches_star_chr in Hsp as [Hsp ->].
  apply matches_chr_iff in Hd as (a & -> & Ha & ->).
  exists ((l ++ sp ++ [a]) ++ w2), s4. split_and!.
  - by rewrite <- !app_assoc.
  - exists l, sp, (a :: w2). split_and!; [by rewrite <- !app_assoc|done..|by constructor].
  - done.
  - f_equal. rewrite (app_assoc _ w2 s4), length_app, Nat.add_sub.
    by rewrite take_app_length.
Qed.

Lemma run_invnum_re rest c :
  Regex.run invnum_re rest ∅ (λ _ caps, Some caps) = Some c ↔
  ∃ w post, rest = w ++ post ∧ invoice_number_shape w
    ∧ stops Regex.is_digit post ∧ c = <[1%nat := w]> ∅.
Proof.
  split; [apply run_invnum_re_sound|].
  intros (w & post & -> & Hw & Hst & ->).
  assert (regex_matches invnum_re w ∅ (<[1%nat := w]> ∅)) as Hm
    by by apply matches_invnum_re.
  destruct (regex_run_complete _ _ _ _ Hm post ∅ (λ _ caps, Some caps)) as [c2 Hc2];
    [by eexists|].
  rewrite Hc2. f_equal.
  destruct (run_invnum_re_sound _ _ Hc2) as (w2 & post2 & E & Hw2 & Hst2 & ->).
  symmetry in E. by rewrite (invoice_number_unique _ _ _ _ Hw2 Hw Hst2 Hst E).
Qed.

(** *** The three lookups *)

Lemma extract_invoice_fields_lookup t key :
  extract_invoice_fields t !! key =
  if decide (key = "total") then field_value total_re t
  else if decide (key = "date") then field_value date_re t
  else if decide (key = "invoice_number") then field_value invnum_re t
  else None.
Proof.
  unfold extract_invoice_fields, extract_field, field_value.
  destruct (Regex.search total_re _), (Regex.search date_re _),
    (Regex.search invnum_re _); repeat case_decide; by simplify_map_eq.
Qed.

Lemma starts_with_iff (P Q : list ascii → Prop) s :
  (∀ w, P w ↔ Q w) → starts_with P s ↔ starts_with Q s.
Proof.
  intros HPQ. unfold starts_with. split; intros (w & post & -> & Hw);
    exists w, post; (split; [done|]); by apply HPQ.
Qed.

Lemma accepts_date_re w : regex_accepts date_re w ↔ date_shape w.
Proof.
  unfold regex_accepts. split.
  - by intros (c & [Hw _]%matches_date_re).
  - intros Hw. eexists. by apply matches_date_re.
Qed.

Lemma accepts_total_re w : regex_accepts total_re w ↔ total_shape w.
Proof.
  unfold regex_accepts, total_shape. split.
  - intros (c & (v & Hv & _)%matches_total_re). by exists v.
  - intros (v & Hv). eexists. apply matches_total_re. by exists v.
Qed.

Lemma accepts_invnum_re w : regex_accepts invnum_re w ↔ invoice_number_shape w.
Proof.
  unfold regex_accepts. split.
  - by intros (c & [Hw _]%matches_invnum_re).
  - intros Hw. eexists. by apply matches_invnum_re.
Qed.



Lemma date_value_first (ocr_text v : string) :
  field_value date_re ocr_text = Some v ↔
  ∃ pre post, first_at date_shape ocr_text pre (list_ascii_of_string v) post.
Proof.
  rewrite field_value_first. unfold first_at. split.
  - intros (pre & rest & c & E & Hr & -> & Hl).
    apply (regex_run_unique _ date_re_unique) in Hr as (w & post & -> & [Hw ->]%matches_date_re).
    exists pre, post. rewrite str_insert_1, list_ascii_of_string_of_list_ascii.
    split_and!; [done..|]. intros pre' rest' E' Hst. apply (Hl pre' rest' E').
    by apply (starts_with_iff _ _ _ accepts_date_re).
  - intros (pre & post & E & Hw & Hl).
    exists pre, (list_ascii_of_string v ++ post), (<[1%nat := list_ascii_of_string v]> ∅).
    split_and!; [done| | |].
    + apply (regex_run_unique _ date_re_unique). eexists _, _. split; [done|].
      by apply matches_date_re.
    + rewrite str_insert_1. by apply string_chars_eq.
    + intros pre' rest' E' Hst. apply (Hl pre' rest' E').
      by apply (starts_with_iff _ _ _ accepts_date_re).
Qed.

Lemma total_value_first (ocr_text v : string) :
  field_value total_re ocr_text = Some v ↔
  ∃ pre w post,
    first_at total_shape ocr_text pre w post
    ∧ total_match w (list_ascii_of_string v).
Proof.
  rewrite field_value_first. unfold first_at. split.
  - intros (pre & rest & c & E & Hr & -> & Hl).
    apply (regex_run_unique _ total_re_unique) in Hr
      as (w & post & -> & (x & Hx & ->)%matches_total_re).
    exists pre, w, post. rewrite str_insert_1, list_ascii_of_string_of_list_ascii.
    split_and!; [done|by exists x| |done].
    intros pre' rest' E' Hst. apply (Hl pre' rest' E').
    by apply (starts_with_iff _ _ _ accepts_total_re).
  - intros (pre & w & post & (E & Hw & Hl) & Hv).
    exists pre, (w ++ post), (<[1%nat := list_ascii_of_string v]> ∅).
    split_and!; [done| | |].
    + apply (regex_run_unique _ total_re_unique). eexists _, _. split; [done|].
      apply matches_total_re. by eexists.
    + rewrite str_insert_1. by apply string_chars_eq.
    + intros pre' rest' E' Hst. apply (Hl pre' rest' E').
      by apply (starts_with_iff _ _ _ accepts_total_re).
Qed.

Lemma invnum_value_first (ocr_text v : string) :
  field_value invnum_re ocr_text = Some v ↔
  ∃ pre post,
    first_at invoice_number_shape ocr_text pre (list_ascii_of_string v) post
    ∧ stops Regex.is_digit post.
Proof.
  rewrite field_value_first. unfold first_at. split.
  - intros (pre & rest & c & E & Hr & -> & Hl).
    apply run_invnum_re in Hr as (w & post & -> & Hw & Hst & ->).
    exists pre, post. rewrite str_insert_1, list_ascii_of_string_of_list_ascii.
    split_and!; [done..| |done]. intros pre' rest' E' Hst'. apply (Hl pre' rest' E').
    by apply (starts_with_iff _ _ _ accepts_invnum_re).
  - intros (pre & post & (E & Hw & Hl) & Hst).
    exists pre, (list_ascii_of_string v ++ post), (<[1%nat := list_ascii_of_string v]> ∅).
    split_and!; [done| | |].
    + apply run_invnum_re. by eexists _, _.
    + rewrite str_insert_1. by apply string_chars_eq.
    + intros pre' rest' E' Hst'. apply (Hl pre' rest' E').
      by apply (starts_with_iff _ _ _ accepts_invnum_re).
Qed.

Lemma field_value_shape (ocr_text key v : string) :
  extract_invoice_fields ocr_text !! key = Some v →
  key ∈ ["invoice_number"; "date"; "total"]
  ∧ occurs_in (list_ascii_of_string v) ocr_text
  ∧ Exists (λ a, Regex.is_digit a = true) (list_ascii_of_string v).
Proof.
  rewrite extract_invoice_fields_lookup. unfold occurs_in.
  repeat case_decide; subst; [| | |done].
  - intros (pre & w & post & (E & _ & _) & Hv)%total_value_first.
    destruct Hv as (l & gap & -> & _ & _ & ds & s & cents & Ev & Hne & Fds & _).
    split_and!; [set_solver| |].
    + exists (pre ++ l ++ gap), post. by rewrite E, <- !app_assoc.
    + rewrite Ev. destruct ds as [|d ds]; [done|].
      apply Forall_cons in Fds as [Hd _]. by apply Exists_cons_hd.
  - intros (pre & post & E & Hv & _)%date_value_first.
    split_and!; [set_solver|by exists pre, post|].
    destruct Hv as (a & s1 & b & s2 & d & -> & Fa & _ & _ & _ & _ & Hl).
    destruct a as [|x a]; [simpl in Hl; lia|].
    apply Forall_cons in Fa as [Hx _]. by apply Exists_cons_hd.
  - intros (pre & post & (E & Hv & _) & _)%invnum_value_first.
    split_and!; [set_solver|by exists pre, post|].
    destruct Hv as (l & sp & ds & -> & _ & _ & Hne & Fds).
    destruct ds as [|d ds]; [done|].
    apply Forall_cons in Fds as [Hd _].
    apply Exists_app. right. apply Exists_app. right. by apply Exists_cons_hd.
Qed.

End FieldFacts.

(** X1. The [date] field holds the first date of the text: the stored
    value is the leftmost substring made of two digits, [/] or [-], two
    digits, [/] or [-], four digits, or of four, two and two digits so
    separated; the field is absent exactly when the text has no such
    substring. *)
Theorem date_field_first_date (ocr_text v : string) :
  extract_invoice_fields ocr_text !! "date" = Some v ↔
  ∃ pre post, first_at date_shape ocr_text pre (list_ascii_of_string v) post.
Proof. rewrite extract_invoice_fields_lookup. apply date_value_first. Qed.

(** X2. The [total] field holds the amount of the first "Total ...
    amount" of the text: the leftmost substring made of "Total" in any
    case, characters that are not digits, and an amount of at least one
    digit, [.] or [,], and exactly two digits; the stored value is that
    amount, so it never has more than two digits after its one separator. *)
Theorem total_field_first_amount (ocr_text v : string) :
  extract_invoice_fields ocr_text !! "total" = Some v ↔
  ∃ pre w post,
    first_at total_shape ocr_text pre w post
    ∧ total_match w (list_ascii_of_string v).
Proof. rewrite extract_invoice_fields_lookup. apply total_value_first. Qed.

(** X3. The [invoice_number] field holds the first invoice number of the
    text with all its digits: the stored value is the leftmost substring
    made of "INV" in any case, white space if any, and at least one digit,
    and the text goes on after it with no digit. *)
Theorem invoice_number_field_first (ocr_text v : string) :
  extract_invoice_fields ocr_text !! "invoice_number" = Some v ↔
  ∃ pre post,
    first_at invoice_number_shape ocr_text pre (list_ascii_of_string v) post
    ∧ stops Regex.is_digit post.
Proof. rewrite extract_invoice_fields_lookup. apply invnum_value_first. Qed.

(** X4. [extract_invoice_fields] stores nothing but the keys
    [invoice_number], [date] and [total], and every stored value is a
    substring of the text that contains a digit: no value is empty. *)
Theorem extract_invoice_fields_values (ocr_text key v : string) :
  extract_invoice_fields ocr_text !! key = Some v →
  key ∈ ["invoice_number"; "date"; "total"]
  ∧ occurs_in (list_ascii_of_string v) ocr_text
  ∧ Exists (λ a, Regex.is_digit a = true) (list_ascii_of_string v).
Proof. apply field_value_shape. Qed.

(** X5. A text without a digit yields no field at all. *)
Theorem extract_invoice_fields_no_digit (ocr_text : string) :
  Forall (λ a, Regex.is_digit a = false) (list_ascii_of_string ocr_text) →
  extract_invoice_fields ocr_text = ∅.
Proof.
  intros Hno. apply map_empty. intros key.
  destruct (extract_invoice_fields ocr_text !! key) as [v|] eqn:E; [|done].
  apply field_value_shape in E as (_ & (pre & post & Ht) & Hd).
  rewrite Ht in Hno. apply Forall_app in Hno as [_ Hno].
  apply Forall_app in Hno as [Hno _].
  apply Exists_exists in Hd as (a & Ha & Hd).
  rewrite Forall_forall in Hno. by rewrite (Hno a Ha) in Hd.
Qed.

(** ** The C interface of the segmenter *)

Section CApiFacts.
Context `{!OpenCV}.

Lemma write_box_app (pre post : list Z) (a b c d : Z) (i : nat) (bx : Box.t) :
  length pre = (4 * i)%nat →
  segmentation_c_api.write_box (pre ++ [a; b; c; d] ++ post) i bx =
  pre ++ [Box.x bx; Box.y bx; Box.w bx; Box.h bx] ++ post.
Proof.
  intros Hl. unfold segmentation_c_api.write_box. rewrite <- Hl.
  by rewrite !insert_app_r.
Qed.

Lemma drop_four (l : list Z) (n : nat) :
  (n + 4 ≤ length l)%nat →
  ∃ a b c d, drop n l = [a; b; c; d] ++ drop (n + 4) l.
Proof.
  revert n. induction l as [|x l IH]; intros n Hn; [simpl in Hn; lia|].
  destruct n as [|n].
  - destruct l as [|b [|c [|d l]]]; simpl in Hn; try lia.
    by exists x, b, c, d.
  - simpl. apply IH. simpl in Hn. lia.
Qed.

Lemma flat_boxes_length boxes : length (flat_boxes boxes) = (4 * length boxes)%nat.
Proof.
  unfold flat_boxes. induction boxes as [|b boxes IH]; [done|].
  rewrite bind_cons, length_app, IH. simpl. lia.
Qed.

Lemma flat_boxes_snoc boxes b :
  flat_boxes (boxes ++ [b]) = flat_boxes boxes ++ [Box.x b; Box.y b; Box.w b; Box.h b].
Proof. unfold flat_boxes. rewrite bind_app. by rewrite bind_cons, app_nil_r. Qed.

Lemma fill_boxes_prefix boxes arr n :
  length arr = (4 * length boxes)%nat → (n ≤ length boxes)%nat →
  fold_left
    (λ arr i, match boxes !! i with
              | Some b => segmentation_c_api.write_box arr i b
              | None => arr
              end)
    (seq 0 n) arr
  = flat_boxes (take n boxes) ++ drop (4 * n) arr.
Proof.
  intros Hl. induction n as [|n IH]; intros Hn.
  - by rewrite take_0, Nat.mul_0_r, drop_0.
  - rewrite seq_S, fold_left_app, IH by lia. cbn [fold_left Nat.add].
    destruct (lookup_lt_is_Some_2 boxes n) as [b Hb]; [lia|]. rewrite Hb.
    destruct (drop_four arr (4 * n)) as (a & b' & c & d & Hd); [lia|].
    rewrite Hd, write_box_app
      by (rewrite flat_boxes_length, length_take; lia).
    rewrite (take_S_r _ _ _ Hb), flat_boxes_snoc, <- app_assoc.
    do 3 f_equal. f_equal. lia.
Qed.

Lemma fill_boxes_flat boxes arr :
  length arr = (4 * length boxes)%nat →
  segmentation_c_api.fill_boxes boxes arr = flat_boxes boxes.
Proof.
  intros Hl. unfold segmentation_c_api.fill_boxes.
  rewrite fill_boxes_prefix by done.
  by rewrite firstn_all, drop_ge, app_nil_r by lia.
Qed.

Lemma Mat_of_buffer_usable height width buffer :
  0 < width → 0 < height →
  Mat_empty (Mat_of_buffer height width 1 buffer) || negb (channels (Mat_of_buffer height width 1 buffer) =? 1) = false.
Proof.
  intros Hw Hh. unfold Mat_empty, rows, cols, channels, Mat_of_buffer. simpl.
  rewrite !Z2N.id by lia.
  apply orb_false_iff. split; [apply orb_false_iff; split; apply Z.eqb_neq; lia|done].
Qed.

Lemma valid_call_check seg img width height channels out_boxes out_count :
  valid_call seg img width height channels out_boxes out_count →
  ∃ buffer b c, img = Some buffer ∧ out_boxes = Some b ∧ out_count = Some c
    ∧ negb seg || (width <=? 0) || (height <=? 0) || negb (channels =? 1) = false.
Proof.
  intros (-> & [buffer ->] & Hw & Hh & -> & [b ->] & [c ->]).
  exists buffer, b, c. split_and!; [done..|].
  simpl. rewrite !orb_false_iff. split_and!; [apply Z.leb_gt; lia..|done].
Qed.

End CApiFacts.

(** X7. The C function [segment_lines] on arguments that pass its check:
    it returns 0, sets [*out_count] to the number of lines the segmenter
    finds in the image laid over the buffer, and sets [*out_boxes] to null
    when there is none and otherwise to an array of [4 * count] ints
    holding [x, y, w, h] of each line in order, whatever the allocated
    memory held before. *)
Theorem c_segment_lines_layout `{!OpenCV} (g : string) (seg : bool)
    (buffer : Z → Z) (width height channels : Z)
    (out_boxes : option (option (list Z))) (out_count : option Z)
    (block : list Z) :
  valid_call seg (Some buffer) width height channels out_boxes out_count →
  let r := segmentation_c_api.segment_lines g seg (Some buffer) width height
             channels out_boxes out_count block in
  let boxes := (segment_lines (Mat_of_buffer height width 1 buffer) EmptyString).1 in
  segmentation_c_api.code r = 0
  ∧ segmentation_c_api.count_cell r = Some (Z.of_nat (length boxes))
  ∧ segmentation_c_api.boxes_cell r =
      Some (if decide (boxes = []) then None else Some (flat_boxes boxes))
  ∧ length (flat_boxes boxes) = (4 * length boxes)%nat.
Proof.
  intros Hv. pose proof Hv as (_ & _ & Hw & Hh & _).
  destruct (valid_call_check _ _ _ _ _ _ _ Hv) as (buffer' & b & c & [= <-] & -> & -> & Hchk).
  cbv zeta.
  unfold segmentation_c_api.segment_lines. rewrite Hchk.
  unfold segment_lines. rewrite (Mat_of_buffer_usable _ _ _ Hw Hh). cbn [fst].
  set (boxes := boxes _). simpl String.eqb. cbn [negb].
  rewrite flat_boxes_length. case_bool_decide as Hb.
  - rewrite decide_True by done. by split_and!.
  - rewrite decide_False by done. simpl. split_and!; [done..| |done].
    do 2 f_equal. apply fill_boxes_flat. by rewrite length_resize.
Qed.

(** X8. The codes of the C function [segment_lines]: 1 exactly when the
    arguments fail its check, 0 otherwise.  Code 2 is never returned: an
    image laid over a buffer of positive width and height with one channel
    cannot fail the segmenter's own test. *)
Theorem c_segment_lines_code `{!OpenCV} (g : string) (seg : bool)
    (img : option (Z → Z)) (width height channels : Z)
    (out_boxes : option (option (list Z))) (out_count : option Z)
    (block : list Z) :
  let r := segmentation_c_api.segment_lines g seg img width height channels
             out_boxes out_count block in
  (segmentation_c_api.code r = 0
     ↔ valid_call seg img width height channels out_boxes out_count)
  ∧ (segmentation_c_api.code r = 1
     ↔ ¬ valid_call seg img width height channels out_boxes out_count)
  ∧ (segmentation_c_api.code r = 1 →
     segmentation_c_api.boxes_cell r = store out_boxes None
     ∧ segmentation_c_api.count_cell r = store out_count 0).
Proof.
  cbv zeta.
  destruct (decide (valid_call seg img width height channels out_boxes out_count))
    as [Hv|Hn].
  - pose proof Hv as (_ & _ & Hw & Hh & _).
    destruct (valid_call_check _ _ _ _ _ _ _ Hv) as (buffer & b & c & -> & -> & -> & Hchk).
    unfold segmentation_c_api.segment_lines. rewrite Hchk.
    unfold segment_lines. rewrite (Mat_of_buffer_usable _ _ _ Hw Hh).
    simpl String.eqb. cbn [negb]. case_bool_decide; simpl; split_and!; try done;
      split; try done; intros Hc; by destruct Hc.
  - assert (segmentation_c_api.segment_lines g seg img width height channels
              out_boxes out_count block
            = segmentation_c_api.mkResult 1 "Invalid arguments to segment_lines"
                (store out_boxes None) (store out_count 0)) as ->.
    { unfold segmentation_c_api.segment_lines.
      destruct img as [buffer|], out_boxes as [b|], out_count as [c|]; try done.
      destruct (negb seg || (width <=? 0) || (height <=? 0) || negb (channels =? 1)) eqn:E;
        [done|].
      destruct Hn. rewrite !orb_false_iff in E. destruct E as [[[Hs Hw] Hh] Hc].
      apply negb_false_iff in Hs, Hc. apply Z.leb_gt in Hw, Hh. apply Z.eqb_eq in Hc.
      by split_and!. }
    simpl. split_and!; [split; [done|by intros ?]|done|done].
Qed.

(** X9. After a call of the C function [segment_lines] that succeeds,
    [owlin_get_last_error()] is empty when lines were found, but still
    holds the message of an earlier failure when none was found: the
    branch for an empty result returns before [g_last_error.clear()]. *)
Theorem c_segment_lines_stale_error `{!OpenCV} (g : string) (seg : bool)
    (buffer : Z → Z) (width height channels : Z)
    (out_boxes : option (option (list Z))) (out_count : option Z)
    (block : list Z) :
  valid_call seg (Some buffer) width height channels out_boxes out_count →
  let r := segmentation_c_api.segment_lines g seg (Some buffer) width height
             channels out_boxes out_count block in
  let boxes := (segment_lines (Mat_of_buffer height width 1 buffer) EmptyString).1 in
  segmentation_c_api.owlin_get_last_error r =
    if decide (boxes = []) then g else EmptyString.
Proof.
  intros Hv. pose proof Hv as (_ & _ & Hw & Hh & _).
  destruct (valid_call_check _ _ _ _ _ _ _ Hv) as (buffer' & b & c & [= <-] & -> & -> & Hchk).
  cbv zeta.
  unfold segmentation_c_api.owlin_get_last_error, segmentation_c_api.segment_lines.
  rewrite Hchk. unfold segment_lines. rewrite (Mat_of_buffer_usable _ _ _ Hw Hh).
  cbn [fst]. simpl String.eqb. cbn [negb].
  case_bool_decide; [by rewrite decide_True|by rewrite decide_False].
Qed.

(** ** The Tesseract pipeline and the enhanced pipeline *)

Section PipelineFacts.
Context `{!OpenCV, !Leptonica, !LeptonicaTRC, !Imgproc}.






End PipelineFacts.

(** X11. The box cut out by the Tesseract border removal: for a content
    box of non-negative size inside the image, the box with the 10% margin
    stays inside the image, contains the content box, and adds at most a
    tenth of the content's width and height on each side. *)
Theorem border_margin_box (pix : Pix) (box : Rect.t) :
  rect_proper box → rect_within box (pix_rect pix) →
  rect_within (margin_box pix box) (pix_rect pix)
  ∧ rect_within box (margin_box pix box)
  ∧ Rect.x box - Rect.x (margin_box pix box) ≤ Rect.width box `quot` 10
  ∧ Rect.y box - Rect.y (margin_box pix box) ≤ Rect.height box `quot` 10
  ∧ Rect.width (margin_box pix box) ≤ Rect.width box + 2 * (Rect.width box `quot` 10)
  ∧ Rect.height (margin_box pix box) ≤ Rect.height box + 2 * (Rect.height box `quot` 10).
Proof.
  unfold rect_proper, rect_within, pix_rect, margin_box.
  destruct box as [x y w h]. simpl. intros [Hw Hh] (Hx & Hy & Hxw & Hyh).
  assert (0 ≤ w `quot` 10) by (apply Z.quot_pos; lia).
  assert (0 ≤ h `quot` 10) by (apply Z.quot_pos; lia).
  lia.
Qed.



(** ** The C interface of the preprocessing *)

Section BytesFacts.

Lemma bind_seqZ_lookup (f : Z → list Z) (n : nat) :
  (∀ y, length (f y) = n) →
  ∀ (k : nat) (s : Z) (y i : nat), (y < k)%nat → (i < n)%nat →
    (y' ← seqZ s (Z.of_nat k); f y') !! (y * n + i)%nat = f (s + Z.of_nat y) !! i.
Proof.
  intros Hf. induction k as [|k IH]; intros s y i Hy Hi; [lia|].
  rewrite seqZ_cons by lia. rewrite bind_cons.
  replace (Z.pred (Z.of_nat (S k))) with (Z.of_nat k) by lia.
  destruct y as [|y].
  - rewrite lookup_app_l by (rewrite Hf; lia). simpl. by rewrite Z.add_0_r.
  - rewrite lookup_app_r by (rewrite Hf; lia). rewrite Hf.
    replace (S y * n + i - n)%nat with (y * n + i)%nat by lia.
    rewrite IH by lia. f_equal. f_equal. lia.
Qed.

Lemma bind_seqZ_length (f : Z → list Z) (n : nat) :
  (∀ y, length (f y) = n) →
  ∀ (k : nat) (s : Z), length (y' ← seqZ s (Z.of_nat k); f y') = (k * n)%nat.
Proof.
  intros Hf. induction k as [|k IH]; intros s; [done|].
  rewrite seqZ_cons by lia. rewrite bind_cons, length_app, Hf.
  replace (Z.pred (Z.of_nat (S k))) with (Z.of_nat k) by lia.
  rewrite IH. lia.
Qed.

Lemma row_bytes_length img y :
  length (preprocess_c_api.row_bytes img y) = Z.to_nat (cols img * channels img).
Proof. unfold preprocess_c_api.row_bytes. by rewrite length_fmap, length_seqZ. Qed.

Lemma image_bytes_length img :
  Z.of_nat (length (preprocess_c_api.image_bytes img)) =
  rows img * cols img * channels img.
Proof.
  unfold preprocess_c_api.image_bytes.
  rewrite <- (Z2Nat.id (rows img)) at 1 by (unfold rows; lia).
  rewrite (bind_seqZ_length _ _ (row_bytes_length img)).
  unfold rows, cols, channels. lia.
Qed.

Lemma image_bytes_lookup img y i :
  in_image img y i →
  preprocess_c_api.image_bytes img
    !! Z.to_nat (y * (cols img * channels img) + i) = Some (at_uchar img y i).
Proof.
  intros [Hy Hi]. unfold preprocess_c_api.image_bytes.
  rewrite <- (Z2Nat.id (rows img)) by lia.
  replace (Z.to_nat (y * (cols img * channels img) + i))
    with (Z.to_nat y * Z.to_nat (cols img * channels img) + Z.to_nat i)%nat by nia.
  rewrite (bind_seqZ_lookup _ _ (row_bytes_length img)) by lia.
  rewrite Z.add_0_l, Z2Nat.id by lia.
  unfold preprocess_c_api.row_bytes. rewrite list_lookup_fmap.
  rewrite lookup_seqZ_lt by lia. simpl. f_equal. f_equal. lia.
Qed.

End BytesFacts.

Section PrepCApiFacts.
Context `{!OpenCV, !Leptonica, !Imgproc, !Imgcodecs}.

Lemma copy_image_data_cases g_err ok img :
  Mat_empty img = false →
  preprocess_c_api.copy_image_data g_err ok img =
    if ok then (Some (preprocess_c_api.image_bytes img), g_err)
    else (None, "Failed to allocate memory for image buffer").
Proof.
  intros He. unfold preprocess_c_api.copy_image_data. rewrite He. by destruct ok.
Qed.

End PrepCApiFacts.

(** X14. The buffer the C interface hands out holds the image row by
    row: it has [rows * cols * channels] bytes, and laid under the sizes
    written to [height], [width] and [channels], by the constructor the
    interface uses for its own input, it gives back every sample of the
    image. *)
Theorem image_bytes_round_trip (img : Mat) (y i : Z) :
  in_image img y i →
  at_uchar (Mat_of_bytes (rows img) (cols img) (channels img)
              (preprocess_c_api.image_bytes img)) y i
  = at_uchar img y i
  ∧ Z.of_nat (length (preprocess_c_api.image_bytes img))
    = rows img * cols img * channels img.
Proof.
  intros Hin. split; [|apply image_bytes_length].
  unfold Mat_of_bytes, Mat_of_buffer. simpl.
  by rewrite (list_lookup_total_correct _ _ _ (image_bytes_lookup img y i Hin)).
Qed.

(** X15. A file that cannot be read makes [preprocess_image] and
    [enhanced_preprocess_image] of the C interface return
    [OWLIN_PREPROCESS_ERR_UNKNOWN], not
    [OWLIN_PREPROCESS_ERR_FILE_NOT_FOUND]: the failure of [load_image] is
    an exception like any other.  The buffer cell is null, the size cells
    are untouched, and the message names the path. *)
Theorem unreadable_file_is_unknown_error `{!OpenCV, !Leptonica, !Imgproc, !Imgcodecs}
    (g_err : string) (g : option HybridPreprocessor) (ok : bool) (path : string)
    (w h c : Z) (b : option (list Z)) :
  Mat_empty (imread path) = true →
  let r1 := preprocess_c_api.preprocess_image g_err ok (Some path)
              (Some w) (Some h) (Some c) (Some b) in
  let r2 := preprocess_c_api.enhanced_preprocess_image g_err g ok (Some path)
              (Some w) (Some h) (Some c) (Some b) in
  r1 = preprocess_c_api.mkResult preprocess_c_api.OWLIN_PREPROCESS_ERR_UNKNOWN
         ("Preprocessing failed: Failed to load image: " +:+ path)
         (Some w) (Some h) (Some c) (Some None)
  ∧ r2 = Ret (preprocess_c_api.mkResult preprocess_c_api.OWLIN_PREPROCESS_ERR_UNKNOWN
                ("Enhanced preprocessing failed: Failed to load image: " +:+ path)
                (Some w) (Some h) (Some c) (Some None), g).
Proof.
  intros He. cbv zeta.
  unfold preprocess_c_api.preprocess_image, preprocess_c_api.enhanced_preprocess_image,
    preprocessing.preprocess_pipeline, preprocessing.enhanced_preprocess_pipeline,
    preprocessing.load_image.
  rewrite He. done.
Qed.

(** X16. What [enhanced_preprocess_buffer] returns: no exception leaves
    it, and it returns one of the codes 0, 1, 3, 4, 5 (never
    [FILE_NOT_FOUND] or [TESSERACT]).  On 0 the enhanced pipeline returned
    a non-empty image on the image laid over the input buffer, the three
    size cells hold its sizes, the buffer cell holds its bytes, and
    [g_last_error] is as before the call.  On any other code the size
    cells are untouched and the buffer cell is null, or untouched when the
    arguments failed the first check.  The behaviour of the call is
    undefined only where that of the enhanced pipeline on the image laid
    over the input buffer is. *)
Theorem enhanced_preprocess_buffer_outcome `{!OpenCV, !Leptonica, !Imgproc}
    (g_err : string) (g : option HybridPreprocessor) (ok : bool)
    (input_buffer : option (Z → Z)) (iw ih ic : Z)
    (width height nchannels : option Z) (out_buffer : option (option (list Z))) :
  match preprocess_c_api.enhanced_preprocess_buffer g_err g ok input_buffer
          iw ih ic width height nchannels out_buffer with
  | Defined (Ret (r, _)) =>
      preprocess_c_api.code r ∈ [0; 1; 3; 4; 5]
      ∧ (preprocess_c_api.code r = 0 →
         ∃ buffer m,
           input_buffer = Some buffer
           ∧ (enhanced_preprocess_image g (Mat_of_buffer ih iw ic buffer)).1 = Ret m
           ∧ Mat_empty m = false
           ∧ preprocess_c_api.width_cell r = Some (cols m)
           ∧ preprocess_c_api.height_cell r = Some (rows m)
           ∧ preprocess_c_api.channels_cell r = Some (channels m)
           ∧ preprocess_c_api.buffer_cell r
             = Some (Some (preprocess_c_api.image_bytes m))
           ∧ preprocess_c_api.last_error r = g_err)
      ∧ (preprocess_c_api.code r ≠ 0 →
         preprocess_c_api.width_cell r = width
         ∧ preprocess_c_api.height_cell r = height
         ∧ preprocess_c_api.channels_cell r = nchannels
         ∧ (preprocess_c_api.buffer_cell r = Some None
            ∨ preprocess_c_api.code r = 4
              ∧ preprocess_c_api.buffer_cell r = out_buffer))
  | Defined (Throw _) => False
  | Undefined =>
      ∃ buffer,
        input_buffer = Some buffer
        ∧ (enhanced_preprocess_image g (Mat_of_buffer ih iw ic buffer)).1 = Undefined
  end.
Proof.
  unfold preprocess_c_api.enhanced_preprocess_buffer.
  assert (∀ (x : Z), x ∈ [0; 1; 3; 4; 5] ↔ x = 0 ∨ x = 1 ∨ x = 3 ∨ x = 4 ∨ x = 5) as Hin.
  { intros x. rewrite !elem_of_cons, elem_of_nil. tauto. }
  destruct input_buffer as [buffer|], width as [w|], height as [h|],
    nchannels as [c|], out_buffer as [b|];
    try (simpl; rewrite Hin; split_and!; [tauto|done|intros _; split_and!; try done; by right]).
  destruct ((iw <=? 0) || (ih <=? 0) || (ic <=? 0)) eqn:Hchk;
    [simpl; rewrite Hin; split_and!; [tauto|done|intros _; split_and!; try done; by right]|].
  assert (∀ ch, ic = ch →
    match
      (let '(res, g') := enhanced_preprocess_image g (Mat_of_buffer ih iw ch buffer) in
       match res with
       | Defined (Ret result) =>
           Defined (Ret
             (if Mat_empty result then
                (preprocess_c_api.mkResult preprocess_c_api.OWLIN_PREPROCESS_ERR_OPENCV
                   "Enhanced preprocessing failed - empty result"
                   (Some w) (Some h) (Some c) (Some None), g')
              else
                match preprocess_c_api.copy_image_data g_err ok result with
                | (None, err) =>
                    (preprocess_c_api.mkResult preprocess_c_api.OWLIN_PREPROCESS_ERR_MEMORY err
                       (Some w) (Some h) (Some c) (Some None), g')
                | (Some buffer0, err) =>
                    (preprocess_c_api.mkResult preprocess_c_api.OWLIN_PREPROCESS_SUCCESS err
                       (Some (cols result)) (Some (rows result))
                       (Some (channels result)) (Some (Some buffer0)), g')
                end))
       | Defined (Throw what) =>
           Defined (Ret
             (preprocess_c_api.mkResult preprocess_c_api.OWLIN_PREPROCESS_ERR_UNKNOWN
                ("Enhanced buffer preprocessing failed: " +:+ what)
                (Some w) (Some h) (Some c) (Some None), g'))
       | Undefined => Undefined
       end)
    with
    | Defined (Ret (r, _)) =>
        preprocess_c_api.code r ∈ [0; 1; 3; 4; 5]
        ∧ (preprocess_c_api.code r = 0 →
           ∃ buffer0 m,
             Some buffer = Some buffer0
             ∧ (enhanced_preprocess_image g (Mat_of_buffer ih iw ic buffer0)).1 = Ret m
             ∧ Mat_empty m = false
             ∧ preprocess_c_api.width_cell r = Some (cols m)
             ∧ preprocess_c_api.height_cell r = Some (rows m)
             ∧ preprocess_c_api.channels_cell r = Some (channels m)
             ∧ preprocess_c_api.buffer_cell r
               = Some (Some (preprocess_c_api.image_bytes m))
             ∧ preprocess_c_api.last_error r = g_err)
        ∧ (preprocess_c_api.code r ≠ 0 →
           preprocess_c_api.width_cell r = Some w
           ∧ preprocess_c_api.height_cell r = Some h
           ∧ preprocess_c_api.channels_cell r = Some c
           ∧ (preprocess_c_api.buffer_cell r = Some None
              ∨ preprocess_c_api.code r = 4
                ∧ preprocess_c_api.buffer_cell r = Some b))
    | Defined (Throw _) => False
    | Undefined =>
        ∃ buffer0,
          Some buffer = Some buffer0
          ∧ (enhanced_preprocess_image g (Mat_of_buffer ih iw ic buffer0)).1 = Undefined
    end) as Hrun.
  { intros ch ->.
    destruct (enhanced_preprocess_image g (Mat_of_buffer ih iw ch buffer))
      as [[[m|what]|] g'] eqn:Erun; cbv zeta.
    - destruct (Mat_empty m) eqn:Hem.
      + simpl. rewrite Hin. split_and!; [tauto|done|]. intros _. split_and!; try done. by left.
      + rewrite copy_image_data_cases by done. destruct ok.
        * simpl. rewrite Hin. split_and!; [tauto| |done]. intros _.
          exists buffer, m. rewrite Erun. by split_and!.
        * simpl. rewrite Hin. split_and!; [tauto|done|]. intros _.
          split_and!; try done. by left.
    - simpl. rewrite Hin. split_and!; [tauto|done|]. intros _.
      split_and!; try done. by left.
    - exists buffer. by rewrite Erun. }
  destruct (Z.eqb_spec ic 1) as [E1|N1]; [by apply Hrun|].
  destruct (Z.eqb_spec ic 3) as [E3|N3]; [by apply Hrun|].
  simpl. rewrite Hin. split_and!; [tauto|done|]. intros _. split_and!; try done. by left.
Qed.

(** ** The band scan of [line_segmentation.cpp] *)

Section LineSegmentationFacts.
Context `{!OpenCV}.

Lemma boundingRect_size (c : list Point.t) :
  c ≠ [] → 1 ≤ Rect.width (boundingRect c) ∧ 1 ≤ Rect.height (boundingRect c).
Proof.
  destruct c as [|p ps]; [done|]. intros _. simpl.
  pose proof (fold_left_min_spec (Point.x <$> ps) (Point.x p)) as [? _].
  pose proof (fold_left_max_spec (Point.x <$> ps) (Point.x p)) as [? _].
  pose proof (fold_left_min_spec (Point.y <$> ps) (Point.y p)) as [? _].
  pose proof (fold_left_max_spec (Point.y <$> ps) (Point.y p)) as [? _].
  lia.
Qed.

Lemma Rect_union_fits Wd Ht a b :
  fits Wd Ht a → fits Wd Ht b → fits Wd Ht (line_segmentation.Rect_union a b).
Proof.
  unfold fits, line_segmentation.Rect_union, line_segmentation.Rect_empty.
  intros Ha Hb.
  destruct (Z.leb_spec (Rect.width a) 0), (Z.leb_spec (Rect.height a) 0),
    (Z.leb_spec (Rect.width b) 0), (Z.leb_spec (Rect.height b) 0); simpl; lia.
Qed.

Lemma boundingRect_fits Wd Ht c :
  c ≠ [] → (∀ p, p ∈ c → 0 ≤ Point.x p < Wd ∧ 0 ≤ Point.y p < Ht) →
  fits Wd Ht (boundingRect c).
Proof.
  intros Hne Hin. pose proof (boundingRect_within c Wd Ht Hne Hin) as Hw.
  pose proof (boundingRect_size c Hne). cbv zeta in Hw. unfold fits. lia.
Qed.

Lemma band_box_in_band bin s e r :
  contours_within_image → contours_nonempty →
  0 ≤ s < e →
  line_segmentation.band_box bin s e = Some r → rect_in_band bin s e r.
Proof.
  intros Hcv Hne Hse. unfold line_segmentation.band_box.
  set (band := line_segmentation.rowRange bin s e).
  assert (rows band = e - s) as Hrows
    by (unfold band, line_segmentation.rowRange, rows; simpl; lia).
  assert (cols band = cols bin) as Hcols by done.
  assert (∀ c, c ∈ findContours band → fits (cols bin) (e - s) (boundingRect c)) as Hfit.
  { intros c Hc. apply boundingRect_fits; [by apply (Hne band)|].
    intros p Hp. rewrite <- Hcols, <- Hrows. by apply (Hcv band c). }
  destruct (findContours band) as [|c0 cs]; [done|]. intros [= <-].
  assert (fits (cols bin) (e - s)
            (fold_left (λ bbox c, line_segmentation.Rect_union bbox (boundingRect c))
                       cs (boundingRect c0))) as Hb.
  { assert (fits (cols bin) (e - s) (boundingRect c0)) as H0
      by (apply Hfit; left).
    assert (∀ c, c ∈ cs → fits (cols bin) (e - s) (boundingRect c)) as Hcs
      by (intros c Hc; apply Hfit; by right).
    clear Hfit. revert H0. generalize (boundingRect c0).
    induction cs as [|c cs IH]; intros b0 H0; [done|]. simpl.
    apply IH; [intros c' Hc'; apply Hcs; by right|].
    apply Rect_union_fits; [done|]. apply Hcs. left. }
  unfold fits in Hb. unfold rect_in_band. simpl. lia.
Qed.

Lemma band_scan_row_inv bin n st :
  contours_within_image → contours_nonempty →
  0 ≤ n < rows bin →
  band_inv bin n st → band_inv bin (n + 1) (line_segmentation.scan_row bin st n).
Proof.
  intros Hcv Hne Hn [Hopen Hidle Hlines].
  assert (Forall (λ r, ∃ s e, text_band bin s e ∧ e < n + 1 ∧ rect_in_band bin s e r)
                 (line_segmentation.lines st)) as Hlines'.
  { eapply Forall_impl; [exact Hlines|]. intros r (s & e & Hb & He & Hr).
    exists s, e. split_and!; [done|lia|done]. }
  unfold line_segmentation.scan_row.
  destruct (line_segmentation.in_line st) eqn:Hin; simpl.
  - destruct (Hopen eq_refl) as (Hs & Hall & Hmax).
    destruct (Z.leb_spec (line_segmentation.row_sum bin n) line_segmentation.threshold)
      as [Hle|Hgt].
    + split; simpl; [done|intros _; right; by rewrite Z.add_simpl_r|].
      destruct (line_segmentation.band_box bin (line_segmentation.start st) n)
        as [bbox|] eqn:Hbox; [|done].
      apply Forall_app. split; [done|]. apply Forall_singleton.
      exists (line_segmentation.start st), n. split_and!; [|lia|].
      * unfold text_band. split_and!; try lia; done.
      * apply (band_box_in_band bin _ _ _ Hcv Hne); [lia|done].
    + split; [|by rewrite Hin|done]. intros _. split_and!; [lia|lia| |done].
      intros y Hy. destruct (decide (y = n)) as [->|]; [done|]. apply Hall. lia.
  - destruct (Z.ltb_spec line_segmentation.threshold (line_segmentation.row_sum bin n))
      as [Hgt|Hle].
    + split; simpl; [|done|done]. intros _. split_and!; [lia|lia| |].
      * intros y Hy. by replace y with n by lia.
      * destruct (Hidle eq_refl) as [->|?]; [by left|by right].
    + split; [by rewrite Hin| |done]. intros _. right. by rewrite Z.add_simpl_r.
Qed.

Lemma band_scan_rows_S bin (n : nat) :
  line_segmentation.scan_rows bin (Z.of_nat (S n)) =
  line_segmentation.scan_row bin (line_segmentation.scan_rows bin (Z.of_nat n)) (Z.of_nat n).
Proof. unfold line_segmentation.scan_rows. by rewrite seqZ_S, fold_left_app. Qed.

Lemma band_scan_rows_inv bin (n : nat) :
  contours_within_image → contours_nonempty →
  Z.of_nat n ≤ rows bin →
  band_inv bin (Z.of_nat n) (line_segmentation.scan_rows bin (Z.of_nat n)).
Proof.
  intros Hcv Hne. induction n as [|n IH]; intros Hn.
  - split; simpl; [done|by left|constructor].
  - rewrite band_scan_rows_S. replace (Z.of_nat (S n)) with (Z.of_nat n + 1) by lia.
    apply band_scan_row_inv; [done|done|lia|apply IH; lia].
Qed.

End LineSegmentationFacts.

(** X10. The free function [segment_lines] of [line_segmentation.cpp]
    throws on an empty image and on one that is not single-channel, and
    otherwise returns rectangles each of which has at least one pixel,
    lies within the columns of the image, and lies within a band of rows
    whose sums all exceed [10 * 255], closed below by a row whose sum does
    not and begun at the top of the image or below such a row.  A band
    still open at the last row yields no rectangle. *)
Theorem line_segmentation_bands `{!OpenCV} (bin_img : Mat) :
  contours_within_image → contours_nonempty →
  if Mat_empty bin_img || negb (channels bin_img =? 1) then
    line_segmentation.segment_lines bin_img =
      Throw "Input image must be a non-empty binary (CV_8UC1) image."
  else
    ∃ lines,
      line_segmentation.segment_lines bin_img = Ret lines
      ∧ Forall (λ r, ∃ s e, text_band bin_img s e ∧ rect_in_band bin_img s e r) lines.
Proof.
  intros Hcv Hne. unfold line_segmentation.segment_lines.
  destruct (Mat_empty bin_img || negb (channels bin_img =? 1)); [done|].
  eexists. split; [done|].
  pose proof (band_scan_rows_inv bin_img (Z.to_nat (rows bin_img)) Hcv Hne) as Hinv.
  rewrite Z2Nat.id in Hinv by (unfold rows; lia).
  destruct (Hinv ltac:(lia)) as [_ _ Hlines].
  eapply Forall_impl; [exact Hlines|]. intros r (s & e & Hb & _ & Hr). by exists s, e.
Qed.

(** ** Filtering by confidence *)

Section FilterFacts.

Lemma filter_by_confidence_filter results t :
  filter_by_confidence results t = List.filter (λ r, Qle_bool t r.2) results.
Proof.
  unfold filter_by_confidence.
  cut (∀ acc, fold_left
                (λ filtered r, if Qle_bool t r.2 then filtered ++ [r] else filtered)
                results acc
              = acc ++ List.filter (λ r : string * Q, Qle_bool t r.2) results).
  { intros Hacc. by rewrite Hacc. }
  induction results as [|r results IH]; intros acc; simpl; [by rewrite app_nil_r|].
  rewrite IH. destruct (Qle_bool t r.2); [by rewrite <- app_assoc|done].
Qed.

Lemma Qle_bool_both (t1 t2 c : Q) :
  Qle_bool t1 c && Qle_bool t2 c = Qle_bool (if Qle_bool t1 t2 then t2 else t1) c.
Proof.
  destruct (Qle_bool t1 t2) eqn:E12.
  - apply Qle_bool_iff in E12. destruct (Qle_bool t2 c) eqn:E2.
    + apply Qle_bool_iff in E2. rewrite andb_true_r.
      apply Qle_bool_iff. by apply Qle_trans with t2.
    + by rewrite andb_false_r.
  - destruct (Qle_bool t1 c) eqn:E1; [|done]. simpl.
    apply Qle_bool_iff in E1. apply Qle_bool_iff.
    apply Qle_trans with t1; [|done]. apply Qlt_le_weak, Qnot_le_lt.
    intros Hle. apply Qle_bool_iff in Hle. congruence.
Qed.

Lemma List_filter_sublist {A} (f : A → bool) (l : list A) :
  sublist (List.filter f l) l.
Proof.
  induction l as [|a l IH]; simpl; [constructor|].
  destruct (f a); by constructor.
Qed.

Lemma List_filter_filter {A} (f g : A → bool) (l : list A) :
  List.filter g (List.filter f l) = List.filter (λ a, f a && g a) l.
Proof.
  induction l as [|a l IH]; simpl; [done|].
  destruct (f a); simpl; [destruct (g a); by rewrite IH|done].
Qed.

End FilterFacts.

(** X6. [filter_by_confidence] keeps, in their order, exactly the
    results whose confidence is at least the threshold, and filtering
    twice is filtering once by the larger threshold. *)
Theorem filter_by_confidence_twice (results : list (string * Q)) (t1 t2 : Q) :
  filter_by_confidence (filter_by_confidence results t1) t2
    = filter_by_confidence results (if Qle_bool t1 t2 then t2 else t1)
  ∧ sublist (filter_by_confidence results t1) results
  ∧ ∀ r, r ∈ filter_by_confidence results t1 ↔ r ∈ results ∧ (t1 <= r.2)%Q.
Proof.
  rewrite !filter_by_confidence_filter. split_and!.
  - rewrite List_filter_filter. apply filter_ext. intros r. apply Qle_bool_both.
  - apply List_filter_sublist.
  - intros r. by rewrite elem_of_List_filter, Qle_bool_iff.
Qed.

(** ** Blocks and their recognition *)

Section LayoutFacts.
Context `{!OpenCV, !Imgproc, !TessBaseAPI}.

Lemma Mat_roi_returns img r :
  returns (Mat_roi img r) ↔ rect_in_image img r.
Proof.
  unfold Mat_roi, rect_in_image, returns.
  destruct (Z.leb_spec 0 (Rect.x r)), (Z.leb_spec 0 (Rect.width r)),
    (Z.leb_spec (Rect.x r + Rect.width r) (cols img)),
    (Z.leb_spec 0 (Rect.y r)), (Z.leb_spec 0 (Rect.height r)),
    (Z.leb_spec (Rect.y r + Rect.height r) (rows img)); simpl;
    (split; [intros [m Hm]; first [discriminate|lia]
            |intros ?; first [by eexists|lia]]).
Qed.

Lemma recognize_regions_returns img regions :
  returns (recognition.recognize_regions img regions)
  ↔ Forall (rect_in_image img) regions.
Proof.
  unfold recognition.recognize_regions.
  induction regions as [|r regions IH]; simpl.
  - split; [constructor|by eexists].
  - rewrite Forall_cons, <- IH, <- Mat_roi_returns. unfold returns. split.
    + intros [bs Hbs]. destruct (Mat_roi img r) as [roi|e]; [|done]. simpl in Hbs.
      destruct (for_each _ regions) as [bs'|e]; [|done]. split; by eexists.
    + intros [[roi ->] [bs ->]]. simpl. by eexists.
Qed.

Lemma recognize_regions_length img regions results :
  recognition.recognize_regions img regions = Ret results →
  length results = length regions.
Proof.
  unfold recognition.recognize_regions. revert results.
  induction regions as [|r regions IH]; intros results; simpl; [by intros [= <-]|].
  destruct (Mat_roi img r) as [roi|e]; [|done]. simpl.
  destruct (for_each _ regions) as [bs|e] eqn:E; [|done]. simpl.
  intros [= <-]. simpl. by rewrite (IH bs).
Qed.

Lemma keep_block_fold img (cs : list (list Point.t)) (acc : list Rect.t) :
  (∀ c p, c ∈ cs → p ∈ c →
     0 ≤ Point.x p < cols img ∧ 0 ≤ Point.y p < rows img) →
  Forall (λ r, rect_in_image img r ∧ 100 < Rect.width r * Rect.height r) acc →
  Forall (λ r, rect_in_image img r ∧ 100 < Rect.width r * Rect.height r)
         (fold_left layout.keep_block cs acc).
Proof.
  revert acc. induction cs as [|c cs IH]; intros acc Hin Hacc; [done|]. simpl.
  apply IH; [intros c' p Hc' Hp; apply (Hin c' p); [by right|done]|].
  unfold layout.keep_block.
  destruct (Z.ltb_spec 100 (Rect.width (boundingRect c) * Rect.height (boundingRect c)))
    as [Harea|_]; [|done].
  apply Forall_app. split; [done|]. apply Forall_singleton. split; [|done].
  destruct c as [|p0 ps]; [simpl in Harea; lia|].
  pose proof (boundingRect_within (p0 :: ps) (cols img) (rows img) ltac:(done)
                (λ p Hp, Hin _ p ltac:(left) Hp)) as Hw.
  pose proof (boundingRect_size (p0 :: ps) ltac:(done)) as Hs.
  cbv zeta in Hw. unfold rect_in_image. lia.
Qed.

End LayoutFacts.

(** X17. On a single-channel image [detect_text_blocks] returns, and
    every block it returns lies inside the image and has an area above
    100; [detect_text_lines] returns the same blocks.  So the blocks can
    all be cropped: [recognize_regions] on them does not throw and gives
    one result for each block.  In general [recognize_regions] returns
    exactly when every region lies inside the image. *)
Theorem detected_blocks_recognizable `{!OpenCV, !Imgproc, !TessBaseAPI} (img : Mat) :
  contours_within_image → channels img = 1 →
  (∃ blocks results,
     layout.detect_text_blocks img = Ret blocks
     ∧ layout.detect_text_lines img = Ret blocks
     ∧ Forall (λ r, rect_in_image img r ∧ 100 < Rect.width r * Rect.height r) blocks
     ∧ recognition.recognize_regions img blocks = Ret results
     ∧ length results = length blocks)
  ∧ ∀ regions,
      returns (recognition.recognize_regions img regions)
      ↔ Forall (rect_in_image img) regions.
Proof.
  intros Hcv Hch. split; [|apply recognize_regions_returns].
  unfold layout.detect_text_lines, layout.detect_text_blocks, layout.findContours_8UC1.
  rewrite Hch. simpl. unfold clone. rewrite Hch. simpl.
  assert (Forall (λ r, rect_in_image img r ∧ 100 < Rect.width r * Rect.height r)
                 (fold_left layout.keep_block (findContours img) [])) as Hblocks.
  { apply keep_block_fold; [|constructor]. intros c p Hc Hp. by apply (Hcv img c p). }
  destruct (proj2 (recognize_regions_returns img
              (fold_left layout.keep_block (findContours img) []))) as [results Hres].
  { eapply Forall_impl; [exact Hblocks|]. by intros r [? _]. }
  eexists _, results. split_and!; [done..|].
  by apply recognize_regions_length in Hres.
Qed.

(** ** The C interface of the OCR pipeline *)

Section OcrCApiFacts.
Context `{!Imgproc, !Imgcodecs, !TessBaseAPI}.

Lemma deliver_code ok pre c :
  owlin_ocr_c_api.code (owlin_ocr_c_api.deliver ok pre c) = (if ok then 0 else 1).
Proof. unfold owlin_ocr_c_api.deliver. by destruct ok. Qed.

Lemma deliver_without_engine pre c :
  Init_eng = false →
  owlin_ocr_c_api.deliver true pre c =
    owlin_ocr_c_api.mkResult 0 (Some (Some EmptyString)) (Some 0%Q).
Proof.
  intros Hi. unfold owlin_ocr_c_api.deliver, recognition.recognize_text.
  by rewrite Hi.
Qed.

End OcrCApiFacts.

(** X18. The codes of the OCR interface: [owlin_ocr_from_buffer] returns
    only [OWLIN_OCR_SUCCESS] or [OWLIN_OCR_ERR_UNKNOWN], and
    [owlin_ocr_from_file] these or [OWLIN_OCR_ERR_PREPROCESS];
    [OWLIN_OCR_ERR_FILE_NOT_FOUND] and [OWLIN_OCR_ERR_OCR] are never
    returned, so [owlin_ocr_strerror] of a returned code is never
    "File not found" or "OCR error". *)
Theorem owlin_ocr_codes `{!Imgproc, !Imgcodecs, !TessBaseAPI}
    (ok : bool) (buffer : option (Z → Z)) (width height nchannels : Z)
    (filepath : option string)
    (out_text_ptr : option (option string)) (out_confidence : option Q) :
  let rb := owlin_ocr_c_api.owlin_ocr_from_buffer ok buffer width height nchannels
              out_text_ptr out_confidence in
  let rf := owlin_ocr_c_api.owlin_ocr_from_file ok filepath out_text_ptr out_confidence in
  owlin_ocr_c_api.code rb ∈ [0; 1]
  ∧ owlin_ocr_c_api.code rf ∈ [0; 1; 3]
  ∧ owlin_ocr_c_api.owlin_ocr_strerror (owlin_ocr_c_api.code rb)
      ∈ ["Success"; "Unknown error"]
  ∧ owlin_ocr_c_api.owlin_ocr_strerror (owlin_ocr_c_api.code rf)
      ∈ ["Success"; "Unknown error"; "Preprocessing error"].
Proof.
  cbv zeta.
  assert (owlin_ocr_c_api.code
            (owlin_ocr_c_api.owlin_ocr_from_buffer ok buffer width height nchannels
               out_text_ptr out_confidence) = 0
          ∨ owlin_ocr_c_api.code
              (owlin_ocr_c_api.owlin_ocr_from_buffer ok buffer width height nchannels
                 out_text_ptr out_confidence) = 1) as Hb.
  { unfold owlin_ocr_c_api.owlin_ocr_from_buffer.
    destruct buffer, out_text_ptr, out_confidence; try (by right).
    destruct ((width <=? 0) || (height <=? 0)); [by right|].
    match goal with |- context [match ?m with Ret _ => _ | Throw _ => _ end] =>
      destruct m end; [|by right].
    rewrite deliver_code. destruct ok; [by left|by right]. }
  assert (owlin_ocr_c_api.code
            (owlin_ocr_c_api.owlin_ocr_from_file ok filepath out_text_ptr out_confidence) = 0
          ∨ owlin_ocr_c_api.code
              (owlin_ocr_c_api.owlin_ocr_from_file ok filepath out_text_ptr out_confidence) = 1
          ∨ owlin_ocr_c_api.code
              (owlin_ocr_c_api.owlin_ocr_from_file ok filepath out_text_ptr out_confidence) = 3)
    as Hf.
  { unfold owlin_ocr_c_api.owlin_ocr_from_file.
    destruct filepath, out_text_ptr, out_confidence; try (by right; left).
    destruct (preprocessing.preprocess_pipeline _) as [pre|e]; [|by right; left].
    destruct (Mat_empty pre); [by right; right|].
    rewrite deliver_code. destruct ok; [by left|by right; left]. }
  split_and!.
  - destruct Hb as [->| ->];
      repeat first [apply list_elem_of_here|apply list_elem_of_further].
  - destruct Hf as [->|[->| ->]];
      repeat first [apply list_elem_of_here|apply list_elem_of_further].
  - destruct Hb as [->| ->]; vm_compute;
      repeat first [apply list_elem_of_here|apply list_elem_of_further].
  - destruct Hf as [->|[->| ->]]; vm_compute;
      repeat first [apply list_elem_of_here|apply list_elem_of_further].
Qed.

(** X19. When the Tesseract engine cannot be initialized, the OCR
    interface still reports success: for a file whose preprocessing gives
    a non-empty image, [owlin_ocr_from_file] returns [OWLIN_OCR_SUCCESS]
    with the empty text and confidence 0, because [recognize_text] answers
    a failed [Init] with that pair and no error. *)
Theorem ocr_engine_failure_reported_as_success
    `{!Imgproc, !Imgcodecs, !TessBaseAPI}
    (path : string) (pre : Mat) (t : option string) (c : Q) :
  Init_eng = false →
  preprocessing.preprocess_pipeline path = Ret pre →
  Mat_empty pre = false →
  owlin_ocr_c_api.owlin_ocr_from_file true (Some path) (Some t) (Some c)
  = owlin_ocr_c_api.mkResult owlin_ocr_c_api.OWLIN_OCR_SUCCESS
      (Some (Some EmptyString)) (Some 0%Q).
Proof.
  intros Hi Hpre Hne. unfold owlin_ocr_c_api.owlin_ocr_from_file.
  rewrite Hpre, Hne. by apply deliver_without_engine.
Qed.

(** X20. [ocr_recognize] on arguments that pass its check returns 0 or
    2, and 2 only because Tesseract returned no text: the recognizer's own
    test of the engine and the image cannot fail.  On 0 the cells hold the
    text and the mean confidence divided by 100 and [g_last_error] is
    cleared; on 2 the text cell is null, the confidence 0 and the message
    is the one of the missing text. *)
Theorem ocr_recognize_outcome `{!TessBaseAPI} (g : string) (buffer : Z → Z)
    (width height : Z) (t : option string) (c : Q) :
  0 < width → 0 < height →
  let mat := Mat_of_buffer height width 1 buffer in
  recognition_c_api.ocr_recognize g true (Some buffer) width height 1 (Some t) (Some c)
  = match GetUTF8Text mat with
    | Some text =>
        recognition_c_api.mkResult 0 EmptyString (Some (Some text))
          (Some (inject_Z (MeanTextConf mat) / 100)%Q)
    | None =>
        recognition_c_api.mkResult 2 "Tesseract failed to recognize text"
          (Some None) (Some 0%Q)
    end.
Proof.
  intros Hw Hh. cbv zeta. unfold recognition_c_api.ocr_recognize.
  destruct (Z.leb_spec width 0); [lia|]. destruct (Z.leb_spec height 0); [lia|].
  simpl. unfold recognition.recognize. cbn [negb orb].
  rewrite (Mat_of_buffer_usable _ _ _ Hw Hh).
  by destruct (GetUTF8Text _).
Qed.

(** ** The further theorems on sample inputs *)

Section ExtraSampleRuns.
Import Samples StageSamples MoreSamples ExtraSamples.

Lemma blob_contour_nonempty : @contours_nonempty sample_cv.
Proof.
  intros bin c Hc. simpl in Hc. unfold blob_contour in Hc.
  destruct (_ ≫= _) as [|q qs]; [by apply elem_of_nil in Hc|].
  by apply list_elem_of_singleton in Hc as ->.
Qed.

Example extract_invoice_fields_two_totals :
  extract_invoice_fields text_two_totals
  = {[ "invoice_number" := "inv 7"; "date" := "01/02/2024"; "total" := "1.23" ]}.
Proof. by vm_compute. Qed.

Example line_segmentation_white_on_black :
  @line_segmentation.segment_lines sample_cv page_white_on_black
  = Ret [Rect.mk 5 2 30 10].
Proof. by vm_compute. Qed.

Example line_segmentation_open_band :
  @line_segmentation.segment_lines sample_cv page_two_lines = Ret [].
Proof. by vm_compute. Qed.

Example c_segment_lines_two_lines :
  @segmentation_c_api.segment_lines sample_cv "stale" true
    (Some (buffer_of page_two_lines)) 40 30 1 (Some None) (Some 7) [9; 9; 9; 9; 9]
  = segmentation_c_api.mkResult 0 EmptyString (Some (Some [5; 2; 30; 10])) (Some 1).
Proof. by vm_compute. Qed.

Example c_segment_lines_blank_keeps_error :
  @segmentation_c_api.segment_lines sample_cv "stale" true
    (Some (buffer_of page_blank)) 40 30 1 (Some None) (Some 7) []
  = segmentation_c_api.mkResult 0 "stale" (Some None) (Some 0).
Proof. by vm_compute. Qed.

Example detect_text_blocks_sample :
  @layout.detect_text_blocks sample_cv sample_imgproc page_blocks
  = Ret [Rect.mk 5 2 20 10].
Proof. by vm_compute. Qed.

Lemma extract_invoice_fields_values_witness :
  extract_invoice_fields sample_invoice_text !! "date" = Some "2023-05-12"
  ∧ occurs_in (list_ascii_of_string "2023-05-12") sample_invoice_text.
Proof.
  assert (extract_invoice_fields sample_invoice_text !! "date" = Some "2023-05-12")
    as Hdate by (by vm_compute).
  split; [exact Hdate|].
  exact (proj1 (proj2 (extract_invoice_fields_values _ _ _ Hdate))).
Defined.

Lemma extract_invoice_fields_no_digit_witness :
  extract_invoice_fields text_no_digit = ∅.
Proof.
  apply extract_invoice_fields_no_digit.
  apply (bool_decide_unpack _). by vm_compute.
Defined.

Lemma two_lines_valid_call :
  valid_call true (Some (buffer_of page_two_lines)) 40 30 1 (Some None) (Some 7).
Proof. unfold valid_call. split_and!; try done; by eexists. Qed.

Lemma c_segment_lines_layout_witness :
  segmentation_c_api.count_cell
    (@segmentation_c_api.segment_lines sample_cv "stale" true
       (Some (buffer_of page_two_lines)) 40 30 1 (Some None) (Some 7) [])
  = Some (Z.of_nat (length
      (@segment_lines sample_cv
         (Mat_of_buffer 30 40 1 (buffer_of page_two_lines)) EmptyString).1)).
Proof.
  exact (proj1 (proj2 (@c_segment_lines_layout sample_cv "stale" true
                         (buffer_of page_two_lines) 40 30 1 (Some None) (Some 7) []
                         two_lines_valid_call))).
Defined.

Lemma c_segment_lines_stale_error_witness :
  segmentation_c_api.owlin_get_last_error
    (@segmentation_c_api.segment_lines sample_cv "stale" true
       (Some (buffer_of page_two_lines)) 40 30 1 (Some None) (Some 7) [])
  = if decide ((@segment_lines sample_cv
                  (Mat_of_buffer 30 40 1 (buffer_of page_two_lines)) EmptyString).1 = [])
    then "stale" else EmptyString.
Proof.
  exact (@c_segment_lines_stale_error sample_cv "stale" true
           (buffer_of page_two_lines) 40 30 1 (Some None) (Some 7) []
           two_lines_valid_call).
Defined.

Lemma border_margin_box_witness :
  rect_within (Rect.mk 10 20 50 40) (margin_box pix_100_80 (Rect.mk 10 20 50 40))
  ∧ margin_box pix_100_80 (Rect.mk 10 20 50 40) = Rect.mk 5 16 60 48.
Proof.
  split; [|reflexivity].
  apply (border_margin_box pix_100_80 (Rect.mk 10 20 50 40)).
  - unfold rect_proper. simpl. lia.
  - unfold rect_within. simpl. lia.
Defined.




(** With thresholds that return images 1 bit deep the enhanced pipeline
    destroys an image twice in its Threshold step. *)
Example enhanced_pipeline_destroys_twice :
  @enhanced_preprocess_pipeline sample_cv leptonica_binary sample_imgproc
    (@HybridPreprocessor_new leptonica_binary) page_one_line
  = Undefined.
Proof. by vm_compute. Qed.

Lemma image_bytes_round_trip_witness :
  at_uchar (Mat_of_bytes (rows page_small) (cols page_small) (channels page_small)
              (preprocess_c_api.image_bytes page_small)) 2 3
  = at_uchar page_small 2 3.
Proof.
  apply (image_bytes_round_trip page_small 2 3).
  unfold in_image. vm_compute. by repeat split.
Defined.

Lemma unreadable_file_is_unknown_error_witness :
  preprocess_c_api.code
    (@preprocess_c_api.preprocess_image sample_imgproc one_file
       EmptyString true (Some "missing.png") (Some 0) (Some 0) (Some 0) (Some None))
  = preprocess_c_api.OWLIN_PREPROCESS_ERR_UNKNOWN.
Proof.
  rewrite (proj1 (@unreadable_file_is_unknown_error sample_cv leptonica_ok
                    sample_imgproc one_file EmptyString None true "missing.png"
                    0 0 0 None eq_refl)).
  reflexivity.
Defined.

Lemma line_segmentation_bands_witness :
  ∃ lines,
    @line_segmentation.segment_lines sample_cv page_white_on_black = Ret lines
    ∧ Forall (λ r, ∃ s e, text_band page_white_on_black s e
                          ∧ rect_in_band page_white_on_black s e r) lines.
Proof.
  exact (@line_segmentation_bands sample_cv page_white_on_black
           blob_contour_within blob_contour_nonempty).
Defined.

Lemma detected_blocks_recognizable_witness :
  ∃ blocks results,
    @layout.detect_text_blocks sample_cv sample_imgproc page_blocks = Ret blocks
    ∧ @layout.detect_text_lines sample_cv sample_imgproc page_blocks = Ret blocks
    ∧ Forall (λ r, rect_in_image page_blocks r ∧ 100 < Rect.width r * Rect.height r)
             blocks
    ∧ @recognition.recognize_regions tess_reads page_blocks blocks = Ret results
    ∧ length results = length blocks.
Proof.
  exact (proj1 (@detected_blocks_recognizable sample_cv sample_imgproc tess_reads
                  page_blocks blob_contour_within eq_refl)).
Defined.

Lemma ocr_engine_failure_reported_as_success_witness :
  @owlin_ocr_c_api.owlin_ocr_from_file sample_imgproc one_file tess_missing
    true (Some "invoice.png") (Some None) (Some 1%Q)
  = owlin_ocr_c_api.mkResult owlin_ocr_c_api.OWLIN_OCR_SUCCESS
      (Some (Some EmptyString)) (Some 0%Q).
Proof.
  eapply (@ocr_engine_failure_reported_as_success sample_imgproc one_file
            tess_missing "invoice.png" _ None 1%Q);
    [reflexivity|reflexivity|reflexivity].
Defined.

Lemma ocr_recognize_outcome_witness :
  @recognition_c_api.ocr_recognize tess_reads "stale" true
    (Some (buffer_of page_small)) 8 6 1 (Some None) (Some 0%Q)
  = recognition_c_api.mkResult 0 EmptyString (Some (Some "INV 42"))
      (Some (inject_Z 87 / 100)%Q).
Proof.
  apply (@ocr_recognize_outcome tess_reads "stale" (buffer_of page_small) 8 6 None 0%Q);
    lia.
Defined.
End ExtraSampleRuns.
